(** * CoWash-Template: scripts/generate_fa_pages.py and
      scripts/update_html_assets.py

    A shallow embedding of the page translator: the whitespace splitter,
    the extractor over a BeautifulSoup tree, the caching translation
    client with its retry loop, the reinjector, the RTL markup adjuster
    and the orchestrating [main]; and of the asset updater, which
    rewrites the pages line by line.

    Python [str] values are sequences of Unicode code points; they are
    modelled as [list N].  The parsed document is a forest of nodes, each
    carrying the identity of the Python object it stands for, so that an
    entry can keep a reference to a node across mutations of the tree. *)

From Stdlib Require Import String Ascii QArith DecimalString.
From stdpp Require Import gmap list.

Local Open Scope N_scope.
Local Open Scope nat_scope.

(** ** Python strings *)

Abbreviation str := (list N).

(** A literal of the source, as a sequence of code points. *)
Definition lit (s : string) : str :=
  N_of_ascii <$> list_ascii_of_string s.

(** [str.isspace] on one code point: the characters of bidirectional type
    WS, B or S and of category Zs. *)
Definition isspace (c : N) : bool :=
  ((9 <=? c) && (c <=? 13))%N || ((28 <=? c) && (c <=? 32))%N
  || (c =? 133)%N || (c =? 160)%N || (c =? 5760)%N
  || ((8192 <=? c) && (c <=? 8202))%N
  || (c =? 8232)%N || (c =? 8233)%N || (c =? 8239)%N || (c =? 8287)%N
  || (c =? 12288)%N.

Fixpoint dropwhile {A} (p : A → bool) (l : list A) : list A :=
  match l with
  | [] => []
  | x :: l' => if p x then dropwhile p l' else l
  end.

Definition lstrip (s : str) : str := dropwhile isspace s.
Definition rstrip (s : str) : str := reverse (dropwhile isspace (reverse s)).
Definition strip (s : str) : str := rstrip (lstrip s).

(** Truthiness of a [str]: non-empty. *)
Definition nonempty {A} (l : list A) : bool :=
  match l with [] => false | _ => true end.

(** ** split_text *)

Definition split_text (text : str) : str * str * str :=
  let stripped := strip text in
  if negb (nonempty stripped) then ([], [], [])
  else
    let leading_len := length text - length (lstrip text) in
    let trailing_len := length text - length (rstrip text) in
    let leading := take leading_len text in
    let trailing :=
      if (trailing_len =? 0) then [] else drop (length text - trailing_len) text in
    (leading, stripped, trailing).

(** ** Python dicts with [str] keys

    Insertion order is kept: [d[k] = v] leaves an existing key in its place
    and puts a new one last. *)

Fixpoint dict_get {V} (k : str) (d : list (str * V)) : option V :=
  match d with
  | [] => None
  | (k', v) :: d' => if decide (k' = k) then Some v else dict_get k d'
  end.

Fixpoint dict_set {V} (k : str) (v : V) (d : list (str * V)) : list (str * V) :=
  match d with
  | [] => [(k, v)]
  | (k', v') :: d' =>
      if decide (k' = k) then (k, v) :: d' else (k', v') :: dict_set k v d'
  end.

(** ** Results and exceptions *)

(** The exceptions that can travel through the script.
    [RequestException] stands for [requests.RequestException] and all its
    subclasses; its argument is what [str(exc)] gives. *)
Inductive exn :=
| RequestException (msg : str)
| RuntimeError (msg : str)
| ValueError
| IndexError
| KeyError
| TypeError
| AttributeError
| OtherError (msg : str).

Inductive result (A : Type) :=
| Ok (a : A)
| Err (e : exn).
Arguments Ok {A} a.
Arguments Err {A} e.

Definition is_ok {A} (r : result A) : bool :=
  match r with Ok _ => true | Err _ => false end.

(** ** The document tree (bs4, html.parser builder) *)

Module bs4.

Definition node_id := nat.

(** The classes of string nodes the parser creates; the subclasses used
    for the text inside script, style and template elements behave as
    plain [NavigableString] here. *)
Inductive strkind :=
| NavigableString | Comment | Doctype | CData
| ProcessingInstruction | Declaration.

(** An attribute value is a [str], or a list of [str] for the
    multi-valued attributes (class, rel, ...). *)
Inductive attrval :=
| AStr (s : str)
| AList (l : list str).

(** [Tag.attrs] is a dict; insertion order is kept. *)
Abbreviation attrs_t := (list (str * attrval)).

Inductive node :=
| Str (i : node_id) (k : strkind) (text : str)
| Tag (i : node_id) (name : str) (attrs : attrs_t) (contents : list node).

(** The [BeautifulSoup] object: the top-level contents, and the identity
    the next created object will get. *)
Record BeautifulSoup := mkSoup {
  contents : list node;
  next_id : node_id;
}.

Global Instance strkind_eq_dec : EqDecision strkind.
Proof. solve_decision. Defined.
Global Instance attrval_eq_dec : EqDecision attrval.
Proof. solve_decision. Defined.

Definition id_of (n : node) : node_id :=
  match n with Str i _ _ => i | Tag i _ _ _ => i end.

Definition attrs_of (n : node) : attrs_t :=
  match n with Str _ _ _ => [] | Tag _ _ a _ => a end.

Definition contents_of (n : node) : list node :=
  match n with Str _ _ _ => [] | Tag _ _ _ cs => cs end.

(** The name of the soup object itself, the parent of top-level nodes. *)
Definition document_name : str := lit "[document]".

(** *** Traversal *)

(** [descendants], in document order; a node's own entry comes first. *)
Fixpoint self_and_descendants (n : node) : list node :=
  n :: match n with
       | Str _ _ _ => []
       | Tag _ _ _ cs => flat_map self_and_descendants cs
       end.

Definition descendants (forest : list node) : list node :=
  flat_map self_and_descendants forest.

Definition ids (forest : list node) : list node_id :=
  id_of <$> descendants forest.

Definition find_all (p : node → bool) (forest : list node) : list node :=
  filter (λ n, p n = true) (descendants forest).

Definition find (p : node → bool) (forest : list node) : option node :=
  head (find_all p forest).

(** [find_all(string=True)]: every string node, with the name of its
    parent. *)
Fixpoint strings_under (parent : str) (n : node)
    : list (str * (node_id * strkind * str)) :=
  match n with
  | Str i k s => [(parent, (i, k, s))]
  | Tag _ nm _ cs => flat_map (strings_under nm) cs
  end.

Definition all_strings (soup : BeautifulSoup) :=
  flat_map (strings_under document_name) (contents soup).

(** *** Search criteria *)

(** A tag of the given name. *)
Definition named (nm : str) (n : node) : bool :=
  match n with
  | Str _ _ _ => false
  | Tag _ nm' _ _ => bool_decide (nm' = nm)
  end.

Fixpoint join (sep : str) (l : list str) : str :=
  match l with
  | [] => []
  | [s] => s
  | s :: l' => s ++ sep ++ join sep l'
  end.

(** An attribute value against a [str] criterion: equality; for a
    multi-valued attribute, some item is equal, or the items joined by
    spaces are. *)
Definition value_matches (target : str) (v : attrval) : bool :=
  match v with
  | AStr s => bool_decide (s = target)
  | AList l => bool_decide (target ∈ l) || bool_decide (join (lit " ") l = target)
  end.

(** [find(nm, attrs={k: target})]. *)
Definition named_with (nm k target : str) (n : node) : bool :=
  named nm n &&
  match dict_get k (attrs_of n) with
  | Some v => value_matches target v
  | None => false
  end.

(** [find_all(nm, attrs={k: True})]. *)
Definition named_having (nm k : str) (n : node) : bool :=
  named nm n && bool_decide (is_Some (dict_get k (attrs_of n))).

(** [find_all(attrs={k: True})]. *)
Definition having (k : str) (n : node) : bool :=
  match n with
  | Str _ _ _ => false
  | Tag _ _ a _ => bool_decide (is_Some (dict_get k a))
  end.

(** *** Mutation through a reference

    A Python reference to a node is its identity; an operation acts on
    the node of that identity.  In a well-formed tree there is one such
    node, or none when the object is no longer part of the tree; the
    definitions below treat every node of the identity alike. *)

(** A change of the attributes of the objects, by identity; the shape of
    the tree stays. *)
Fixpoint map_attrs_node (f : node_id → attrs_t → attrs_t) (n : node) : node :=
  match n with
  | Str _ _ _ => n
  | Tag j nm a cs => Tag j nm (f j a) (map_attrs_node f <$> cs)
  end.

(** [tag[k] = v], on the attributes of the object of identity [i]. *)
Definition assign (i : node_id) (k : str) (v : attrval)
    (j : node_id) (a : attrs_t) : attrs_t :=
  if decide (j = i) then dict_set k v a else a.

Definition set_item_node (i : node_id) (k : str) (v : attrval) (n : node) : node :=
  map_attrs_node (assign i k v) n.

Definition set_item (i : node_id) (k : str) (v : attrval) (forest : list node)
    : list node :=
  set_item_node i k v <$> forest.

(** [ref.insert_after(new)]: [new] becomes the next sibling. *)
Fixpoint insert_after_node (i : node_id) (new : node) (n : node) : node :=
  match n with
  | Str _ _ _ => n
  | Tag j nm a cs =>
      Tag j nm a
        (flat_map (λ c, if decide (id_of c = i)
                        then [insert_after_node i new c; new]
                        else [insert_after_node i new c]) cs)
  end.

Definition insert_after (i : node_id) (new : node) (forest : list node)
    : list node :=
  flat_map (λ c, if decide (id_of c = i)
                 then [insert_after_node i new c; new]
                 else [insert_after_node i new c]) forest.

(** [tag.append(new)]: [new] becomes the last child. *)
Fixpoint append_node (i : node_id) (new : node) (n : node) : node :=
  match n with
  | Str _ _ _ => n
  | Tag j nm a cs =>
      Tag j nm a
        ((append_node i new <$> cs) ++ (if decide (j = i) then [new] else []))
  end.

Definition append (i : node_id) (new : node) (forest : list node) : list node :=
  append_node i new <$> forest.

(** [ref.replace_with(new)]: [new] takes the place of the node. *)
Fixpoint replace_with_node (i : node_id) (new : node) (n : node) : node :=
  match n with
  | Str _ _ _ => n
  | Tag j nm a cs =>
      Tag j nm a
        (flat_map (λ c, if decide (id_of c = i) then [new]
                        else [replace_with_node i new c]) cs)
  end.

Definition replace_with (i : node_id) (new : node) (forest : list node)
    : list node :=
  flat_map (λ c, if decide (id_of c = i) then [new]
                 else [replace_with_node i new c]) forest.

(** [soup.new_tag(name, **attrs)]: a fresh element, not yet in the tree. *)
Definition new_tag (soup : BeautifulSoup) (nm : str) (a : attrs_t) : node :=
  Tag (next_id soup) nm a [].

(** [NavigableString(s)], as [replace_with] makes it from a [str]. *)
Definition new_string (soup : BeautifulSoup) (s : str) : node :=
  Str (next_id soup) NavigableString s.

(** The tree after an operation that has put the fresh object in. *)
Definition allocated (soup : BeautifulSoup) (forest : list node) : BeautifulSoup :=
  mkSoup forest (S (next_id soup)).

Definition with_contents (soup : BeautifulSoup) (forest : list node)
    : BeautifulSoup :=
  mkSoup forest (next_id soup).

(** *** Well-formed trees *)

(** Identities are unique, and older than the next one to be given. *)
Definition well_formed (soup : BeautifulSoup) : Prop :=
  NoDup (ids (contents soup)) ∧
  Forall (λ i, i < next_id soup) (ids (contents soup)).

End bs4.

Import bs4.

(** ** generate_fa_pages.py: constants *)

Definition ATTRS_TO_TRANSLATE : list str :=
  [lit "placeholder"; lit "title"; lit "alt"; lit "aria-label"; lit "value"].

Definition EXCLUDED_TEXT_PARENTS : list str := [lit "script"; lit "style"].

Definition SLEEP_SECONDS : Q := 15 # 100.

(** ** collect_entries *)

(** The two shapes of the entry dict: a text node, or an attribute of an
    element. *)
Inductive entry :=
| TextEntry (node : node_id) (leading content trailing : str)
| AttrEntry (element : node_id) (attr : str) (leading content trailing : str).

Definition content_of (e : entry) : str :=
  match e with
  | TextEntry _ _ c _ => c
  | AttrEntry _ _ _ c _ => c
  end.

(** The text node an entry refers to, under its key [node]. *)
Definition node_of (e : entry) : option node_id :=
  match e with
  | TextEntry i _ _ _ => Some i
  | AttrEntry _ _ _ _ _ => None
  end.

(** One turn of the first loop, on a string node and its parent's name. *)
Definition text_entry (x : str * (node_id * strkind * str)) : list entry :=
  let '(parent_name, (i, k, text)) := x in
  if bool_decide (k = Comment ∨ k = Doctype) then []
  else if bool_decide (parent_name ∈ EXCLUDED_TEXT_PARENTS) then []
  else
    let '(leading, stripped, trailing) := split_text text in
    if negb (nonempty stripped) then []
    else [TextEntry i leading stripped trailing].

(** One turn of the inner attribute loop.  [value.strip()] on a list value
    raises [AttributeError]; an empty list is falsy and is skipped before. *)
Definition attr_entry (attr : str) (element : node) : result (list entry) :=
  match dict_get attr (attrs_of element) with
  | None => Ok []
  | Some (AList []) => Ok []
  | Some (AList (_ :: _)) => Err AttributeError
  | Some (AStr value) =>
      if negb (nonempty value) || negb (nonempty (strip value)) then Ok []
      else
        let '(leading, stripped, trailing) := split_text value in
        if negb (nonempty stripped) then Ok []
        else Ok [AttrEntry (id_of element) attr leading stripped trailing]
  end.

(** A loop that appends what each turn yields and stops at the first
    exception. *)
Fixpoint collect {A B} (f : A → result (list B)) (l : list A) : result (list B) :=
  match l with
  | [] => Ok []
  | x :: l' =>
      match f x with
      | Err e => Err e
      | Ok ys =>
          match collect f l' with
          | Err e => Err e
          | Ok zs => Ok (ys ++ zs)
          end
      end
  end.

Definition collect_entries (soup : BeautifulSoup) : result (list entry) :=
  let texts := flat_map text_entry (all_strings soup) in
  match collect (λ attr, collect (attr_entry attr)
                           (find_all (having attr) (contents soup)))
                ATTRS_TO_TRANSLATE with
  | Err e => Err e
  | Ok attrs => Ok (texts ++ attrs)
  end.

(** ** apply_translation *)

(** [replace_with] raises [ValueError] on a node that has no parent; the
    script only ever detaches text nodes, so a node without a parent is one
    that is no longer in the tree. *)
Definition apply_translation (e : entry) (translated_text : str)
    (soup : BeautifulSoup) : result BeautifulSoup :=
  match e with
  | TextEntry node leading _ trailing =>
      let new_value := leading ++ translated_text ++ trailing in
      if bool_decide (node ∈ ids (contents soup)) then
        Ok (allocated soup
              (replace_with node (new_string soup new_value) (contents soup)))
      else Err ValueError
  | AttrEntry element attr leading _ trailing =>
      let new_value := leading ++ translated_text ++ trailing in
      Ok (with_contents soup
            (set_item element attr (AStr new_value) (contents soup)))
  end.

(** ** The RTL adjuster *)

(** [needle in haystack] on two [str]. *)
Fixpoint is_prefix (a b : str) : bool :=
  match a, b with
  | [], _ => true
  | x :: a', y :: b' => bool_decide (x = y) && is_prefix a' b'
  | _ :: _, [] => false
  end.

Fixpoint contains (needle haystack : str) : bool :=
  is_prefix needle haystack ||
  match haystack with
  | [] => false
  | _ :: h' => contains needle h'
  end.

(** The first half of [ensure_rtl_attributes]: the [html] element. *)
Definition ensure_rtl_html (soup : BeautifulSoup) : BeautifulSoup :=
  match find (named (lit "html")) (contents soup) with
  | Some html_tag =>
      with_contents soup
        (set_item (id_of html_tag) (lit "dir") (AStr (lit "rtl"))
           (set_item (id_of html_tag) (lit "lang") (AStr (lit "fa"))
              (contents soup)))
  | None => soup
  end.

(** The second half: the [body] element.  [classes] is the list held by
    the tag; on a [str] value [in] is the substring test and [append] does
    not exist. *)
Definition ensure_rtl_body (soup : BeautifulSoup) : result BeautifulSoup :=
  match find (named (lit "body")) (contents soup) with
  | Some body_tag =>
      let i := id_of body_tag in
      let forest := set_item i (lit "dir") (AStr (lit "rtl")) (contents soup) in
      match dict_get (lit "class") (attrs_of body_tag) with
      | None =>
          Ok (with_contents soup
                (set_item i (lit "class") (AList [lit "rtl-body"]) forest))
      | Some (AList classes) =>
          if bool_decide (lit "rtl-body" ∈ classes) then
            Ok (with_contents soup forest)
          else
            Ok (with_contents soup
                  (set_item i (lit "class")
                     (AList (classes ++ [lit "rtl-body"])) forest))
      | Some (AStr classes) =>
          if contains (lit "rtl-body") classes then
            Ok (with_contents soup forest)
          else Err AttributeError
      end
  | None => Ok soup
  end.

Definition ensure_rtl_attributes (soup : BeautifulSoup) : result BeautifulSoup :=
  ensure_rtl_body (ensure_rtl_html soup).

Definition rtl_link_attrs : attrs_t :=
  [(lit "rel", AList [lit "stylesheet"]); (lit "href", AStr (lit "css/rtl.css"))].

Definition ensure_rtl_stylesheet (soup : BeautifulSoup) : BeautifulSoup :=
  match find (named (lit "head")) (contents soup) with
  | None => soup
  | Some head =>
      match find (named_with (lit "link") (lit "href") (lit "css/rtl.css"))
                 (contents_of head) with
      | Some existing => soup
      | None =>
          let new_link := new_tag soup (lit "link") rtl_link_attrs in
          match find (named_with (lit "link") (lit "href") (lit "css/style.css"))
                     (contents_of head) with
          | Some style_link =>
              allocated soup
                (insert_after (id_of style_link) new_link (contents soup))
          | None =>
              allocated soup (append (id_of head) new_link (contents soup))
          end
      end
  end.

(** [tag.get("src") == "js/rtl.js"]. *)
Definition src_is_rtl_js (tag : node) : bool :=
  bool_decide (dict_get (lit "src") (attrs_of tag) = Some (AStr (lit "js/rtl.js"))).

Definition rtl_script_attrs : attrs_t := [(lit "src", AStr (lit "js/rtl.js"))].

Definition ensure_rtl_script (soup : BeautifulSoup) : BeautifulSoup :=
  match find (named (lit "body")) (contents soup) with
  | None => soup
  | Some body =>
      let has_script :=
        existsb src_is_rtl_js
          (find_all (named_having (lit "script") (lit "src")) (contents_of body)) in
      if has_script then soup
      else
        let main_script :=
          find (named_with (lit "script") (lit "src") (lit "js/main.js"))
               (contents_of body) in
        let rtl_tag := new_tag soup (lit "script") rtl_script_attrs in
        match main_script with
        | Some main_script =>
            allocated soup
              (insert_after (id_of main_script) rtl_tag (contents soup))
        | None =>
            allocated soup (append (id_of body) rtl_tag (contents soup))
        end
  end.

(** The three adjustments, in the order [main] runs them. *)
Definition rtl_adjust (soup : BeautifulSoup) : result BeautifulSoup :=
  match ensure_rtl_attributes soup with
  | Err e => Err e
  | Ok soup => Ok (ensure_rtl_script (ensure_rtl_stylesheet soup))
  end.

(** ** The translation service, seen from the client *)

(** A decoded JSON body, as [response.json()] returns it. *)
Inductive json :=
| JNull
| JBool (b : bool)
| JNum (q : Q)
| JStr (s : str)
| JList (l : list json)
| JDict (d : list (str * json)).

(** What one [session.get] followed by [raise_for_status] and [json]
    comes to: an exception, a [RequestException] for a transport or HTTP
    failure, or the decoded body. *)
Inductive reply :=
| Raises (e : exn)
| Body (data : json).

(** [x[0]]. *)
Definition item0 (x : json) : result json :=
  match x with
  | JList (y :: _) => Ok y
  | JList [] => Err IndexError
  | JStr (c :: _) => Ok (JStr [c])
  | JStr [] => Err IndexError
  | JDict _ => Err KeyError
  | JNull | JBool _ | JNum _ => Err TypeError
  end.

(** [for segment in x]. *)
Definition iterate (x : json) : result (list json) :=
  match x with
  | JList l => Ok l
  | JStr s => Ok ((λ c, JStr [c]) <$> s)
  | JDict d => Ok ((λ kv, JStr kv.1) <$> d)
  | JNull | JBool _ | JNum _ => Err TypeError
  end.

Definition truthy (x : json) : bool :=
  match x with
  | JNull => false
  | JBool b => b
  | JNum q => negb (Qeq_bool q 0)
  | JStr s => nonempty s
  | JList l => nonempty l
  | JDict d => nonempty d
  end.

(** [[segment[0] for segment in segments if segment[0]]]. *)
Fixpoint first_items (segments : list json) : result (list json) :=
  match segments with
  | [] => Ok []
  | segment :: rest =>
      match item0 segment with
      | Err e => Err e
      | Ok x =>
          match first_items rest with
          | Err e => Err e
          | Ok xs => if truthy x then Ok (x :: xs) else Ok xs
          end
      end
  end.

(** ["".join(items)]. *)
Fixpoint join_items (items : list json) : result str :=
  match items with
  | [] => Ok []
  | JStr s :: rest =>
      match join_items rest with
      | Err e => Err e
      | Ok t => Ok (s ++ t)
      end
  | _ :: _ => Err TypeError
  end.

(** The lines of the [try] block that follow [response.json()]. *)
Definition translation_of (data : json) : result str :=
  match item0 data with
  | Err e => Err e
  | Ok segments =>
      match iterate segments with
      | Err e => Err e
      | Ok segments =>
          match first_items segments with
          | Err e => Err e
          | Ok translated_segments => join_items translated_segments
          end
      end
  end.

(** What the body of the [try] block comes to, before the pacing sleep. *)
Definition attempt_result (r : reply) : result str :=
  match r with
  | Raises e => Err e
  | Body data => translation_of data
  end.

(** ** The state of a run *)

Inductive event :=
| Get (q : str)
| Sleep (seconds : Q)
| Print (line : str).

Inductive fsnode :=
| File (text : str)
| Dir.

(** [cache] is the translator's dict; [pending n q] is what the [n]-th
    request from now will come to if its payload is [q]; [trace] is what
    the run has done so far, oldest first; [files] is the directory
    [HTML_DIR], by name. *)
Record state := mkState {
  cache : gmap str str;
  pending : nat → str → reply;
  trace : list event;
  files : gmap str fsnode;
}.

Definition M (A : Type) : Type := state → result A * state.

Definition ret {A} (a : A) : M A := λ st, (Ok a, st).

Definition raise {A} (e : exn) : M A := λ st, (Err e, st).

Definition bind {A B} (m : M A) (f : A → M B) : M B :=
  λ st, match m st with
        | (Ok a, st') => f a st'
        | (Err e, st') => (Err e, st')
        end.

Global Instance M_ret : MRet M := @ret.
Global Instance M_bind : MBind M := λ A B f m, bind m f.

Definition lift {A} (r : result A) : M A := λ st, (r, st).

(** The state after one more event. *)
Definition logged (ev : event) (st : state) : state :=
  mkState (cache st) (pending st) (trace st ++ [ev]) (files st).

(** The state after one more request: its reply is used up. *)
Definition requested (text : str) (st : state) : state :=
  mkState (cache st) (λ n, pending st (S n)) (trace st ++ [Get text]) (files st).

Definition emit (ev : event) : M unit := λ st, (Ok tt, logged ev st).

(** [session.get(API_URL, params={..., "q": text}, ...)] with the two
    calls on the response. *)
Definition session_get (text : str) : M reply :=
  λ st, (Ok (pending st 0 text), requested text st).

Definition sleep (seconds : Q) : M unit := emit (Sleep seconds).

Definition cache_store (text translated : str) : M unit :=
  λ st, (Ok tt, mkState (<[text := translated]> (cache st)) (pending st)
                        (trace st) (files st)).

(** ** GoogleTranslateClient *)

(** [str(last_error)]. *)
Definition str_of_error (last_error : option exn) : str :=
  match last_error with
  | None => lit "None"
  | Some (RequestException msg) => msg
  | Some (RuntimeError msg) => msg
  | Some (OtherError msg) => msg
  | Some _ => []
  end.

(** The [for attempt in range(3)] loop, on the attempts still to make. *)
Fixpoint attempts (text : str) (range : list nat) (last_error : option exn)
    : M str :=
  match range with
  | [] =>
      raise (RuntimeError (lit "Translation failed after retries: "
                           ++ str_of_error last_error))
  | attempt :: range' =>
      r ← session_get text;
      match attempt_result r with
      | Ok translation =>
          sleep SLEEP_SECONDS;; ret translation
      | Err (RequestException msg) =>
          sleep (inject_Z (1 + Z.of_nat attempt));;
          attempts text range' (Some (RequestException msg))
      | Err e => raise e
      end
  end.

(** [_translate_remote]. *)
Definition translate_remote (text : str) : M str :=
  attempts text [0; 1; 2] None.

Definition translate (text : str) : M str :=
  λ st, match cache st !! text with
        | Some translated => (Ok translated, st)
        | None =>
            (translated ← translate_remote text;
             cache_store text translated;;
             ret translated) st
        end.

(** ** translate_texts *)

(** The first loop: the distinct contents, in the order they first occur,
    each with the empty string. *)
Fixpoint first_loop (unique_strings : list (str * str)) (entries : list entry)
    : list (str * str) :=
  match entries with
  | [] => unique_strings
  | e :: entries' =>
      first_loop
        (match dict_get (content_of e) unique_strings with
         | Some _ => unique_strings
         | None => dict_set (content_of e) [] unique_strings
         end)
        entries'
  end.

(** The second loop, over the keys. *)
Fixpoint second_loop (keys : list str) (unique_strings : list (str * str))
    : M (list (str * str)) :=
  match keys with
  | [] => ret unique_strings
  | text :: keys' =>
      translated ← translate text;
      second_loop keys' (dict_set text translated unique_strings)
  end.

(** The third loop. *)
Fixpoint third_loop (entries : list entry) (unique_strings : list (str * str))
    (soup : BeautifulSoup) : result BeautifulSoup :=
  match entries with
  | [] => Ok soup
  | e :: entries' =>
      match dict_get (content_of e) unique_strings with
      | None => Err KeyError
      | Some translated =>
          match apply_translation e translated soup with
          | Err x => Err x
          | Ok soup' => third_loop entries' unique_strings soup'
          end
      end
  end.

Definition translate_texts (entries : list entry) (soup : BeautifulSoup)
    : M BeautifulSoup :=
  let unique_strings := first_loop [] entries in
  unique_strings ← second_loop unique_strings.*1 unique_strings;
  lift (third_loop entries unique_strings soup).

(** ** pathlib, on the name of a path *)

(** [name.rfind(c)], as an index from the left. *)
Fixpoint rfind_from (c : N) (name : str) (i : nat) (found : option nat)
    : option nat :=
  match name with
  | [] => found
  | x :: name' =>
      rfind_from c name' (S i) (if decide (x = c) then Some i else found)
  end.

Definition rfind (c : N) (name : str) : option nat := rfind_from c name 0 None.

Definition dot : N := 46%N.

(** [PurePath.suffix] and [PurePath.stem]: the last dot splits the name,
    unless it is the first or the last character. *)
Definition suffix (name : str) : str :=
  match rfind dot name with
  | Some i => if (0 <? i) && (i <? length name - 1) then drop i name else []
  | None => []
  end.

Definition stem (name : str) : str :=
  match rfind dot name with
  | Some i => if (0 <? i) && (i <? length name - 1) then take i name else name
  | None => name
  end.

(** [s.endswith(suf)]. *)
Definition endswith (suf s : str) : bool :=
  bool_decide (drop (length s - length suf) s = suf).

(** The order of [str], by code points. *)
Fixpoint str_leb (a b : str) : bool :=
  match a, b with
  | [], _ => true
  | _ :: _, [] => false
  | x :: a', y :: b' =>
      if (x <? y)%N then true else if (y <? x)%N then false else str_leb a' b'
  end.

Fixpoint insert_sorted (x : str) (l : list str) : list str :=
  match l with
  | [] => [x]
  | y :: l' => if str_leb x y then x :: l else y :: insert_sorted x l'
  end.

(** [sorted(paths)], for paths of one directory. *)
Definition sorted (l : list str) : list str := foldr insert_sorted [] l.

(** ** main *)

(** [print(n)] of a natural number. *)
Definition decimal (n : nat) : str := lit (NilZero.string_of_uint (Nat.to_uint n)).

(** [path.read_text(encoding="utf-8-sig")]; the files hold text, the codec
    is outside the model. *)
Definition read_text (name : str) : M str :=
  λ st, match files st !! name with
        | Some (File text) => (Ok text, st)
        | Some Dir => (Err (OtherError (lit "IsADirectoryError")), st)
        | None => (Err (OtherError (lit "FileNotFoundError")), st)
        end.

Definition write_text (name text : str) : M unit :=
  λ st, match files st !! name with
        | Some Dir => (Err (OtherError (lit "IsADirectoryError")), st)
        | _ => (Ok tt, mkState (cache st) (pending st) (trace st)
                               (<[name := File text]> (files st)))
        end.

(** The directory as [glob] and [is_file] see it. *)
Definition listing : M (gmap str fsnode) := λ st, (Ok (files st), st).

(** [path.is_file()]. *)
Definition is_file (fs : gmap str fsnode) (name : str) : bool :=
  match fs !! name with
  | Some (File _) => true
  | _ => false
  end.

(** The generator expression under [sorted]: [HTML_DIR.glob("*.html")],
    without the names whose stem ends in [-fa] and without what is no
    file. *)
Definition selected (fs : gmap str fsnode) (name : str) : bool :=
  endswith (lit ".html") name
  && negb (endswith (lit "-fa") (stem name))
  && is_file fs name.

Definition html_files (fs : gmap str fsnode) : list str :=
  sorted (filter (λ name, selected fs name = true) (map_to_list fs).*1).

(** [html_file.with_name(f"{html_file.stem}-fa{html_file.suffix}")]. *)
Definition fa_name (html_file : str) : str :=
  stem html_file ++ lit "-fa" ++ suffix html_file.

Fixpoint for_each {A} (f : A → M unit) (l : list A) : M unit :=
  match l with
  | [] => ret tt
  | x :: l' => f x;; for_each f l'
  end.

Section Main.

(** [BeautifulSoup(text, "html.parser")] and [soup.prettify()] belong to
    the library. *)
Variable parse : str → BeautifulSoup.
Variable prettify : BeautifulSoup → str.

(** The body of the loop of [main]. *)
Definition process (html_file : str) : M unit :=
  text ← read_text html_file;
  soup ← lift (ensure_rtl_attributes (parse text));
  let soup := ensure_rtl_stylesheet soup in
  let soup := ensure_rtl_script soup in
  entries ← lift (collect_entries soup);
  soup ← translate_texts entries soup;
  let fa_file := fa_name html_file in
  write_text fa_file (prettify soup);;
  emit (Print (lit "Created " ++ fa_file ++ lit " ("
               ++ decimal (length entries) ++ lit " translated entries)")).

(** [translator = GoogleTranslateClient()] starts with an empty cache. *)
Definition new_translator : M unit :=
  λ st, (Ok tt, mkState ∅ (pending st) (trace st) (files st)).

Definition main : M unit :=
  new_translator;;
  fs ← listing;
  for_each process (html_files fs).

End Main.

(** ** Documents as the parser builds them *)

(** The html.parser builder turns the value of [class] into a list and
    leaves the attributes of [ATTRS_TO_TRANSLATE] as plain [str]. *)
Definition attrs_as_parsed (n : node) : bool :=
  match dict_get (lit "class") (attrs_of n) with
  | Some (AStr _) => false
  | _ => true
  end
  && forallb (λ attr, match dict_get attr (attrs_of n) with
                      | Some (AList _) => false
                      | _ => true
                      end) ATTRS_TO_TRANSLATE.

Definition parsed (soup : BeautifulSoup) : Prop :=
  well_formed soup ∧
  forallb attrs_as_parsed (descendants (contents soup)) = true.

(** Where an entry comes from: its content is the stripped candidate, and
    its three parts make up the candidate. *)
Definition entry_from (soup : BeautifulSoup) (e : entry) : Prop :=
  match e with
  | TextEntry i leading content trailing =>
      ∃ parent k text,
        (parent, (i, k, text)) ∈ all_strings soup ∧
        k ≠ Comment ∧ k ≠ Doctype ∧ (parent ∉ EXCLUDED_TEXT_PARENTS) ∧
        content = strip text ∧ leading ++ content ++ trailing = text
  | AttrEntry i attr leading content trailing =>
      ∃ element value,
        element ∈ descendants (contents soup) ∧ id_of element = i ∧
        attr ∈ ATTRS_TO_TRANSLATE ∧
        dict_get attr (attrs_of element) = Some (AStr value) ∧
        content = strip value ∧ leading ++ content ++ trailing = value
  end.

(** ** Reading a run *)

(** The payloads of the requests of a trace, oldest first. *)
Fixpoint requests_in (tr : list event) : list str :=
  match tr with
  | [] => []
  | Get q :: tr' => q :: requests_in tr'
  | _ :: tr' => requests_in tr'
  end.

Definition failure_prefix : str := lit "Translation failed after retries: ".

(** The first [n] attempts from [st] for [text] end in a transport error. *)
Definition transport_failures (text : str) (st : state) (n : nat) : Prop :=
  ∀ k, k < n → ∃ msg, attempt_result (pending st k text) = Err (RequestException msg).

(** What a call of [translate] can come to: the cached translation with
    no request; the translation of the first attempt that does not end in
    a transport error; the terminal error after three transport errors;
    or the exception of another kind that an attempt raised. *)
Inductive translate_outcome (text : str) (st : state)
    : result str * state → Prop :=
| outcome_cached translated :
    cache st !! text = Some translated →
    translate_outcome text st (Ok translated, st)
| outcome_translated n translated st' :
    cache st !! text = None → n < 3 →
    transport_failures text st n →
    attempt_result (pending st n text) = Ok translated →
    requests_in (trace st') = requests_in (trace st) ++ replicate (S n) text →
    cache st' = <[text := translated]> (cache st) →
    translate_outcome text st (Ok translated, st')
| outcome_exhausted cause st' :
    cache st !! text = None →
    transport_failures text st 2 →
    attempt_result (pending st 2 text) = Err (RequestException cause) →
    requests_in (trace st') = requests_in (trace st) ++ replicate 3 text →
    cache st' = cache st →
    translate_outcome text st (Err (RuntimeError (failure_prefix ++ cause)), st')
| outcome_escaped n e st' :
    cache st !! text = None → n < 3 →
    transport_failures text st n →
    attempt_result (pending st n text) = Err e →
    (∀ msg, e ≠ RequestException msg) →
    requests_in (trace st') = requests_in (trace st) ++ replicate (S n) text →
    cache st' = cache st →
    translate_outcome text st (Err e, st').

(** The distinct contents of the entries, in the order of the dict. *)
Definition distinct_contents (entries : list entry) : list str :=
  (first_loop [] entries).*1.



(** ** Relations used in the proofs *)

(** [interleave new l l']: [l'] is [l] with copies of [new] put in. *)
Inductive interleave {A} (new : A) : list A → list A → Prop :=
| interleave_nil : interleave new [] []
| interleave_keep x l l' : interleave new l l' → interleave new (x :: l) (x :: l')
| interleave_new l l' : interleave new l l' → interleave new l (new :: l').

(** Two nodes that no search of the script tells apart: same identity,
    same attributes, same name. *)
Definition labelled_alike (n n' : node) : Prop :=
  id_of n = id_of n' ∧ attrs_of n = attrs_of n' ∧ ∀ nm, named nm n = named nm n'.

(** A search criterion that only reads the label of a node. *)
Definition reads_label (p : node → bool) : Prop :=
  ∀ n n', labelled_alike n n' → p n = p n'.

(** ** The adjusted document *)

(** Every identity of the tree is older than the next one. *)
Definition ids_below (soup : BeautifulSoup) : Prop :=
  Forall (λ i, i < next_id soup) (ids (contents soup)).

(** The head, if there is one, holds the RTL stylesheet link. *)
Definition link_present (soup : BeautifulSoup) : Prop :=
  match find (named (lit "head")) (contents soup) with
  | None => True
  | Some head =>
      is_Some (find (named_with (lit "link") (lit "href") (lit "css/rtl.css"))
                    (contents_of head))
  end.

(** The body, if there is one, holds the RTL script. *)
Definition script_present (soup : BeautifulSoup) : Prop :=
  match find (named (lit "body")) (contents soup) with
  | None => True
  | Some body =>
      existsb src_is_rtl_js
        (find_all (named_having (lit "script") (lit "src")) (contents_of body))
      = true
  end.

(** What [insert_after] and [append] do to a soup with a fresh tag. *)
Definition inserted (G : list node → list node) (soup : BeautifulSoup)
    : BeautifulSoup :=
  allocated soup (G (contents soup)).

(** The change [ensure_rtl_attributes] makes to the attributes of the
    [html] element of identity [i]. *)
Definition html_change (i : node_id) (j : node_id) (a : attrs_t) : attrs_t :=
  assign i (lit "dir") (AStr (lit "rtl")) j (assign i (lit "lang") (AStr (lit "fa")) j a).

(** The change it makes to those of the [body] element of identity [i],
    given the value of [class] it finds there; none when it raises. *)
Definition body_change (i : node_id) (class : option attrval)
    : option (node_id → attrs_t → attrs_t) :=
  let dir := assign i (lit "dir") (AStr (lit "rtl")) in
  match class with
  | None =>
      Some (λ j a, assign i (lit "class") (AList [lit "rtl-body"]) j (dir j a))
  | Some (AList classes) =>
      if bool_decide (lit "rtl-body" ∈ classes) then Some dir
      else Some (λ j a, assign i (lit "class")
                          (AList (classes ++ [lit "rtl-body"])) j (dir j a))
  | Some (AStr classes) =>
      if contains (lit "rtl-body") classes then Some dir else None
  end.

(** [soup'] is [soup], or [soup] with one new empty tag named [nm] put in
    after a node or at the end of a tag. *)
Inductive fresh_insertion (nm : str) (soup : BeautifulSoup)
    : BeautifulSoup → Prop :=
| fresh_none : fresh_insertion nm soup soup
| fresh_insert_after i a :
    fresh_insertion nm soup
      (inserted (insert_after i (new_tag soup nm a)) soup)
| fresh_append i a :
    fresh_insertion nm soup (inserted (append i (new_tag soup nm a)) soup).

(** The class list of a tag; a tag without [class] has none. *)
Definition classes_of (n : node) : list str :=
  match dict_get (lit "class") (attrs_of n) with
  | Some (AList classes) => classes
  | _ => []
  end.

(** The class list after the adjustment: the marker class goes last, if
    it is not there yet. *)
Definition with_rtl_body (classes : list str) : list str :=
  if bool_decide (lit "rtl-body" ∈ classes) then classes
  else classes ++ [lit "rtl-body"].

(** ** Locations in the tree *)

(** One step up from a list of siblings: the tag that holds them, with
    the siblings of that tag before and after it. *)
Record frame := mkFrame {
  before : list node;
  parent_id : node_id;
  parent_name : str;
  parent_attrs : attrs_t;
  after : list node;
}.

(** The forest that has [cs] as the children of the innermost of the
    given ancestors, innermost first. *)
Fixpoint wrap (ancestors : list frame) (cs : list node) : list node :=
  match ancestors with
  | [] => cs
  | fr :: ancestors' =>
      wrap ancestors'
        (before fr
         ++ Tag (parent_id fr) (parent_name fr) (parent_attrs fr) cs
         :: after fr)
  end.

(** ** The events of a call of the service *)

(** What [n] attempts that end in a transport error leave in the trace:
    each a request and then a sleep of one second more than the last. *)
Definition backoff (text : str) (n : nat) : list event :=
  flat_map (λ attempt, [Get text; Sleep (inject_Z (1 + Z.of_nat attempt))])
           (seq 0 n).

(** The first element of a segment of the body: a string, or null. *)
Definition segment_head (s : option str) : json :=
  match s with Some s => JStr s | None => JNull end.

(** ** Ordered lists of names *)

(** Every name is at most the names that follow it. *)
Fixpoint increasing (l : list str) : Prop :=
  match l with
  | [] => True
  | x :: l' => Forall (λ y, str_leb x y = true) l' ∧ increasing l'
  end.

(** ** The document, read without identities *)

(** The string nodes of a document in document order, each with the name
    of its parent, its class and its text. *)
Definition texts (soup : BeautifulSoup) : list (str * strkind * str) :=
  (λ x, (x.1, x.2.1.2, x.2.2)) <$> all_strings soup.

(** What the translation makes of a string node, given the translation
    of every content: a node the extractor takes becomes a plain string
    with the translated core between the whitespace of the source. *)
Definition retext (tr : str → str) (x : str * strkind * str)
    : str * strkind * str :=
  let '(parent, k, text) := x in
  if bool_decide (k = Comment ∨ k = Doctype) then x
  else if bool_decide (parent ∈ EXCLUDED_TEXT_PARENTS) then x
  else
    let '(leading, core, trailing) := split_text text in
    if negb (nonempty core) then x
    else (parent, NavigableString, leading ++ tr core ++ trailing).

(** The label of a tag: its identity, its name and its attributes. *)
Definition label (n : node) : option (node_id * str * attrs_t) :=
  match n with
  | Str _ _ _ => None
  | Tag j nm a _ => Some (j, nm, a)
  end.

(** The tags of a forest, in document order. *)
Definition tags (forest : list node) : list (node_id * str * attrs_t) :=
  omap label (descendants forest).

Definition tag_ids (forest : list node) : list node_id :=
  (λ l, l.1.1) <$> tags forest.

(** What the translation makes of the value of an attribute. *)
Definition reattr (tr : str → str) (attr : str) (v : option attrval)
    : option attrval :=
  match v with
  | Some (AStr value) =>
      if bool_decide (attr ∈ ATTRS_TO_TRANSLATE) then
        let '(leading, core, trailing) := split_text value in
        if negb (nonempty core) then v
        else Some (AStr (leading ++ tr core ++ trailing))
      else v
  | _ => v
  end.

(** A string node of identity [i] gives way to a new one. *)
Definition restring (i j : node_id) (s : str)
    (x : str * (node_id * strkind * str)) : str * (node_id * strkind * str) :=
  if decide (x.2.1.1 = i) then (x.1, (j, NavigableString, s)) else x.

(** The attributes of the tag of identity [j] after the attribute
    entries have been applied in turn. *)
Definition apply_attrs (tr : str → str) (entries : list entry)
    (j : node_id) (a : attrs_t) : attrs_t :=
  foldl (λ acc e,
           match e with
           | AttrEntry i k leading content trailing =>
               assign i k (AStr (leading ++ tr content ++ trailing)) j acc
           | TextEntry _ _ _ _ => acc
           end) a entries.

(** The entry is an assignment to the attribute [k] of the tag [j]. *)
Definition targets (j : node_id) (k : str) (e : entry) : bool :=
  match e with
  | AttrEntry i k' _ _ _ => bool_decide (i = j ∧ k' = k)
  | TextEntry _ _ _ _ => false
  end.

(** [attrs_as_parsed], on the attributes alone. *)
Definition dict_as_parsed (a : attrs_t) : bool :=
  match dict_get (lit "class") a with
  | Some (AStr _) => false
  | _ => true
  end
  && forallb (λ attr, match dict_get attr a with
                      | Some (AList _) => false
                      | _ => true
                      end) ATTRS_TO_TRANSLATE.

(** ** The adjusted body and the order of the extractor *)

(** The value of [class] names the marker class. *)
Definition has_rtl_body (v : option attrval) : Prop :=
  match v with
  | Some (AList classes) => lit "rtl-body" ∈ classes
  | Some (AStr classes) => contains (lit "rtl-body") classes = true
  | None => False
  end.

(** The place an attribute entry refers to: the attribute and the
    element; a text entry has none. *)
Definition attr_place (e : entry) : option (str * node_id) :=
  match e with
  | AttrEntry element attr _ _ _ => Some (attr, element)
  | TextEntry _ _ _ _ => None
  end.

(** The places the second loop of the extractor visits, in its order:
    attribute by attribute, and for each the elements that have it, in
    document order. *)
Definition attr_places (soup : BeautifulSoup) : list (str * node_id) :=
  flat_map (λ attr, (λ element, (attr, id_of element))
                      <$> find_all (having attr) (contents soup))
           ATTRS_TO_TRANSLATE.

(** * scripts/update_html_assets.py

    The second script rewrites the pages in place, line by line: it drops
    the lines that load the old style sheet and the old scripts and puts
    in the line that loads the bundled script. *)

Module update_html_assets.

(** ** str.splitlines(keepends=True) *)

(** The line boundaries of [str.splitlines]: LF, VT, FF, CR, FS, GS, RS,
    NEL, LS and PS; CR LF counts as one. *)
Definition is_linebreak (c : N) : bool :=
  ((10 <=? c) && (c <=? 13))%N || ((28 <=? c) && (c <=? 30))%N
  || (c =? 133)%N || (c =? 8232)%N || (c =? 8233)%N.

(** [line] is the part of the current line read so far. *)
Fixpoint splitlines_from (line text : str) : list str :=
  match text with
  | [] => if nonempty line then [line] else []
  | c :: rest =>
      if is_linebreak c then
        match rest with
        | d :: rest' =>
            if (c =? 13)%N && (d =? 10)%N
            then (line ++ [c; d]) :: splitlines_from [] rest'
            else (line ++ [c]) :: splitlines_from [] rest
        | [] => [line ++ [c]]
        end
      else splitlines_from (line ++ [c]) rest
  end.

Definition splitlines (text : str) : list str := splitlines_from [] text.

(** ** The regular expressions the script uses

    [re] matches by backtracking: a greedy repetition takes as much as it
    can and gives back one character at a time; [search] tries the
    positions of the string from left to right.  The groups of the
    pattern are not nested, so a group is recorded when it closes. *)
Inductive regex :=
| Lit (s : str)
| PlusNot (c : N)
| Group (r : regex)
| Cat (r1 r2 : regex).

(** The length of the longest prefix without [c]. *)
Fixpoint run_length (c : N) (s : str) : nat :=
  match s with
  | [] => 0
  | x :: s' => if decide (x = c) then 0 else S (run_length c s')
  end.

(** The first of [k n], [k (n - 1)], ..., [k 1] that succeeds. *)
Fixpoint longest_first {R} (k : nat → option R) (n : nat) : option R :=
  match n with
  | 0 => None
  | S n' =>
      match k n with
      | Some r => Some r
      | None => longest_first k n'
      end
  end.

(** A match of [r] at the start of [s], continued by [k] on the rest of
    the string and the groups closed so far. *)
Fixpoint match_here {R} (r : regex) (s : str) (groups : list str)
    (k : str → list str → option R) : option R :=
  match r with
  | Lit l => if is_prefix l s then k (drop (length l) s) groups else None
  | PlusNot c => longest_first (λ m, k (drop m s) groups) (run_length c s)
  | Group r1 =>
      match_here r1 s groups
        (λ rest gs, k rest (gs ++ [take (length s - length rest) s]))
  | Cat r1 r2 =>
      match_here r1 s groups (λ rest gs, match_here r2 rest gs k)
  end.

(** [pattern.search(s)]: the groups of the leftmost match. *)
Fixpoint search (r : regex) (s : str) : option (list str) :=
  match match_here r s [] (λ _ gs, Some gs) with
  | Some gs => Some gs
  | None =>
      match s with
      | [] => None
      | _ :: s' => search r s'
      end
  end.

(** [match.group(1)]. *)
Definition group1 (m : list str) : str := default [] (head m).

(** ** Constants *)

Definition quote : N := 34%N.
Definition gt : N := 62%N.

(** The pattern of the source: the characters of the opening of a script
    tag, one or more characters other than the closing bracket, the
    characters of the src attribute up to its opening quote, the group of
    one or more characters other than a quote, and a quote. *)
Definition SCRIPT_SRC_PATTERN : regex :=
  Cat (Lit (lit "<script"))
    (Cat (PlusNot gt)
       (Cat (Lit (lit "src=" ++ [quote]))
          (Cat (Group (PlusNot quote)) (Lit [quote])))).

Definition OLD_JS_FILES : list str :=
  [lit "js/jquery-3.7.1.min.js";
   lit "js/jquery-migrate-3.4.1.min.js";
   lit "js/modernizr-2.6.2.min.js";
   lit "js/imagesloaded.pkgd.min.js";
   lit "js/jquery.isotope.v3.0.2.js";
   lit "js/popper.min.js";
   lit "js/bootstrap.min.js";
   lit "js/scrollIt.min.js";
   lit "js/jquery.waypoints.min.js";
   lit "js/owl.carousel.min.js";
   lit "js/jquery.stellar.min.js";
   lit "js/jquery.magnific-popup.js";
   lit "js/YouTubePopUp.js";
   lit "js/custom.js"].

Definition MAIN_SCRIPT_TAG : str :=
  lit "    <script src=" ++ quote :: lit "js/main.js" ++ quote :: lit "></script>".

(** ** update_file *)

(** The second test of the loop: the line holds a script tag whose
    source is one of the old files. *)
Definition old_script (line : str) : bool :=
  match search SCRIPT_SRC_PATTERN line with
  | Some m => bool_decide (group1 m ∈ OLD_JS_FILES)
  | None => false
  end.

(** One turn of the loop, on [new_lines] and [inserted_script]. *)
Definition update_step (newline : str) (acc : list str * bool) (line : str)
    : list str * bool :=
  let '(new_lines, inserted_script) := acc in
  if contains (lit "css/plugins.css") line then acc
  else if old_script line then acc
  else if contains (lit "</body>") line && negb inserted_script then
    (new_lines ++ [MAIN_SCRIPT_TAG ++ newline; line], true)
  else (new_lines ++ [line], inserted_script).

(** The lines the loop skips: the first two tests. *)
Definition dropped (line : str) : bool :=
  contains (lit "css/plugins.css") line || old_script line.

(** The loop and the statement after it: the lines of the new text. *)
Definition update_lines (newline : str) (lines : list str) : list str :=
  let '(new_lines, inserted_script) :=
    foldl (update_step newline) ([], false) lines in
  if negb inserted_script
  then new_lines ++ [newline ++ MAIN_SCRIPT_TAG ++ newline]
  else new_lines.

(** The newline of the page: CR LF if the text has one, else LF. *)
Definition newline_of (text : str) : str :=
  if contains [13; 10]%N text then [13; 10]%N else [10%N].

(** The text [update_file] writes for the text it reads. *)
Definition update_text (text : str) : str :=
  concat (update_lines (newline_of text) (splitlines text)).

(** The files hold text; the codec and the newline translation of the
    file layer are outside the model. *)
Definition update_file (path : str) : M unit :=
  text ← read_text path;
  write_text path (update_text text).

(** ** main *)

(** The condition of the list comprehension, on the names that
    the glob for html files yields. *)
Definition selected (fs : gmap str fsnode) (name : str) : bool :=
  endswith (lit ".html") name
  && is_file fs name
  && negb (endswith (lit "-fa") (stem name)).

Section Main.

(** [glob] yields the names of the directory in the order of the file
    system. *)
Variable scandir : gmap str fsnode → list str.

Definition html_files (fs : gmap str fsnode) : list str :=
  filter (λ name, selected fs name = true) (scandir fs).

Definition main : M unit :=
  fs ← listing;
  for_each (λ html_file,
              update_file html_file;;
              emit (Print (lit "Updated " ++ html_file)))
           (html_files fs).

End Main.

End update_html_assets.

(** ** Sources the pattern finds whole *)

Module update_html_assets_facts.
Import update_html_assets.

(** The attribute with its value, as it stands in a tag. *)
Definition src_attribute (v : str) : str := lit "src=" ++ quote :: v ++ [quote].

(** A source without a quote and without a closing bracket, after which
    the attribute cannot start again before the tag closes. *)
Definition plain_src (v : str) : bool :=
  nonempty v
  && negb (bool_decide (quote ∈ v)) && negb (bool_decide (gt ∈ v))
  && forallb (λ j, negb (is_prefix (lit "src=" ++ [quote])
                           (drop j (src_attribute v ++ [gt]))))
             (seq 1 (length (src_attribute v))).

End update_html_assets_facts.

(** ** Lines that end in a line boundary *)

Module update_html_assets_lines.
Import update_html_assets.

Definition terminated (line : str) : Prop :=
  ∃ l c, line = l ++ [c] ∧ is_linebreak c = true.

(** Every line but the last one is terminated. *)
Fixpoint all_but_last_terminated (lines : list str) : Prop :=
  match lines with
  | [] => True
  | line :: lines' =>
      (lines' = [] ∨ terminated line) ∧ all_but_last_terminated lines'
  end.

(** A string to look for that holds no line boundary. *)
Definition one_line (needle : str) : Prop :=
  needle ≠ [] ∧ Forall (λ c, is_linebreak c = false) needle.

End update_html_assets_lines.

(** ** The directory after an update *)

Module update_html_assets_main.
Import update_html_assets.



End update_html_assets_main.

(** ** The claims as the specification words them *)

(** C1 as worded: the three parts always concatenate to the input, and
    the core is empty exactly for blank input. *)
Definition split_text_partitions (s : str) : Prop :=
  let '(leading, core, trailing) := split_text s in
  leading ++ core ++ trailing = s ∧ (core = [] ↔ strip s = []).

(** C2 as worded: a call of [translate] returns a translation, or it
    fails after three requests that all failed, with the terminal error
    that carries the cause of the last one. *)
Definition translate_returns_or_exhausts (text : str) (st : state) : Prop :=
  let '(r, st') := translate text st in
  (∃ translated, r = Ok translated) ∨
  (∃ cause,
     requests_in (trace st') = requests_in (trace st) ++ replicate 3 text ∧
     (∀ k, k < 3 → is_ok (attempt_result (pending st k text)) = false) ∧
     attempt_result (pending st 2 text) = Err (RequestException cause) ∧
     r = Err (RuntimeError (failure_prefix ++ cause))).

(** A service that answers every request with the JSON body [[]]. *)
Definition answers_empty_list : state :=
  mkState ∅ (λ _ _, Body (JList [])) [] ∅.


(** A fresh client in front of a service whose first reply is a timeout
    and whose later replies translate everything to ["X"]. *)
Definition times_out_once : state :=
  mkState ∅
    (λ n _, match n with
            | 0 => Raises (RequestException (lit "timeout"))
            | _ => Body (JList [JList [JList [JStr (lit "X")]]])
            end)
    [] ∅.

(** A fragment: one paragraph, with neither html, head nor body. *)
Definition one_paragraph : BeautifulSoup :=
  mkSoup [Tag 0 (lit "p") [] [Str 1 NavigableString (lit "Hello")]] 2.

(** A fresh client in front of a service that translates everything to
    ["X"]. *)
Definition translates_to_X : state :=
  mkState ∅ (λ _ _, Body (JList [JList [JList [JStr (lit "X")]]])) [] ∅.

(** A small page: a doctype, a stylesheet link and a style element in the
    head, two paragraphs, a comment and the main script in the body. *)
Definition sample_page : BeautifulSoup :=
  mkSoup
    [Str 0 Doctype (lit "html");
     Tag 1 (lit "html") []
       [Tag 2 (lit "head") []
          [Tag 3 (lit "link") [(lit "href", AStr (lit "css/style.css"))] [];
           Tag 4 (lit "style") [] [Str 5 NavigableString (lit "p { }")]];
        Tag 6 (lit "body") [(lit "class", AList [lit "foo"])]
          [Tag 7 (lit "p") [(lit "title", AStr (lit " Tip "))]
             [Str 8 NavigableString (lit "  Hello world  ")];
           Str 9 Comment (lit " note ");
           Tag 10 (lit "p") [] [Str 11 NavigableString (lit "Hello world")];
           Tag 12 (lit "script") [(lit "src", AStr (lit "js/main.js"))] []]]]
    13.

(** C4 as worded, for the second application: after a first reinjection
    the same entry can be reinjected again with the same text, without an
    error and without a change of the document. *)
Definition reinjection_repeatable (e : entry) (translated : str)
    (soup : BeautifulSoup) : Prop :=
  ∃ soup', apply_translation e translated soup = Ok soup' ∧
    ∃ soup'', apply_translation e translated soup' = Ok soup'' ∧
      contents soup'' = contents soup'.

(** A directory with a page, its localized variant and a directory whose
    name ends in [.html]. *)
Definition sample_dir : gmap str fsnode :=
  {[ lit "index.html" := File (lit "<p>Hello</p>");
     lit "index-fa.html" := File (lit "<p>X</p>");
     lit "docs.html" := Dir ]}.

(** A service that answers every request with a timeout. *)
Definition always_times_out : nat → str → reply :=
  λ _ _, Raises (RequestException (lit "timeout")).

(** The sample page after the adjustment. *)
Definition adjusted_sample_page : BeautifulSoup :=
  mkSoup
    [Str 0 Doctype (lit "html");
     Tag 1 (lit "html")
       [(lit "lang", AStr (lit "fa")); (lit "dir", AStr (lit "rtl"))]
       [Tag 2 (lit "head") []
          [Tag 3 (lit "link") [(lit "href", AStr (lit "css/style.css"))] [];
           Tag 13 (lit "link") rtl_link_attrs [];
           Tag 4 (lit "style") [] [Str 5 NavigableString (lit "p { }")]];
        Tag 6 (lit "body")
          [(lit "class", AList [lit "foo"; lit "rtl-body"]);
           (lit "dir", AStr (lit "rtl"))]
          [Tag 7 (lit "p") [(lit "title", AStr (lit " Tip "))]
             [Str 8 NavigableString (lit "  Hello world  ")];
           Str 9 Comment (lit " note ");
           Tag 10 (lit "p") [] [Str 11 NavigableString (lit "Hello world")];
           Tag 12 (lit "script") [(lit "src", AStr (lit "js/main.js"))] [];
           Tag 14 (lit "script") rtl_script_attrs []]]]
    15.

(* ================================================================ *)
(** * Properties *)

Example split_text_hello :
  split_text (lit "  Hello world  ") = (lit "  ", lit "Hello world", lit "  ").
Proof. reflexivity. Qed.

Example split_text_blank : split_text (lit "   ") = ([], [], []).
Proof. reflexivity. Qed.

(** ** The sample page, step by step *)

Example rtl_adjust_sample_page : rtl_adjust sample_page = Ok adjusted_sample_page.
Proof. reflexivity. Qed.

Example collect_entries_sample_page :
  collect_entries adjusted_sample_page
  = Ok [TextEntry 8 (lit "  ") (lit "Hello world") (lit "  ");
        TextEntry 11 [] (lit "Hello world") [];
        AttrEntry 7 (lit "title") (lit " ") (lit "Tip") (lit " ")].
Proof. reflexivity. Qed.

(** Two units with the same content cost one request; the whitespace
    around the translated text is the one of the source. *)
Example translate_texts_sample_page :
  let run :=
    translate_texts
      [TextEntry 8 (lit "  ") (lit "Hello world") (lit "  ");
       TextEntry 11 [] (lit "Hello world") [];
       AttrEntry 7 (lit "title") (lit " ") (lit "Tip") (lit " ")]
      adjusted_sample_page translates_to_X in
  trace run.2
  = [Get (lit "Hello world"); Sleep SLEEP_SECONDS;
     Get (lit "Tip"); Sleep SLEEP_SECONDS] ∧
  match run.1 with
  | Ok soup => find (named (lit "body")) (contents soup)
  | Err _ => None
  end
  = Some
      (Tag 6 (lit "body")
         [(lit "class", AList [lit "foo"; lit "rtl-body"]);
          (lit "dir", AStr (lit "rtl"))]
         [Tag 7 (lit "p") [(lit "title", AStr (lit " X "))]
            [Str 15 NavigableString (lit "  X  ")];
          Str 9 Comment (lit " note ");
          Tag 10 (lit "p") [] [Str 16 NavigableString (lit "X")];
          Tag 12 (lit "script") [(lit "src", AStr (lit "js/main.js"))] [];
          Tag 14 (lit "script") rtl_script_attrs []]).
Proof. split; reflexivity. Qed.

(** *** Facts about stripping *)

Section Dropwhile.
Context {A : Type} (p : A → bool).

Lemma dropwhile_suffix (l : list A) : dropwhile p l `suffix_of` l.
Proof.
  induction l as [|x l IH]; simpl; [done|].
  destruct (p x); [by apply suffix_cons_r | done].
Qed.

Lemma dropwhile_length (l : list A) : length (dropwhile p l) ≤ length l.
Proof. apply suffix_length, dropwhile_suffix. Qed.

Lemma dropwhile_split (l : list A) :
  take (length l - length (dropwhile p l)) l ++ dropwhile p l = l.
Proof.
  destruct (dropwhile_suffix l) as [k Hk].
  set (d := dropwhile p l) in *. clearbody d. subst l.
  rewrite length_app.
  replace (length k + length d - length d) with (length k) by lia.
  by rewrite take_app_length.
Qed.

Lemma dropwhile_head (l : list A) x l' :
  dropwhile p l = x :: l' → p x = false.
Proof.
  induction l as [|y l IH]; simpl; [done|].
  destruct (p y) eqn:Hy; [done|]. by intros [= -> ->].
Qed.

Lemma dropwhile_fixed (x : A) (l : list A) :
  p x = false → dropwhile p (x :: l) = x :: l.
Proof. simpl. by intros ->. Qed.
End Dropwhile.

Lemma rstrip_prefix (s : str) : rstrip s `prefix_of` s.
Proof.
  unfold rstrip.
  destruct (dropwhile_suffix isspace (reverse s)) as [k Hk].
  exists (reverse k).
  set (d := dropwhile isspace (reverse s)) in *. clearbody d.
  rewrite <- reverse_app, <- Hk. by rewrite reverse_involutive.
Qed.

(** Stripping the right end keeps a non-blank first character in place. *)
Lemma rstrip_cons_nonspace (c : N) (s : str) :
  isspace c = false → ∃ s', rstrip (c :: s) = c :: s'.
Proof.
  intros Hc. unfold rstrip. rewrite reverse_cons.
  induction (reverse s) as [|y r IH]; simpl.
  - rewrite Hc. by exists [].
  - destruct (isspace y).
    + apply IH.
    + rewrite reverse_cons, reverse_app, reverse_singleton. simpl. eauto.
Qed.

Lemma strip_nil_iff (s : str) : strip s = [] ↔ lstrip s = [].
Proof.
  unfold strip. split.
  - destruct (lstrip s) as [|c l] eqn:E; [done|].
    apply dropwhile_head in E.
    destruct (rstrip_cons_nonspace c l E) as [s' ->]. done.
  - by intros ->.
Qed.

Lemma dropwhile_app_l {A} (p : A → bool) (a b : list A) :
  dropwhile p a ≠ [] → dropwhile p (a ++ b) = dropwhile p a ++ b.
Proof.
  induction a as [|x a IH]; simpl; [done|].
  destruct (p x); [apply IH | done].
Qed.

Lemma rstrip_app (l m : str) :
  rstrip m ≠ [] → rstrip (l ++ m) = l ++ rstrip m.
Proof.
  unfold rstrip. intros Hm. rewrite reverse_app, dropwhile_app_l.
  - by rewrite reverse_app, reverse_involutive.
  - intros E. apply Hm. by rewrite E.
Qed.

Lemma split_text_blank_iff (s : str) :
  strip s = [] → split_text s = ([], [], []).
Proof. unfold split_text. by intros ->. Qed.

Lemma split_text_core (s : str) : (split_text s).1.2 = strip s.
Proof.
  unfold split_text. destruct (strip s) eqn:E; simpl; [done|]. done.
Qed.

Lemma split_text_concat (s : str) :
  strip s ≠ [] →
  let '(leading, core, trailing) := split_text s in
  leading ++ core ++ trailing = s.
Proof.
  intros Hne. unfold split_text.
  replace (negb (nonempty (strip s))) with false by (by destruct (strip s)).
  pose proof (dropwhile_split isspace s) as Hl. fold (lstrip s) in Hl.
  set (L := take (length s - length (lstrip s)) s) in *.
  assert (Hr : rstrip (L ++ lstrip s) = L ++ strip s) by (by apply rstrip_app).
  rewrite Hl in Hr.
  destruct (rstrip_prefix (lstrip s)) as [T HT]. fold (strip s) in HT.
  rewrite Hr. clearbody L. rewrite HT in Hl. clear HT Hr.
  set (c := strip s) in *. clearbody c. subst s.
  replace (length (L ++ c ++ T) - (length (L ++ c ++ T) - length (L ++ c)))
    with (length (L ++ c)) by (rewrite !length_app; lia).
  rewrite (assoc_L (++) L c T), drop_app_length.
  rewrite <- (assoc_L (++) L c T) at 2.
  destruct (length ((L ++ c) ++ T) - length (L ++ c) =? 0) eqn:Hz; [|done].
  apply Nat.eqb_eq in Hz. rewrite length_app in Hz.
  destruct T; [done | simpl in Hz; lia].
Qed.

(** ** C1: the whitespace splitter *)

(** C1, counterexample: on the one-space string the splitter returns three
    empty strings, which do not concatenate to the input. *)
Lemma split_text_blank_not_partition :
  split_text (lit " ") = ([], [], []) ∧ ¬ split_text_partitions (lit " ").
Proof.
  split; [reflexivity|]. unfold split_text_partitions.
  vm_compute. intros [H _]. discriminate H.
Qed.

(** C1, amended: the core is the stripped input and is empty exactly when
    the stripped input is; when it is not empty the three parts concatenate
    to the input, and when it is empty all three parts are empty. *)
Theorem split_text_spec (s : str) :
  let '(leading, core, trailing) := split_text s in
  core = strip s ∧
  (core = [] ↔ strip s = []) ∧
  (strip s ≠ [] → leading ++ core ++ trailing = s) ∧
  (strip s = [] → leading = [] ∧ core = [] ∧ trailing = []).
Proof.
  pose proof (split_text_core s) as Hc.
  pose proof (split_text_concat s) as Hcat.
  pose proof (split_text_blank_iff s) as Hb.
  destruct (split_text s) as [[leading core] trailing]. simpl in Hc. subst core.
  split; [done|]. split; [done|]. split; [done|].
  intros E. specialize (Hb E). by simplify_eq.
Qed.

(** ** Induction on trees *)

Lemma node_ind' (P : node → Prop) :
  (∀ i k s, P (Str i k s)) →
  (∀ i nm a cs, Forall P cs → P (Tag i nm a cs)) →
  ∀ n, P n.
Proof.
  intros HS HT. fix IH 1. intros [i k s|i nm a cs]; [apply HS|].
  apply HT. induction cs as [|c cs IHcs]; constructor; [apply IH | apply IHcs].
Qed.

Lemma elem_of_flat_map {A B} (f : A → list B) (l : list A) (y : B) :
  y ∈ flat_map f l ↔ ∃ x, x ∈ l ∧ y ∈ f x.
Proof.
  induction l as [|x l IH]; simpl.
  - split; [by intros ?%elem_of_nil | by intros (? & ?%elem_of_nil & _)].
  - rewrite elem_of_app, IH. split.
    + intros [?|(x' & ? & ?)]; [exists x; split; [left|done] | exists x'; split; [by right|done]].
    + intros (x' & [->|?]%elem_of_cons & ?); [by left | right; by exists x'].
Qed.

Lemma flat_map_app' {A B} (f : A → list B) (l1 l2 : list A) :
  flat_map f (l1 ++ l2) = flat_map f l1 ++ flat_map f l2.
Proof. induction l1 as [|x l1 IH]; simpl; [done|]. by rewrite IH, (assoc_L (++)). Qed.

Lemma nonempty_true {A} (l : list A) : nonempty l = true ↔ l ≠ [].
Proof. by destruct l. Qed.

(** ** The extractor *)

Lemma text_entry_elem x e :
  e ∈ text_entry x →
  ∃ leading trailing,
    e = TextEntry x.2.1.1 leading (strip x.2.2) trailing ∧
    x.2.1.2 ≠ Comment ∧ x.2.1.2 ≠ Doctype ∧ (x.1 ∉ EXCLUDED_TEXT_PARENTS) ∧
    strip x.2.2 ≠ [] ∧ leading ++ strip x.2.2 ++ trailing = x.2.2.
Proof.
  destruct x as [parent [[i k] text]]. unfold text_entry. simpl.
  case_bool_decide as Hk; [by intros ?%elem_of_nil|].
  case_bool_decide as Hp; [by intros ?%elem_of_nil|].
  pose proof (split_text_core text) as Hc.
  pose proof (split_text_concat text) as Hcat.
  destruct (split_text text) as [[leading stripped] trailing]. simpl in Hc. subst.
  destruct (nonempty (strip text)) eqn:Hne; simpl; [|by intros ?%elem_of_nil].
  apply nonempty_true in Hne.
  intros ->%list_elem_of_singleton. exists leading, trailing.
  repeat split; auto.
Qed.

Lemma attr_entry_ok attr element es e :
  attr_entry attr element = Ok es → e ∈ es →
  ∃ value leading trailing,
    dict_get attr (attrs_of element) = Some (AStr value) ∧
    e = AttrEntry (id_of element) attr leading (strip value) trailing ∧
    strip value ≠ [] ∧ leading ++ strip value ++ trailing = value.
Proof.
  unfold attr_entry.
  destruct (dict_get attr (attrs_of element)) as [[value|[|? ?]]|];
    try (intros [= <-]; by intros ?%elem_of_nil).
  destruct (negb (nonempty value) || negb (nonempty (strip value)));
    [intros [= <-]; by intros ?%elem_of_nil|].
  pose proof (split_text_core value) as Hc.
  pose proof (split_text_concat value) as Hcat.
  destruct (split_text value) as [[leading stripped] trailing]. simpl in Hc. subst.
  destruct (nonempty (strip value)) eqn:Hne; simpl;
    [|intros [= <-]; by intros ?%elem_of_nil].
  apply nonempty_true in Hne.
  intros [= <-] ->%list_elem_of_singleton. exists value, leading, trailing.
  repeat split; auto.
Qed.

Lemma collect_elem {A B} (f : A → result (list B)) (l : list A) ys y :
  collect f l = Ok ys → y ∈ ys → ∃ x zs, x ∈ l ∧ f x = Ok zs ∧ y ∈ zs.
Proof.
  revert ys. induction l as [|x l IH]; simpl; intros ys.
  - intros [= <-]. by intros ?%elem_of_nil.
  - destruct (f x) as [zs|] eqn:Hx; [|done].
    destruct (collect f l) as [ws|]; [|done].
    intros [= <-] [Hy|Hy]%elem_of_app.
    + exists x, zs. split; [left|done].
    + destruct (IH ws eq_refl Hy) as (x' & zs' & ? & ? & ?).
      exists x', zs'. split; [by right|done].
Qed.

Lemma collect_total {A B} (f : A → result (list B)) (l : list A) :
  (∀ x, x ∈ l → is_ok (f x) = true) → ∃ ys, collect f l = Ok ys.
Proof.
  induction l as [|x l IH]; simpl; intros Hok; [by eexists|].
  pose proof (Hok x ltac:(left)) as Hx.
  destruct (f x) as [zs|]; [|done].
  destruct IH as [ws ->]; [intros; apply Hok; by right|]. by eexists.
Qed.

Lemma attr_entry_total attr element :
  attr ∈ ATTRS_TO_TRANSLATE → attrs_as_parsed element = true →
  is_ok (attr_entry attr element) = true.
Proof.
  intros Hattr [_ Hp]%andb_true_iff.
  rewrite forallb_forall in Hp. apply list_elem_of_In, Hp in Hattr.
  unfold attr_entry.
  destruct (dict_get attr (attrs_of element)) as [[value|[|? ?]]|]; try done.
  destruct (_ || _); [done|].
  destruct (split_text value) as [[? ?] ?]. by destruct (negb _).
Qed.

Lemma parsed_descendant soup n :
  parsed soup → n ∈ descendants (contents soup) → attrs_as_parsed n = true.
Proof.
  intros [_ Hp] Hn. rewrite forallb_forall in Hp. by apply Hp, list_elem_of_In.
Qed.

Lemma collect_entries_total soup :
  parsed soup → ∃ es, collect_entries soup = Ok es.
Proof.
  intros Hp. unfold collect_entries.
  destruct (collect_total
    (λ attr, collect (attr_entry attr) (find_all (having attr) (contents soup)))
    ATTRS_TO_TRANSLATE) as [ys ->]; [|by eexists].
  intros attr Hattr.
  destruct (collect_total (attr_entry attr)
              (find_all (having attr) (contents soup))) as [zs ->]; [|done].
  intros n [_ Hn]%list_elem_of_filter.
  apply attr_entry_total; [done|]. by eapply parsed_descendant.
Qed.

Lemma collect_entries_from soup es e :
  collect_entries soup = Ok es → e ∈ es →
  content_of e ≠ [] ∧ entry_from soup e.
Proof.
  unfold collect_entries.
  destruct (collect _ ATTRS_TO_TRANSLATE) as [attrs|] eqn:Hattrs; [|done].
  intros [= <-] [He|He]%elem_of_app.
  - apply elem_of_flat_map in He as ([parent [[i k] text]] & Hx & He).
    apply text_entry_elem in He as (l & t & -> & ? & ? & ? & ? & ?).
    simpl in *. split; [done|]. exists parent, k, text. done.
  - destruct (collect_elem _ _ _ _ Hattrs He) as (attr & zs & Hattr & Hzs & Hez).
    destruct (collect_elem _ _ _ _ Hzs Hez) as (n & ws & Hn & Hws & Hew).
    apply list_elem_of_filter in Hn as [_ Hn].
    destruct (attr_entry_ok _ _ _ _ Hws Hew) as (v & l & t & ? & -> & ? & ?).
    simpl. split; [done|]. exists n, v. done.
Qed.

Lemma fmap_flat_map {A B C} (f : B → C) (g : A → list B) (l : list A) :
  f <$> flat_map g l = flat_map (λ x, f <$> g x) l.
Proof. induction l as [|x l IH]; simpl; [done|]. by rewrite fmap_app, IH. Qed.

Lemma flat_map_sublist {A B} (f g : A → list B) (l : list A) :
  Forall (λ x, f x `sublist_of` g x) l → flat_map f l `sublist_of` flat_map g l.
Proof.
  induction 1 as [|x l Hx _ IH]; simpl; [done|]. by apply sublist_app.
Qed.

Lemma NoDup_fmap_eq {A B} (f : A → B) (l : list A) x y :
  NoDup (f <$> l) → x ∈ l → y ∈ l → f x = f y → x = y.
Proof.
  induction l as [|z l IH]; simpl; [by intros _ ?%elem_of_nil|].
  intros [Hz Hnd]%NoDup_cons [->|Hx]%elem_of_cons [->|Hy]%elem_of_cons Hf; auto.
  - exfalso. apply Hz. rewrite Hf. by apply list_elem_of_fmap_2.
  - exfalso. apply Hz. rewrite <- Hf. by apply list_elem_of_fmap_2.
Qed.

(** The string nodes are among the nodes of the tree, in the same order. *)
Lemma strings_under_ids n parent :
  (λ x, x.2.1.1) <$> strings_under parent n
    `sublist_of` id_of <$> self_and_descendants n.
Proof.
  revert parent. induction n as [i k s|i nm a cs IH] using node_ind';
    intros parent; simpl; [done|].
  apply sublist_cons. rewrite !fmap_flat_map.
  apply flat_map_sublist. eapply Forall_impl; [exact IH|]. auto.
Qed.

Lemma all_strings_NoDup soup :
  well_formed soup → NoDup ((λ x, x.2.1.1) <$> all_strings soup).
Proof.
  intros [Hnd _]. eapply sublist_NoDup; [exact Hnd|].
  unfold all_strings, ids, descendants. rewrite !fmap_flat_map.
  apply flat_map_sublist, Forall_forall. intros n _. apply strings_under_ids.
Qed.

(** ** C6: what the extractor leaves out *)

(** C6: for a parsed document the extractor returns, and no entry refers
    to a text node whose parent is a script or style element, nor to a
    comment or a doctype. *)
Theorem collect_entries_excludes (soup : BeautifulSoup) :
  parsed soup →
  ∃ es, collect_entries soup = Ok es ∧
    ∀ parent i k text,
      (parent, (i, k, text)) ∈ all_strings soup →
      parent ∈ EXCLUDED_TEXT_PARENTS ∨ k = Comment ∨ k = Doctype →
      ∀ e, e ∈ es → node_of e ≠ Some i.
Proof.
  intros Hp. destruct (collect_entries_total soup Hp) as [es Hes].
  exists es. split; [done|].
  intros parent i k text Hin Hex e He Hnode.
  destruct (collect_entries_from soup es e Hes He) as [_ Hfrom].
  destruct e as [j l c t|]; [|done]. simpl in Hnode. injection Hnode as ->.
  destruct Hfrom as (parent' & k' & text' & Hin' & Hk1 & Hk2 & Hpar & _).
  assert ((parent', (i, k', text')) = (parent, (i, k, text))) as [= -> -> ->].
  { eapply (NoDup_fmap_eq (λ x, x.2.1.1)); [|done..].
    apply all_strings_NoDup, Hp. }
  by destruct Hex as [?|[?|?]].
Qed.

(** ** C7: no entry with an empty content *)

(** C7: for a parsed document the extractor returns, and every entry has a
    non-empty content, which is the stripped text of the node or the
    stripped value of the attribute it was taken from. *)
Theorem collect_entries_content_nonempty (soup : BeautifulSoup) :
  parsed soup →
  ∃ es, collect_entries soup = Ok es ∧
    ∀ e, e ∈ es → content_of e ≠ [] ∧ entry_from soup e.
Proof.
  intros Hp. destruct (collect_entries_total soup Hp) as [es Hes].
  exists es. split; [done|]. intros e He. by eapply collect_entries_from.
Qed.

(** ** The translation client *)

Lemma requests_in_app tr1 tr2 :
  requests_in (tr1 ++ tr2) = requests_in tr1 ++ requests_in tr2.
Proof.
  induction tr1 as [|[q| |] tr1 IH]; simpl; [done| |done..]. by rewrite IH.
Qed.

(** One turn of the retry loop. *)
Lemma attempts_step text attempt range last st :
  attempts text (attempt :: range) last st =
  match attempt_result (pending st 0 text) with
  | Ok translation =>
      (Ok translation, logged (Sleep SLEEP_SECONDS) (requested text st))
  | Err (RequestException msg) =>
      attempts text range (Some (RequestException msg))
        (logged (Sleep (inject_Z (1 + Z.of_nat attempt))) (requested text st))
  | Err e => (Err e, requested text st)
  end.
Proof.
  simpl. unfold mbind, M_bind, bind, session_get. simpl.
  destruct (attempt_result (pending st 0 text)) as [t|[]]; reflexivity.
Qed.

Lemma attempts_nil text last st :
  attempts text [] last st =
  (Err (RuntimeError (failure_prefix ++ str_of_error last)), st).
Proof. reflexivity. Qed.

(** The retry loop touches neither the cache nor the files. *)
Lemma attempts_frame text range last st :
  cache (attempts text range last st).2 = cache st ∧
  files (attempts text range last st).2 = files st.
Proof.
  revert last st. induction range as [|a range IH]; intros last st; [done|].
  rewrite attempts_step.
  destruct (attempt_result (pending st 0 text)) as [t|[]]; try done.
  destruct (IH (Some (RequestException msg))
              (logged (Sleep (inject_Z (1 + Z.of_nat a))) (requested text st)))
    as [-> ->]. done.
Qed.

Lemma translate_cached text translated st :
  cache st !! text = Some translated → translate text st = (Ok translated, st).
Proof. unfold translate. by intros ->. Qed.

Lemma translate_uncached text st :
  cache st !! text = None →
  translate text st =
  match translate_remote text st with
  | (Ok translated, st') =>
      (Ok translated,
       mkState (<[text := translated]> (cache st')) (pending st') (trace st')
               (files st'))
  | (Err e, st') => (Err e, st')
  end.
Proof.
  unfold translate. intros ->. unfold mbind, M_bind, bind.
  by destruct (translate_remote text st) as [[t|e] st'].
Qed.

(** ** C2: how a call of translate can end *)

(** C2, counterexample: when the service answers with the body [[]], the
    first attempt raises [IndexError], which is no [RequestException]; it
    leaves [translate] at once, after a single request. *)
Lemma translate_malformed_body_escapes :
  (translate (lit "Hello") answers_empty_list).1 = Err IndexError ∧
  requests_in (trace (translate (lit "Hello") answers_empty_list).2)
    = [lit "Hello"] ∧
  ¬ translate_returns_or_exhausts (lit "Hello") answers_empty_list.
Proof.
  split; [reflexivity|]. split; [reflexivity|].
  unfold translate_returns_or_exhausts.
  replace (translate (lit "Hello") answers_empty_list)
    with (@Err str IndexError, requested (lit "Hello") answers_empty_list)
    by reflexivity.
  intros [[t Ht]|(cause & _ & _ & _ & Hr)]; discriminate.
Qed.

(** C2, amended: a call of [translate] ends in one of four ways.  It
    returns the cached translation without a request; or it returns the
    translation of the first attempt, among three, that does not end in a
    transport error; or, after three transport errors, it raises the
    [RuntimeError] whose message carries the last of them; or an attempt
    raises an exception that is no [RequestException] (a body of an
    unexpected shape does), and that exception leaves [translate] at
    once. *)
Theorem translate_outcomes (text : str) (st : state) :
  translate_outcome text st (translate text st).
Proof.
  destruct (cache st !! text) as [t|] eqn:Hc.
  { rewrite (translate_cached _ _ _ Hc). by constructor. }
  rewrite (translate_uncached _ _ Hc). unfold translate_remote.
  assert (H0 : transport_failures text st 0) by (intros k Hk; lia).
  rewrite attempts_step.
  destruct (attempt_result (pending st 0 text)) as [t|e0] eqn:E0.
  { eapply (outcome_translated _ _ 0); eauto; simpl.
    by rewrite !requests_in_app, app_nil_r. }
  assert (escape0 : (∀ msg, e0 ≠ RequestException msg) →
    translate_outcome text st (Err e0, requested text st)).
  { intros Hne. eapply (outcome_escaped _ _ 0); eauto; simpl.
    by rewrite requests_in_app. }
  destruct e0 as [m0| | | | | | |]; try (by apply escape0). clear escape0.
  assert (H1 : transport_failures text st 1).
  { intros k Hk. assert (k = 0) as -> by lia. eauto. }
  rewrite attempts_step. simpl pending.
  destruct (attempt_result (pending st 1 text)) as [t|e1] eqn:E1.
  { eapply (outcome_translated _ _ 1); eauto; simpl.
    by rewrite !requests_in_app, !app_nil_r, <- !(assoc_L (++)). }
  assert (escape1 : (∀ msg, e1 ≠ RequestException msg) →
    translate_outcome text st
      (Err e1, requested text
                 (logged (Sleep (inject_Z (1 + Z.of_nat 0))) (requested text st)))).
  { intros Hne. eapply (outcome_escaped _ _ 1); eauto; simpl.
    by rewrite !requests_in_app, !app_nil_r, <- !(assoc_L (++)). }
  destruct e1 as [m1| | | | | | |]; try (by apply escape1). clear escape1.
  assert (H2 : transport_failures text st 2).
  { intros k Hk. destruct k as [|[|k]]; [eauto..|lia]. }
  rewrite attempts_step. simpl pending.
  destruct (attempt_result (pending st 2 text)) as [t|e2] eqn:E2.
  { eapply (outcome_translated _ _ 2); eauto; simpl.
    by rewrite !requests_in_app, !app_nil_r, <- !(assoc_L (++)). }
  assert (escape2 : (∀ msg, e2 ≠ RequestException msg) →
    translate_outcome text st
      (Err e2,
       requested text
         (logged (Sleep (inject_Z (1 + Z.of_nat 1)))
            (requested text
               (logged (Sleep (inject_Z (1 + Z.of_nat 0))) (requested text st)))))).
  { intros Hne. eapply (outcome_escaped _ _ 2); eauto; simpl.
    by rewrite !requests_in_app, !app_nil_r, <- !(assoc_L (++)). }
  destruct e2 as [m2| | | | | | |]; try (by apply escape2). clear escape2.
  rewrite attempts_nil. simpl str_of_error.
  eapply outcome_exhausted; eauto; simpl.
  by rewrite !requests_in_app, !app_nil_r, <- !(assoc_L (++)).
Qed.

(** ** The dict of distinct contents *)

Lemma dict_get_None {V} (k : str) (d : list (str * V)) :
  dict_get k d = None ↔ k ∉ d.*1.
Proof.
  induction d as [|[k' v] d IH]; simpl.
  - split; [intros _ ?%elem_of_nil; done | done].
  - rewrite not_elem_of_cons. destruct (decide (k' = k)) as [->|Hne].
    + split; [done | by intros [? _]].
    + rewrite IH. split; [by intros ? | by intros [_ ?]].
Qed.

Lemma dict_set_new {V} (k : str) (v : V) (d : list (str * V)) :
  dict_get k d = None → dict_set k v d = d ++ [(k, v)].
Proof.
  induction d as [|[k' v'] d IH]; simpl; [done|].
  destruct (decide (k' = k)); [done|]. intros H. by rewrite IH.
Qed.

Lemma dict_set_keys {V} (k : str) (v : V) (d : list (str * V)) :
  is_Some (dict_get k d) → (dict_set k v d).*1 = d.*1.
Proof.
  induction d as [|[k' v'] d IH]; simpl; [by intros [? ?]|].
  destruct (decide (k' = k)) as [->|]; [done|]. intros H.
  rewrite !fmap_cons. f_equal. by apply IH.
Qed.

Lemma dict_get_set_eq {V} (k : str) (v : V) (d : list (str * V)) :
  dict_get k (dict_set k v d) = Some v.
Proof.
  induction d as [|[k' v'] d IH]; simpl.
  - by rewrite decide_True.
  - destruct (decide (k' = k)) as [->|Hne]; simpl.
    + by rewrite decide_True.
    + by rewrite decide_False.
Qed.

Lemma dict_get_set_ne {V} (k k0 : str) (v : V) (d : list (str * V)) :
  k ≠ k0 → dict_get k0 (dict_set k v d) = dict_get k0 d.
Proof.
  intros Hne. induction d as [|[k' v'] d IH]; simpl.
  - by rewrite decide_False.
  - destruct (decide (k' = k)) as [->|Hne']; simpl.
    + by rewrite !decide_False.
    + by rewrite IH.
Qed.

Lemma first_loop_keys d entries :
  NoDup d.*1 →
  NoDup (first_loop d entries).*1 ∧
  ∀ q, q ∈ (first_loop d entries).*1 ↔ q ∈ d.*1 ∨ q ∈ content_of <$> entries.
Proof.
  revert d. induction entries as [|e entries IH]; intros d Hd; simpl.
  - split; [done|]. intros q. rewrite elem_of_nil. tauto.
  - destruct (dict_get (content_of e) d) as [v|] eqn:Hg.
    + destruct (IH d Hd) as [Hnd Hel]. split; [done|].
      intros q. rewrite Hel, elem_of_cons.
      assert (content_of e ∈ d.*1).
      { destruct (decide (content_of e ∈ d.*1)) as [|Hn]; [done|].
        apply dict_get_None in Hn. congruence. }
      split; [tauto|]. intros [?|[->|?]]; tauto.
    + rewrite dict_set_new by done.
      apply dict_get_None in Hg.
      destruct (IH (d ++ [(content_of e, [])])) as [Hnd Hel].
      { rewrite fmap_app. simpl. apply NoDup_app. split; [done|].
        split; [|apply NoDup_singleton].
        intros q Hq ->%list_elem_of_singleton. done. }
      split; [done|]. intros q. rewrite Hel, fmap_app, elem_of_app, elem_of_cons.
      simpl. rewrite list_elem_of_singleton. tauto.
Qed.


Lemma distinct_contents_elem entries q :
  q ∈ distinct_contents entries ↔ q ∈ content_of <$> entries.
Proof.
  unfold distinct_contents.
  destruct (first_loop_keys [] entries) as [_ ->]; [constructor|].
  simpl. rewrite elem_of_nil. tauto.
Qed.


(** ** Requests of a run *)



Lemma translate_files text st : files (translate text st).2 = files st.
Proof.
  destruct (cache st !! text) as [t|] eqn:Hc.
  - by rewrite (translate_cached _ _ _ Hc).
  - rewrite (translate_uncached _ _ Hc).
    pose proof (attempts_frame text [0; 1; 2] None st) as [_ Hf].
    unfold translate_remote.
    by destruct (attempts text [0; 1; 2] None st) as [[t|e] st'].
Qed.

(** The retry loop issues at most one request per attempt, all for its
    argument. *)
Lemma attempts_requests text range last st :
  ∃ m, m ≤ length range ∧
    requests_in (trace (attempts text range last st).2)
    = requests_in (trace st) ++ replicate m text.
Proof.
  revert last st. induction range as [|a range IH]; intros last st.
  { exists 0. simpl. by rewrite app_nil_r. }
  rewrite attempts_step.
  destruct (attempt_result (pending st 0 text)) as [t|e].
  { exists 1. simpl. split; [lia|].
    by rewrite !requests_in_app, app_nil_r. }
  assert (Hone : ∃ m, m ≤ length (a :: range) ∧
            requests_in (trace (@Err str e, requested text st).2)
            = requests_in (trace st) ++ replicate m text).
  { exists 1. simpl. split; [lia|]. by rewrite requests_in_app. }
  destruct e as [msg| | | | | | |]; try exact Hone. clear Hone.
  destruct (IH (Some (RequestException msg))
              (logged (Sleep (inject_Z (1 + Z.of_nat a))) (requested text st)))
    as (m & Hm & Hr).
  exists (S m). simpl. split; [lia|]. rewrite Hr. simpl.
  by rewrite !requests_in_app, app_nil_r, <- (assoc_L (++)).
Qed.

(** A call of [translate] issues at most three requests, all for its
    argument, and none when the argument is cached; the cache only grows. *)
Lemma translate_requests text st :
  ∃ m, m ≤ 3 ∧
    requests_in (trace (translate text st).2)
      = requests_in (trace st) ++ replicate m text ∧
    (0 < m → cache st !! text = None) ∧
    cache st ⊆ cache (translate text st).2 ∧
    (∀ t, (translate text st).1 = Ok t → cache (translate text st).2 !! text = Some t).
Proof.
  destruct (cache st !! text) as [t|] eqn:Hc.
  - rewrite (translate_cached _ _ _ Hc). exists 0. simpl. rewrite app_nil_r.
    repeat split; [lia|lia|done|by intros ? [= <-]].
  - rewrite (translate_uncached _ _ Hc). unfold translate_remote.
    destruct (attempts_requests text [0; 1; 2] None st) as (m & Hm & Hr).
    pose proof (attempts_frame text [0; 1; 2] None st) as [Hcache _].
    exists m. destruct (attempts text [0; 1; 2] None st) as [[t|e] st'];
      simpl in *.
    + repeat split; [done|done| |].
      * rewrite Hcache. by apply insert_subseteq.
      * intros ? [= <-]. by rewrite lookup_insert_eq.
    + rewrite Hcache. repeat split; done.
Qed.

Lemma second_loop_step text keys d st :
  second_loop (text :: keys) d st =
  match translate text st with
  | (Ok translated, st') => second_loop keys (dict_set text translated d) st'
  | (Err e, st') => (Err e, st')
  end.
Proof. reflexivity. Qed.





Lemma translate_texts_state entries soup st :
  (translate_texts entries soup st).2
  = (second_loop (distinct_contents entries) (first_loop [] entries) st).2.
Proof.
  unfold translate_texts, distinct_contents, mbind, M_bind, bind, lift.
  by destruct (second_loop _ _ st) as [[d|e] st'].
Qed.


(** ** C3: requests and the cache *)




(** ** The extractor and the splitter on the sample page *)

Lemma sample_page_parsed : parsed sample_page.
Proof.
  split; [split|].
  - apply (bool_decide_unpack _). vm_compute. exact I.
  - apply (bool_decide_unpack _). vm_compute. exact I.
  - vm_compute. reflexivity.
Defined.

Lemma split_text_spec_witness :
  strip (lit " Hi ") ≠ [] ∧ lit " " ++ lit "Hi" ++ lit " " = lit " Hi ".
Proof.
  assert (H : strip (lit " Hi ") ≠ []) by (vm_compute; discriminate).
  split; [exact H|].
  exact (proj1 (proj2 (proj2 (split_text_spec (lit " Hi ")))) H).
Defined.

Lemma collect_entries_excludes_witness :
  ∃ es, collect_entries sample_page = Ok es ∧
    ∀ e, e ∈ es → node_of e ≠ Some 5 ∧ node_of e ≠ Some 9 ∧ node_of e ≠ Some 0.
Proof.
  destruct (collect_entries_excludes sample_page sample_page_parsed)
    as (es & Hes & Hex).
  exists es. split; [exact Hes|]. intros e He. repeat split.
  - apply (Hex (lit "style") 5 NavigableString (lit "p { }"));
      [|left; apply (bool_decide_unpack _); vm_compute; exact I|done].
    apply (bool_decide_unpack _). vm_compute. exact I.
  - apply (Hex (lit "body") 9 Comment (lit " note ")); [|right; by left|done].
    apply (bool_decide_unpack _). vm_compute. exact I.
  - apply (Hex document_name 0 Doctype (lit "html")); [|right; by right|done].
    apply (bool_decide_unpack _). vm_compute. exact I.
Defined.

Lemma collect_entries_content_nonempty_witness :
  ∃ es, collect_entries sample_page = Ok es ∧
    ∀ e, e ∈ es → content_of e ≠ [] ∧ entry_from sample_page e.
Proof. exact (collect_entries_content_nonempty sample_page sample_page_parsed). Defined.

(** ** Trees under a change of attributes *)

Lemma head_fmap {A B} (f : A → B) (l : list A) : head (f <$> l) = f <$> head l.
Proof. by destruct l. Qed.

Lemma filter_fmap_inv {A} (p : A → bool) (g : A → A) (l : list A) :
  (∀ x, p (g x) = p x) →
  filter (λ x, p x = true) (g <$> l) = g <$> filter (λ x, p x = true) l.
Proof.
  intros Hp. induction l as [|x l IH]; [done|].
  rewrite fmap_cons, !filter_cons, IH, Hp. by destruct (decide (p x = true)).
Qed.

Lemma self_and_descendants_Tag i nm a cs :
  self_and_descendants (Tag i nm a cs) = Tag i nm a cs :: descendants cs.
Proof. reflexivity. Qed.

Lemma descendants_cons c cs :
  descendants (c :: cs) = self_and_descendants c ++ descendants cs.
Proof. reflexivity. Qed.

Lemma descendants_app cs1 cs2 :
  descendants (cs1 ++ cs2) = descendants cs1 ++ descendants cs2.
Proof. apply flat_map_app'. Qed.

Section MapAttrs.
Variable f : node_id → attrs_t → attrs_t.

Lemma map_attrs_Tag i nm a cs :
  map_attrs_node f (Tag i nm a cs) = Tag i nm (f i a) (map_attrs_node f <$> cs).
Proof. reflexivity. Qed.

Lemma map_attrs_descendants_of cs :
  Forall (λ c, self_and_descendants (map_attrs_node f c)
               = map_attrs_node f <$> self_and_descendants c) cs →
  descendants (map_attrs_node f <$> cs) = map_attrs_node f <$> descendants cs.
Proof.
  induction 1 as [|c cs Hc _ IH]; [done|].
  by rewrite fmap_cons, !descendants_cons, fmap_app, Hc, IH.
Qed.

Lemma map_attrs_self_and_descendants n :
  self_and_descendants (map_attrs_node f n)
  = map_attrs_node f <$> self_and_descendants n.
Proof.
  induction n as [i k s|i nm a cs IH] using node_ind'; [done|].
  rewrite map_attrs_Tag, !self_and_descendants_Tag, fmap_cons.
  by rewrite map_attrs_descendants_of.
Qed.

Lemma map_attrs_descendants forest :
  descendants (map_attrs_node f <$> forest)
  = map_attrs_node f <$> descendants forest.
Proof.
  apply map_attrs_descendants_of, Forall_forall.
  intros c _. apply map_attrs_self_and_descendants.
Qed.

Lemma map_attrs_id_of n : id_of (map_attrs_node f n) = id_of n.
Proof. by destruct n. Qed.

Lemma map_attrs_named nm n : named nm (map_attrs_node f n) = named nm n.
Proof. by destruct n. Qed.

Lemma map_attrs_attrs_of n :
  attrs_of (map_attrs_node f n)
  = match n with Str _ _ _ => [] | Tag j _ a _ => f j a end.
Proof. by destruct n. Qed.

Lemma map_attrs_contents_of n :
  contents_of (map_attrs_node f n) = map_attrs_node f <$> contents_of n.
Proof. by destruct n. Qed.

Lemma map_attrs_ids forest : ids (map_attrs_node f <$> forest) = ids forest.
Proof.
  unfold ids. rewrite map_attrs_descendants, <- list_fmap_compose.
  apply list_fmap_ext. intros _ n _. apply map_attrs_id_of.
Qed.

(** A search that does not look at what changes finds the same object. *)
Lemma map_attrs_find_all p forest :
  (∀ n, p (map_attrs_node f n) = p n) →
  find_all p (map_attrs_node f <$> forest) = map_attrs_node f <$> find_all p forest.
Proof.
  intros Hp. unfold find_all. rewrite map_attrs_descendants.
  by apply filter_fmap_inv.
Qed.

Lemma map_attrs_find p forest :
  (∀ n, p (map_attrs_node f n) = p n) →
  find p (map_attrs_node f <$> forest) = map_attrs_node f <$> find p forest.
Proof.
  intros Hp. unfold find. by rewrite map_attrs_find_all, head_fmap.
Qed.

(** A change that leaves the attributes of every tag of the tree as they
    are changes nothing. *)
Lemma map_attrs_node_fixed n :
  (∀ j nm a cs, Tag j nm a cs ∈ self_and_descendants n → f j a = a) →
  map_attrs_node f n = n.
Proof.
  induction n as [i k s|i nm a cs IH] using node_ind'; [done|].
  intros Hfix. rewrite map_attrs_Tag.
  rewrite (Hfix i nm a cs) by (rewrite self_and_descendants_Tag; left). f_equal.
  assert (Hcs : ∀ c, c ∈ cs → ∀ j nm' a' cs',
            Tag j nm' a' cs' ∈ self_and_descendants c → f j a' = a').
  { intros c Hc j nm' a' cs' Hin. apply (Hfix j nm' a' cs').
    rewrite self_and_descendants_Tag. right.
    apply elem_of_flat_map. eauto. }
  clear Hfix. induction IH as [|c cs Hc _ IHcs]; [done|].
  rewrite fmap_cons. f_equal.
  - apply Hc, Hcs. left.
  - apply IHcs. intros c' Hc'. apply Hcs. by right.
Qed.

Lemma map_attrs_fixed forest :
  (∀ j nm a cs, Tag j nm a cs ∈ descendants forest → f j a = a) →
  map_attrs_node f <$> forest = forest.
Proof.
  intros Hfix. induction forest as [|c cs IH]; [done|].
  rewrite fmap_cons. f_equal.
  - apply map_attrs_node_fixed. intros j nm a cs' Hin. apply (Hfix j nm a cs').
    rewrite descendants_cons. apply elem_of_app. by left.
  - apply IH. intros j nm a cs' Hin. apply (Hfix j nm a cs').
    rewrite descendants_cons. apply elem_of_app. by right.
Qed.

End MapAttrs.

Lemma map_attrs_compose f g n :
  map_attrs_node f (map_attrs_node g n) = map_attrs_node (λ j a, f j (g j a)) n.
Proof.
  induction n as [i k s|i nm a cs IH] using node_ind'; [done|].
  rewrite !map_attrs_Tag. f_equal. rewrite <- list_fmap_compose.
  induction IH as [|c cs Hc _ IHcs]; [done|].
  rewrite !fmap_cons. f_equal; [exact Hc | exact IHcs].
Qed.

(** ** Interleaving *)

Section Interleave.
Context {A : Type} (new : A).

Lemma interleave_refl (l : list A) : interleave new l l.
Proof. induction l; by constructor. Qed.

Lemma interleave_app (l1 l1' l2 l2' : list A) :
  interleave new l1 l1' → interleave new l2 l2' →
  interleave new (l1 ++ l2) (l1' ++ l2').
Proof.
  induction 1; simpl; intros; [done|apply interleave_keep; auto|apply interleave_new; auto].
Qed.

Lemma interleave_snoc (l l' : list A) :
  interleave new l l' → interleave new l (l' ++ [new]).
Proof.
  intros H. rewrite <- (app_nil_r l) at 1.
  apply interleave_app; [done|]. repeat constructor.
Qed.

Lemma interleave_elem (l l' : list A) x :
  interleave new l l' → x ∈ l → x ∈ l'.
Proof.
  induction 1 as [|y l l' _ IH|l l' _ IH]; [done| |].
  - intros [->|?]%elem_of_cons; [left|right; auto].
  - intros ?. right. auto.
Qed.

Lemma interleave_elem_inv (l l' : list A) x :
  interleave new l l' → x ∈ l' → x = new ∨ x ∈ l.
Proof.
  induction 1 as [|y l l' _ IH|l l' _ IH]; [by right| |].
  - intros [->|?]%elem_of_cons; [right; left|].
    destruct IH as [?|?]; [done|by left|right; by right].
  - intros [->|?]%elem_of_cons; [by left|auto].
Qed.

Lemma interleave_filter (p : A → bool) (l l' : list A) :
  p new = false → interleave new l l' →
  filter (λ x, p x = true) l' = filter (λ x, p x = true) l.
Proof.
  intros Hnew. induction 1 as [|y l l' _ IH|l l' _ IH]; [done| |].
  - by rewrite !filter_cons, IH.
  - rewrite filter_cons_False; [done|]. by rewrite Hnew.
Qed.

Lemma interleave_filter_nonempty (p : A → bool) (l l' : list A) :
  interleave new l l' →
  filter (λ x, p x = true) l ≠ [] → filter (λ x, p x = true) l' ≠ [].
Proof.
  intros Hi Hl Hl'. destruct (filter _ l) as [|x r] eqn:E; [done|].
  assert (x ∈ filter (λ x, p x = true) l) as [Hpx Hx]%list_elem_of_filter
    by (rewrite E; left).
  apply (interleave_elem _ _ _ Hi) in Hx.
  assert (x ∈ filter (λ x, p x = true) l') as Hin
    by (by apply list_elem_of_filter).
  rewrite Hl' in Hin. by apply elem_of_nil in Hin.
Qed.

End Interleave.

(** ** Labels *)

Lemma labelled_alike_refl n : labelled_alike n n.
Proof. done. Qed.

Lemma named_reads_label nm : reads_label (named nm).
Proof. intros n n' (_ & _ & H). apply H. Qed.

Lemma named_with_reads_label nm k target : reads_label (named_with nm k target).
Proof. intros n n' (_ & Ha & Hn). unfold named_with. by rewrite Ha, Hn. Qed.

Lemma named_having_reads_label nm k : reads_label (named_having nm k).
Proof. intros n n' (_ & Ha & Hn). unfold named_having. by rewrite Ha, Hn. Qed.

Lemma src_is_rtl_js_reads_label : reads_label src_is_rtl_js.
Proof. intros n n' (_ & Ha & _). unfold src_is_rtl_js. by rewrite Ha. Qed.

Lemma insert_after_node_alike i new n :
  labelled_alike (insert_after_node i new n) n.
Proof. by destruct n. Qed.

Lemma append_node_alike i new n : labelled_alike (append_node i new n) n.
Proof. by destruct n. Qed.

(** ** Trees under insertion *)

Lemma insert_after_Tag i new j nm a cs :
  insert_after_node i new (Tag j nm a cs) = Tag j nm a (insert_after i new cs).
Proof. reflexivity. Qed.

Lemma insert_after_cons i new c cs :
  insert_after i new (c :: cs)
  = (if decide (id_of c = i) then [insert_after_node i new c; new]
     else [insert_after_node i new c]) ++ insert_after i new cs.
Proof. reflexivity. Qed.

Lemma append_Tag i new j nm a cs :
  append_node i new (Tag j nm a cs)
  = Tag j nm a (append i new cs ++ (if decide (j = i) then [new] else [])).
Proof. reflexivity. Qed.

Lemma descendants_singleton n : descendants [n] = self_and_descendants n.
Proof. unfold descendants. simpl. by rewrite app_nil_r. Qed.

Section Insertion.
Variables (i : node_id) (new : node).
Hypothesis new_leaf : self_and_descendants new = [new].

Lemma insert_after_descendants_of cs :
  Forall (λ c, interleave new
                 (insert_after_node i new <$> self_and_descendants c)
                 (self_and_descendants (insert_after_node i new c))) cs →
  interleave new (insert_after_node i new <$> descendants cs)
    (descendants (insert_after i new cs)).
Proof.
  induction 1 as [|c cs Hc _ IH]; [constructor|].
  rewrite insert_after_cons, !descendants_cons, descendants_app, fmap_app.
  apply interleave_app; [|done].
  destruct (decide (id_of c = i)).
  - rewrite descendants_cons, descendants_singleton, new_leaf.
    by apply interleave_snoc.
  - by rewrite descendants_singleton.
Qed.

Lemma insert_after_self_and_descendants n :
  interleave new (insert_after_node i new <$> self_and_descendants n)
    (self_and_descendants (insert_after_node i new n)).
Proof.
  induction n as [j k s|j nm a cs IH] using node_ind';
    [apply interleave_refl|].
  rewrite insert_after_Tag, !self_and_descendants_Tag, fmap_cons.
  rewrite insert_after_Tag. apply interleave_keep.
  by apply insert_after_descendants_of.
Qed.

Lemma insert_after_descendants forest :
  interleave new (insert_after_node i new <$> descendants forest)
    (descendants (insert_after i new forest)).
Proof.
  apply insert_after_descendants_of, Forall_forall.
  intros c _. apply insert_after_self_and_descendants.
Qed.

(** The new node is there when the reference is in the tree. *)
Lemma insert_after_present forest n :
  n ∈ descendants forest → id_of n = i →
  new ∈ descendants (insert_after i new forest).
Proof.
  intros Hn Hi. revert n Hn Hi.
  induction forest as [|c cs IHcs]; intros n; [by intros ?%elem_of_nil|].
  rewrite descendants_cons, insert_after_cons, descendants_app.
  intros [Hn|Hn]%elem_of_app Hi; apply elem_of_app;
    [left | right; by eapply IHcs].
  clear IHcs. revert n Hn Hi.
  induction c as [j k s|j nm a cs' IH] using node_ind'; intros n.
  - intros ->%list_elem_of_singleton Hi. simpl in Hi. subst.
    rewrite decide_True by done.
    rewrite descendants_cons, descendants_singleton, new_leaf.
    apply elem_of_app. right. left.
  - rewrite self_and_descendants_Tag.
    intros [->|Hn]%elem_of_cons Hi.
    + simpl in Hi. subst. rewrite decide_True by done.
      rewrite descendants_cons, descendants_singleton, new_leaf.
      apply elem_of_app. right. left.
    + assert (new ∈ descendants (insert_after i new cs')) as Hnew.
      { clear -IH Hn Hi new_leaf. revert Hn.
        induction IH as [|c cs' Hc _ IHcs]; [by intros ?%elem_of_nil|].
        rewrite descendants_cons, insert_after_cons, descendants_app.
        intros [Hn|Hn]%elem_of_app; apply elem_of_app;
          [left; by eapply Hc | right; by apply IHcs]. }
      assert (new ∈ self_and_descendants (insert_after_node i new (Tag j nm a cs'))).
      { rewrite insert_after_Tag, self_and_descendants_Tag. by right. }
      destruct (decide (id_of (Tag j nm a cs') = i)).
      * rewrite descendants_cons. apply elem_of_app. by left.
      * by rewrite descendants_singleton.
Qed.

Lemma append_descendants_of cs :
  Forall (λ c, interleave new
                 (append_node i new <$> self_and_descendants c)
                 (self_and_descendants (append_node i new c))) cs →
  interleave new (append_node i new <$> descendants cs)
    (descendants (append i new cs)).
Proof.
  induction 1 as [|c cs Hc _ IH]; [constructor|].
  unfold append. rewrite fmap_cons, !descendants_cons, fmap_app.
  by apply interleave_app.
Qed.

Lemma append_self_and_descendants n :
  interleave new (append_node i new <$> self_and_descendants n)
    (self_and_descendants (append_node i new n)).
Proof.
  induction n as [j k s|j nm a cs IH] using node_ind';
    [apply interleave_refl|].
  rewrite append_Tag, !self_and_descendants_Tag, fmap_cons.
  rewrite append_Tag. apply interleave_keep.
  rewrite descendants_app.
  destruct (decide (j = i)).
  - rewrite descendants_singleton, new_leaf.
    by apply interleave_snoc, append_descendants_of.
  - rewrite app_nil_r. by apply append_descendants_of.
Qed.

Lemma append_descendants forest :
  interleave new (append_node i new <$> descendants forest)
    (descendants (append i new forest)).
Proof.
  apply append_descendants_of, Forall_forall.
  intros c _. apply append_self_and_descendants.
Qed.

(** Inside a node, the same holds for its contents. *)
Lemma insert_after_contents n :
  interleave new (insert_after_node i new <$> descendants (contents_of n))
    (descendants (contents_of (insert_after_node i new n))).
Proof.
  destruct n as [j k s|j nm a cs]; [constructor|].
  rewrite insert_after_Tag. simpl. apply insert_after_descendants.
Qed.

Lemma append_contents n :
  interleave new (append_node i new <$> descendants (contents_of n))
    (descendants (contents_of (append_node i new n))).
Proof.
  destruct n as [j k s|j nm a cs]; [constructor|].
  rewrite append_Tag. simpl. rewrite descendants_app.
  destruct (decide (j = i)).
  - rewrite descendants_singleton, new_leaf.
    apply interleave_snoc, append_descendants.
  - rewrite app_nil_r. apply append_descendants.
Qed.

(** The new node is the last child of the tag it was appended to. *)
Lemma append_present n :
  id_of n = i → (∃ j nm a cs, n = Tag j nm a cs) →
  new ∈ descendants (contents_of (append_node i new n)).
Proof.
  intros Hi (j & nm & a & cs & ->). simpl in Hi. subst.
  rewrite append_Tag. simpl. rewrite decide_True by done.
  rewrite descendants_app, descendants_singleton, new_leaf.
  apply elem_of_app. right. left.
Qed.

End Insertion.

(** ** Searching a tree after an insertion *)

Section Inserted.
Variables (new : node) (g : node → node) (G : list node → list node).
Hypothesis g_alike : ∀ n, labelled_alike (g n) n.
Hypothesis G_interleave :
  ∀ forest, interleave new (g <$> descendants forest) (descendants (G forest)).
Hypothesis g_contents :
  ∀ n, interleave new (g <$> descendants (contents_of n))
         (descendants (contents_of (g n))).

Lemma inserted_find_all p forest :
  reads_label p → p new = false →
  find_all p (G forest) = g <$> find_all p forest.
Proof.
  intros Hp Hnew. unfold find_all.
  rewrite (interleave_filter new p _ _ Hnew (G_interleave forest)).
  apply filter_fmap_inv. intros n. apply Hp, g_alike.
Qed.

Lemma inserted_find p forest :
  reads_label p → p new = false → find p (G forest) = g <$> find p forest.
Proof. intros. unfold find. by rewrite inserted_find_all, head_fmap. Qed.

Lemma inserted_find_all_contents p n :
  reads_label p → p new = false →
  find_all p (contents_of (g n)) = g <$> find_all p (contents_of n).
Proof.
  intros Hp Hnew. unfold find_all.
  rewrite (interleave_filter new p _ _ Hnew (g_contents n)).
  apply filter_fmap_inv. intros m. apply Hp, g_alike.
Qed.

Lemma inserted_find_contents p n :
  reads_label p → p new = false →
  find p (contents_of (g n)) = g <$> find p (contents_of n).
Proof. intros. unfold find. by rewrite inserted_find_all_contents, head_fmap. Qed.

(** What was found inside a node before is still found. *)
Lemma inserted_elem_contents p n m :
  reads_label p →
  m ∈ find_all p (contents_of n) → g m ∈ find_all p (contents_of (g n)).
Proof.
  intros Hp [Hpm Hm]%list_elem_of_filter. apply list_elem_of_filter. split.
  - by rewrite (Hp _ _ (g_alike m)).
  - eapply interleave_elem; [apply g_contents|]. by apply list_elem_of_fmap_2.
Qed.

Lemma inserted_find_contents_Some p n :
  reads_label p →
  is_Some (find p (contents_of n)) → is_Some (find p (contents_of (g n))).
Proof.
  intros Hp [m Hm]. unfold find in *.
  assert (m ∈ find_all p (contents_of n)) as Hin.
  { destruct (find_all p (contents_of n)); simplify_eq/=. left. }
  apply (inserted_elem_contents p n m Hp) in Hin.
  destruct (find_all p (contents_of (g n))); [by apply elem_of_nil in Hin|].
  by eexists.
Qed.

Lemma inserted_existsb p q n :
  reads_label p → reads_label q →
  existsb q (find_all p (contents_of n)) = true →
  existsb q (find_all p (contents_of (g n))) = true.
Proof.
  intros Hp Hq. rewrite !existsb_exists.
  intros (m & Hm%list_elem_of_In & Hqm). exists (g m). split.
  - by apply list_elem_of_In, inserted_elem_contents.
  - by rewrite (Hq _ _ (g_alike m)).
Qed.

End Inserted.

(** ** Insertion and a change of attributes commute *)

Lemma map_attrs_insert_after f i new forest :
  map_attrs_node f <$> insert_after i new forest
  = insert_after i (map_attrs_node f new) (map_attrs_node f <$> forest).
Proof.
  assert (Hnode : ∀ n, map_attrs_node f (insert_after_node i new n)
            = insert_after_node i (map_attrs_node f new) (map_attrs_node f n)).
  { induction n as [j k s|j nm a cs IH] using node_ind'; [done|].
    rewrite insert_after_Tag, !map_attrs_Tag, insert_after_Tag. f_equal.
    induction IH as [|c cs Hc _ IHcs]; [done|].
    rewrite fmap_cons, !insert_after_cons, fmap_app, IHcs, map_attrs_id_of.
    f_equal. destruct (decide (id_of c = i)); by rewrite ?fmap_cons, Hc. }
  induction forest as [|c cs IH]; [done|].
  rewrite fmap_cons, !insert_after_cons, fmap_app, IH, map_attrs_id_of.
  f_equal. destruct (decide (id_of c = i)); by rewrite ?fmap_cons, Hnode.
Qed.

Lemma map_attrs_append f i new forest :
  map_attrs_node f <$> append i new forest
  = append i (map_attrs_node f new) (map_attrs_node f <$> forest).
Proof.
  unfold append. rewrite <- !list_fmap_compose.
  apply list_fmap_ext. intros _ n _. simpl. clear forest.
  induction n as [j k s|j nm a cs IH] using node_ind'; [done|].
  rewrite append_Tag, !map_attrs_Tag, append_Tag. f_equal.
  unfold append. rewrite fmap_app, <- !list_fmap_compose. f_equal.
  - induction IH as [|c cs Hc _ IHcs]; [done|].
    rewrite !fmap_cons. f_equal; [exact Hc | exact IHcs].
  - by destruct (decide (j = i)).
Qed.

(** ** Attribute dicts *)

Lemma dict_set_id {V} (k : str) (v : V) (d : list (str * V)) :
  dict_get k d = Some v → dict_set k v d = d.
Proof.
  induction d as [|[k' v'] d IH]; simpl; [done|].
  destruct (decide (k' = k)) as [->|]; [by intros [= ->]|].
  intros H. by rewrite IH.
Qed.

Lemma dict_set_fixed {V} (k : str) (v : V) (d : list (str * V)) :
  dict_set k v d = d → dict_get k d = Some v.
Proof. intros <-. apply dict_get_set_eq. Qed.

(** ** Conversely: a change that changed nothing *)

Lemma fmap_fixed_elem {A} (g : A → A) (l : list A) x :
  g <$> l = l → x ∈ l → g x = x.
Proof.
  induction l as [|y l IH]; [by intros _ ?%elem_of_nil|].
  rewrite fmap_cons. intros [= Hy Hl] [->|Hx]%elem_of_cons; auto.
Qed.

Lemma map_attrs_fixed_inv f forest j nm a cs :
  map_attrs_node f <$> forest = forest →
  Tag j nm a cs ∈ descendants forest → f j a = a.
Proof.
  intros Hfix Hin.
  assert (map_attrs_node f <$> descendants forest = descendants forest) as Hd
    by (by rewrite <- map_attrs_descendants, Hfix).
  pose proof (fmap_fixed_elem _ _ _ Hd Hin) as Heq.
  rewrite map_attrs_Tag in Heq. by injection Heq.
Qed.

(** ** The stylesheet link and the script *)

Lemma find_Some_elem p forest n :
  find p forest = Some n → n ∈ descendants forest ∧ p n = true.
Proof.
  unfold find, find_all. intros H.
  assert (n ∈ filter (λ n, p n = true) (descendants forest)) as Hin.
  { destruct (filter _ _); simplify_eq/=. left. }
  apply list_elem_of_filter in Hin. tauto.
Qed.

Lemma elem_find_Some p forest n :
  n ∈ descendants forest → p n = true → is_Some (find p forest).
Proof.
  intros Hn Hp. unfold find, find_all.
  assert (n ∈ filter (λ n, p n = true) (descendants forest)) as Hin
    by (by apply list_elem_of_filter).
  destruct (filter _ _); [by apply elem_of_nil in Hin|]. by eexists.
Qed.

Lemma named_Tag nm n : named nm n = true → ∃ j a cs, n = Tag j nm a cs.
Proof.
  destruct n as [|j nm' a cs]; [done|]. simpl.
  intros ->%bool_decide_eq_true. eauto.
Qed.

Lemma new_tag_leaf soup nm a :
  self_and_descendants (new_tag soup nm a) = [new_tag soup nm a].
Proof. reflexivity. Qed.

Lemma ensure_rtl_stylesheet_fixed soup :
  link_present soup → ensure_rtl_stylesheet soup = soup.
Proof.
  unfold link_present, ensure_rtl_stylesheet.
  destruct (find (named (lit "head")) (contents soup)) as [head|]; [|done].
  by intros [existing ->].
Qed.

Lemma ensure_rtl_script_fixed soup :
  script_present soup → ensure_rtl_script soup = soup.
Proof.
  unfold script_present, ensure_rtl_script.
  destruct (find (named (lit "body")) (contents soup)) as [body|]; [|done].
  by intros ->.
Qed.

Lemma ensure_rtl_stylesheet_present soup :
  link_present (ensure_rtl_stylesheet soup).
Proof.
  unfold ensure_rtl_stylesheet.
  destruct (find (named (lit "head")) (contents soup)) as [head|] eqn:Hhead;
    [|unfold link_present; by rewrite Hhead].
  destruct (find (named_with (lit "link") (lit "href") (lit "css/rtl.css"))
              (contents_of head)) as [existing|] eqn:Hex;
    [unfold link_present; rewrite Hhead, Hex; by eexists|].
  set (new_link := new_tag soup (lit "link") rtl_link_attrs).
  destruct (find_Some_elem _ _ _ Hhead) as [_ Hnamed].
  destruct (find (named_with (lit "link") (lit "href") (lit "css/style.css"))
              (contents_of head)) as [style_link|] eqn:Hstyle.
  - unfold link_present. simpl.
    rewrite (inserted_find new_link (insert_after_node (id_of style_link) new_link)
               (insert_after (id_of style_link) new_link)
               (insert_after_node_alike _ _)
               (insert_after_descendants _ _ (new_tag_leaf _ _ _)));
      [|apply named_reads_label|done].
    rewrite Hhead. simpl.
    apply (elem_find_Some _ _ new_link); [|done].
    destruct (named_Tag _ _ Hnamed) as (j & a & cs & ->).
    rewrite insert_after_Tag. simpl.
    destruct (find_Some_elem _ _ _ Hstyle) as [Hin _].
    by apply (insert_after_present _ _ (new_tag_leaf _ _ _) _ style_link).
  - unfold link_present. simpl.
    rewrite (inserted_find new_link (append_node (id_of head) new_link)
               (append (id_of head) new_link)
               (append_node_alike _ _)
               (append_descendants _ _ (new_tag_leaf _ _ _)));
      [|apply named_reads_label|done].
    rewrite Hhead. simpl.
    apply (elem_find_Some _ _ new_link); [|done].
    apply append_present; [apply new_tag_leaf|done|].
    destruct (named_Tag _ _ Hnamed) as (j & a & cs & ->). eauto.
Qed.

Lemma ensure_rtl_script_present soup :
  script_present (ensure_rtl_script soup).
Proof.
  unfold ensure_rtl_script.
  destruct (find (named (lit "body")) (contents soup)) as [body|] eqn:Hbody;
    [|unfold script_present; by rewrite Hbody].
  destruct (existsb src_is_rtl_js
              (find_all (named_having (lit "script") (lit "src"))
                 (contents_of body))) eqn:Hex;
    [unfold script_present; by rewrite Hbody|].
  set (rtl_tag := new_tag soup (lit "script") rtl_script_attrs).
  destruct (find_Some_elem _ _ _ Hbody) as [_ Hnamed].
  assert (Hfound : ∀ forest, rtl_tag ∈ descendants forest →
            existsb src_is_rtl_js
              (find_all (named_having (lit "script") (lit "src")) forest) = true).
  { intros forest Hin. apply existsb_exists. exists rtl_tag.
    split; [|done]. apply list_elem_of_In, list_elem_of_filter. by split. }
  destruct (find (named_with (lit "script") (lit "src") (lit "js/main.js"))
              (contents_of body)) as [main_script|] eqn:Hmain.
  - unfold script_present. simpl.
    rewrite (inserted_find rtl_tag (insert_after_node (id_of main_script) rtl_tag)
               (insert_after (id_of main_script) rtl_tag)
               (insert_after_node_alike _ _)
               (insert_after_descendants _ _ (new_tag_leaf _ _ _)));
      [|apply named_reads_label|done].
    rewrite Hbody. simpl. apply Hfound.
    destruct (named_Tag _ _ Hnamed) as (j & a & cs & ->).
    rewrite insert_after_Tag. simpl.
    destruct (find_Some_elem _ _ _ Hmain) as [Hin _].
    by apply (insert_after_present _ _ (new_tag_leaf _ _ _) _ main_script).
  - unfold script_present. simpl.
    rewrite (inserted_find rtl_tag (append_node (id_of body) rtl_tag)
               (append (id_of body) rtl_tag)
               (append_node_alike _ _)
               (append_descendants _ _ (new_tag_leaf _ _ _)));
      [|apply named_reads_label|done].
    rewrite Hbody. simpl. apply Hfound.
    apply append_present; [apply new_tag_leaf|done|].
    destruct (named_Tag _ _ Hnamed) as (j & a & cs & ->). eauto.
Qed.

(** ** The attributes of html and body *)

Lemma map_attrs_ext_descendants f1 f2 (forest : list node) :
  (∀ j nm a cs, Tag j nm a cs ∈ descendants forest → f1 j a = f2 j a) →
  map_attrs_node f1 <$> forest = map_attrs_node f2 <$> forest.
Proof.
  assert (Hnode : ∀ n,
    (∀ j nm a cs, Tag j nm a cs ∈ self_and_descendants n → f1 j a = f2 j a) →
    map_attrs_node f1 n = map_attrs_node f2 n).
  { induction n as [i k s|i nm a cs IH] using node_ind'; [done|].
    intros Hext. rewrite !map_attrs_Tag.
    rewrite (Hext i nm a cs) by (rewrite self_and_descendants_Tag; left).
    f_equal.
    assert (Hcs : ∀ j nm' a' cs', Tag j nm' a' cs' ∈ descendants cs →
              f1 j a' = f2 j a').
    { intros j nm' a' cs' Hin. apply (Hext j nm' a' cs').
      rewrite self_and_descendants_Tag. by right. }
    clear Hext. induction IH as [|c cs Hc _ IHcs]; [done|].
    rewrite !fmap_cons. f_equal.
    - apply Hc. intros j nm' a' cs' Hin. apply (Hcs j nm' a' cs').
      rewrite descendants_cons. apply elem_of_app. by left.
    - apply IHcs. intros j nm' a' cs' Hin. apply (Hcs j nm' a' cs').
      rewrite descendants_cons. apply elem_of_app. by right. }
  induction forest as [|c cs IH]; intros Hext; [done|].
  rewrite !fmap_cons. f_equal.
  - apply Hnode. intros j nm a cs' Hin. apply (Hext j nm a cs').
    rewrite descendants_cons. apply elem_of_app. by left.
  - apply IH. intros j nm a cs' Hin. apply (Hext j nm a cs').
    rewrite descendants_cons. apply elem_of_app. by right.
Qed.

Lemma map_attrs_compose_forest f1 f2 (forest : list node) :
  map_attrs_node f1 <$> (map_attrs_node f2 <$> forest)
  = map_attrs_node (λ j a, f1 j (f2 j a)) <$> forest.
Proof.
  rewrite <- list_fmap_compose. apply list_fmap_ext.
  intros _ n _. apply map_attrs_compose.
Qed.

Lemma set_item_map_attrs i k v f (forest : list node) :
  set_item i k v (map_attrs_node f <$> forest)
  = map_attrs_node (λ j a, assign i k v j (f j a)) <$> forest.
Proof. apply map_attrs_compose_forest. Qed.

Lemma ensure_rtl_html_change soup :
  ensure_rtl_html soup =
  match find (named (lit "html")) (contents soup) with
  | Some html_tag =>
      with_contents soup
        (map_attrs_node (html_change (id_of html_tag)) <$> contents soup)
  | None => soup
  end.
Proof.
  unfold ensure_rtl_html.
  destruct (find (named (lit "html")) (contents soup)) as [h|]; [|done].
  f_equal. unfold set_item, set_item_node. by rewrite map_attrs_compose_forest.
Qed.

Lemma ensure_rtl_body_change soup :
  ensure_rtl_body soup =
  match find (named (lit "body")) (contents soup) with
  | Some body_tag =>
      match body_change (id_of body_tag)
              (dict_get (lit "class") (attrs_of body_tag)) with
      | Some f => Ok (with_contents soup (map_attrs_node f <$> contents soup))
      | None => Err AttributeError
      end
  | None => Ok soup
  end.
Proof.
  unfold ensure_rtl_body, body_change.
  destruct (find (named (lit "body")) (contents soup)) as [b|]; [|done].
  destruct (dict_get (lit "class") (attrs_of b)) as [[s|l]|].
  - by destruct (contains _ s).
  - case_bool_decide; [done|]. do 2 f_equal.
    unfold set_item, set_item_node. by rewrite map_attrs_compose_forest.
  - do 2 f_equal.
    unfold set_item, set_item_node. by rewrite map_attrs_compose_forest.
Qed.

(** What the two changes leave in the dict. *)
Lemma assign_get_ne i k v j a k0 :
  k ≠ k0 → dict_get k0 (assign i k v j a) = dict_get k0 a.
Proof.
  intros Hne. unfold assign. destruct (decide (j = i)); [|done].
  by apply dict_get_set_ne.
Qed.

Lemma assign_get_eq i k v j a :
  dict_get k a = Some v → dict_get k (assign i k v j a) = Some v.
Proof.
  intros Hg. unfold assign. destruct (decide (j = i)); [|done].
  apply dict_get_set_eq.
Qed.

Lemma assign_at i k v a : dict_get k (assign i k v i a) = Some v.
Proof. unfold assign. rewrite decide_True by done. apply dict_get_set_eq. Qed.

Lemma assign_fixed i k v j a :
  (j = i → dict_get k a = Some v) → assign i k v j a = a.
Proof.
  intros Hg. unfold assign. destruct (decide (j = i)); [|done].
  by apply dict_set_id, Hg.
Qed.

Lemma html_change_fixed i j a :
  (j = i → dict_get (lit "lang") a = Some (AStr (lit "fa")) ∧
           dict_get (lit "dir") a = Some (AStr (lit "rtl"))) →
  html_change i j a = a.
Proof.
  intros Hg. unfold html_change.
  rewrite (assign_fixed i (lit "lang")) by (intros; by apply Hg).
  apply assign_fixed. intros. by apply Hg.
Qed.

Lemma html_change_fixed_inv i a :
  html_change i i a = a →
  dict_get (lit "lang") a = Some (AStr (lit "fa")) ∧
  dict_get (lit "dir") a = Some (AStr (lit "rtl")).
Proof.
  intros H. rewrite <- H. unfold html_change. split.
  - rewrite assign_get_ne by done. apply assign_at.
  - apply assign_at.
Qed.

Lemma html_change_idem i j a :
  html_change i j (html_change i j a) = html_change i j a.
Proof.
  apply html_change_fixed. intros ->. unfold html_change. split.
  - rewrite assign_get_ne by done. apply assign_at.
  - apply assign_at.
Qed.

Lemma body_change_spec i class f :
  body_change i class = Some f →
  (∀ j a, dict_get (lit "lang") (f j a) = dict_get (lit "lang") a) ∧
  (∀ j a, dict_get (lit "dir") a = Some (AStr (lit "rtl")) →
          dict_get (lit "dir") (f j a) = Some (AStr (lit "rtl"))) ∧
  (∀ a, dict_get (lit "dir") (f i a) = Some (AStr (lit "rtl"))) ∧
  (∀ a, dict_get (lit "class") a = class →
        body_change i (dict_get (lit "class") (f i a))
        = Some (assign i (lit "dir") (AStr (lit "rtl")))).
Proof.
  unfold body_change. intros Hf.
  assert (Hdir : f = assign i (lit "dir") (AStr (lit "rtl")) →
    (∀ j a, dict_get (lit "lang") (f j a) = dict_get (lit "lang") a) ∧
    (∀ j a, dict_get (lit "dir") a = Some (AStr (lit "rtl")) →
            dict_get (lit "dir") (f j a) = Some (AStr (lit "rtl"))) ∧
    (∀ a, dict_get (lit "dir") (f i a) = Some (AStr (lit "rtl"))) ∧
    (∀ a, dict_get (lit "class") (f i a) = dict_get (lit "class") a)).
  { intros ->. repeat split; intros.
    - by apply assign_get_ne.
    - by apply assign_get_eq.
    - apply assign_at.
    - by apply assign_get_ne. }
  assert (Hclass : ∀ V,
    f = (λ j a, assign i (lit "class") V j
                  (assign i (lit "dir") (AStr (lit "rtl")) j a)) →
    (∀ j a, dict_get (lit "lang") (f j a) = dict_get (lit "lang") a) ∧
    (∀ j a, dict_get (lit "dir") a = Some (AStr (lit "rtl")) →
            dict_get (lit "dir") (f j a) = Some (AStr (lit "rtl"))) ∧
    (∀ a, dict_get (lit "dir") (f i a) = Some (AStr (lit "rtl"))) ∧
    (∀ a, dict_get (lit "class") (f i a) = Some V)).
  { intros V ->. repeat split; intros.
    - by rewrite !assign_get_ne.
    - rewrite assign_get_ne by done. by apply assign_get_eq.
    - rewrite assign_get_ne by done. apply assign_at.
    - apply assign_at. }
  destruct class as [[s|l]|].
  - destruct (contains (lit "rtl-body") s) eqn:Hs; [|done].
    injection Hf as <-. destruct (Hdir eq_refl) as (H1 & H2 & H3 & H4).
    repeat split; try done. intros a Ha. by rewrite H4, Ha, Hs.
  - case_bool_decide as Hl.
    + injection Hf as <-. destruct (Hdir eq_refl) as (H1 & H2 & H3 & H4).
      repeat split; try done. intros a Ha.
      by rewrite H4, Ha, bool_decide_true.
    + injection Hf as <-.
      destruct (Hclass (AList (l ++ [lit "rtl-body"])) eq_refl)
        as (H1 & H2 & H3 & H4).
      repeat split; try done. intros a _. rewrite H4.
      rewrite bool_decide_true; [done|].
      apply elem_of_app. right. left.
  - injection Hf as <-.
    destruct (Hclass (AList [lit "rtl-body"]) eq_refl) as (H1 & H2 & H3 & H4).
    repeat split; try done. intros a _. rewrite H4.
    rewrite bool_decide_true; [done|]. left.
Qed.

(** Running the html step twice is running it once. *)
Lemma ensure_rtl_html_idem soup :
  ensure_rtl_html (ensure_rtl_html soup) = ensure_rtl_html soup.
Proof.
  rewrite (ensure_rtl_html_change soup).
  destruct (find (named (lit "html")) (contents soup)) as [h|] eqn:Hh.
  - rewrite ensure_rtl_html_change. simpl.
    rewrite map_attrs_find by (intros; apply map_attrs_named).
    rewrite Hh. simpl. rewrite map_attrs_id_of. unfold with_contents. simpl.
    f_equal. rewrite map_attrs_compose_forest.
    apply map_attrs_ext_descendants. intros. apply html_change_idem.
  - rewrite ensure_rtl_html_change. by rewrite Hh.
Qed.

(** Running the body step on its own result changes nothing more. *)
Lemma ensure_rtl_body_idem soup soup' :
  ensure_rtl_body soup = Ok soup' → ensure_rtl_body soup' = Ok soup'.
Proof.
  rewrite (ensure_rtl_body_change soup).
  destruct (find (named (lit "body")) (contents soup)) as [b|] eqn:Hb.
  - destruct (body_change _ _) as [f|] eqn:Hf; [|done].
    intros [= <-]. rewrite ensure_rtl_body_change. simpl.
    rewrite map_attrs_find by (intros; apply map_attrs_named).
    rewrite Hb. simpl. rewrite map_attrs_id_of.
    destruct (find_Some_elem _ _ _ Hb) as [_ Hnamed].
    destruct (named_Tag _ _ Hnamed) as (j & a & cs & ->).
    simpl in *.
    destruct (body_change_spec _ _ _ Hf) as (_ & _ & Hdir & Hagain).
    rewrite (Hagain a eq_refl). unfold with_contents. simpl. do 2 f_equal.
    rewrite map_attrs_compose_forest.
    apply map_attrs_ext_descendants. intros j' nm' a' cs' _.
    apply assign_fixed. intros ->. apply Hdir.
  - intros [= <-]. rewrite ensure_rtl_body_change. by rewrite Hb.
Qed.

(** The body step keeps what the html step has set. *)
Lemma ensure_rtl_body_keeps_html soup soup' :
  ensure_rtl_html soup = soup → ensure_rtl_body soup = Ok soup' →
  ensure_rtl_html soup' = soup'.
Proof.
  rewrite (ensure_rtl_body_change soup).
  destruct (find (named (lit "body")) (contents soup)) as [b|] eqn:Hb;
    [|by intros ? [= <-]].
  destruct (body_change _ _) as [f|] eqn:Hf; [|done].
  rewrite !ensure_rtl_html_change. intros Hhtml [= <-]. simpl.
  rewrite map_attrs_find by (intros; apply map_attrs_named).
  destruct (find (named (lit "html")) (contents soup)) as [h|] eqn:Hh; [|done].
  simpl. rewrite map_attrs_id_of. unfold with_contents. simpl. f_equal.
  rewrite map_attrs_compose_forest.
  apply map_attrs_ext_descendants. intros j nm a cs Hin.
  assert (html_change (id_of h) j a = a) as Hfix.
  { apply (map_attrs_fixed_inv _ (contents soup) j nm a cs); [|done].
    unfold with_contents in Hhtml. destruct soup as [forest nxt]. simpl in *.
    by injection Hhtml. }
  destruct (body_change_spec _ _ _ Hf) as (Hlang & Hdir & _ & _).
  apply html_change_fixed. intros ->.
  apply html_change_fixed_inv in Hfix as [? ?].
  split; [by rewrite Hlang | by apply Hdir].
Qed.

Lemma ensure_rtl_attributes_idem soup soup' :
  ensure_rtl_attributes soup = Ok soup' → ensure_rtl_attributes soup' = Ok soup'.
Proof.
  unfold ensure_rtl_attributes. intros H.
  rewrite (ensure_rtl_body_keeps_html (ensure_rtl_html soup) soup');
    [|apply ensure_rtl_html_idem|done].
  by eapply ensure_rtl_body_idem.
Qed.

(** ** The adjustments do not undo one another *)

Lemma ids_below_elem soup n :
  ids_below soup → n ∈ descendants (contents soup) → id_of n < next_id soup.
Proof.
  intros Hb Hn. unfold ids_below in Hb. rewrite Forall_forall in Hb.
  apply Hb. by apply list_elem_of_fmap_2.
Qed.

Section InsertedSoup.
Variables (new : node) (g : node → node) (G : list node → list node).
Hypothesis g_alike : ∀ n, labelled_alike (g n) n.
Hypothesis G_interleave :
  ∀ forest, interleave new (g <$> descendants forest) (descendants (G forest)).
Hypothesis g_contents :
  ∀ n, interleave new (g <$> descendants (contents_of n))
         (descendants (contents_of (g n))).
Hypothesis G_map_attrs :
  ∀ f forest, map_attrs_node f new = new →
    map_attrs_node f <$> G forest = G (map_attrs_node f <$> forest).

Lemma inserted_ids_below soup :
  ids_below soup → id_of new = next_id soup → ids_below (inserted G soup).
Proof.
  intros Hb Hnew. unfold ids_below, inserted, ids. simpl.
  apply Forall_fmap, Forall_forall. intros m Hm. simpl.
  destruct (interleave_elem_inv _ _ _ _ (G_interleave (contents soup)) Hm)
    as [->|Hold].
  - rewrite Hnew. lia.
  - apply list_elem_of_fmap in Hold as (n & -> & Hn).
    destruct (g_alike n) as [-> _].
    pose proof (ids_below_elem soup n Hb Hn). lia.
Qed.

Lemma inserted_link_present soup :
  named (lit "head") new = false →
  link_present soup → link_present (inserted G soup).
Proof.
  intros Hnew. unfold link_present, inserted. simpl.
  rewrite (inserted_find new g G g_alike G_interleave);
    [|apply named_reads_label|done].
  destruct (find (named (lit "head")) (contents soup)) as [head|]; [|done].
  simpl. apply (inserted_find_contents_Some new g g_alike g_contents).
  apply named_with_reads_label.
Qed.

(** A change of attributes that spares the new node goes through. *)
Lemma inserted_map_attrs f soup :
  map_attrs_node f new = new →
  with_contents (inserted G soup)
    (map_attrs_node f <$> contents (inserted G soup))
  = inserted G (with_contents soup (map_attrs_node f <$> contents soup)).
Proof.
  intros Hnew. unfold inserted, allocated, with_contents. simpl.
  by rewrite G_map_attrs.
Qed.

Lemma spared f :
  contents_of new = [] → (∀ a, f (id_of new) a = a) → map_attrs_node f new = new.
Proof.
  intros Hleaf Hf. destruct new as [|j nm a cs]; [done|].
  simpl in *. subst. by rewrite Hf.
Qed.

Lemma inserted_ensure_rtl_html soup :
  ids_below soup → id_of new = next_id soup → contents_of new = [] →
  named (lit "html") new = false →
  ensure_rtl_html (inserted G soup) = inserted G (ensure_rtl_html soup).
Proof.
  intros Hb Hid Hleaf Hnew. rewrite !ensure_rtl_html_change.
  replace (contents (inserted G soup)) with (G (contents soup)) at 1 by done.
  rewrite (inserted_find new g G g_alike G_interleave);
    [|apply named_reads_label|done].
  destruct (find (named (lit "html")) (contents soup)) as [h|] eqn:Hh; [|done].
  simpl. destruct (g_alike h) as [-> _].
  apply inserted_map_attrs, spared; [done|].
  intros a. unfold html_change, assign.
  destruct (find_Some_elem _ _ _ Hh) as [Hin _].
  pose proof (ids_below_elem soup h Hb Hin).
  rewrite !decide_False by lia. done.
Qed.

Lemma body_change_spares i class f a j :
  body_change i class = Some f → j ≠ i → f j a = a.
Proof.
  unfold body_change, assign. intros Hf Hne.
  destruct class as [[s|l]|].
  - destruct (contains _ s); [|done]. injection Hf as <-.
    by rewrite decide_False.
  - case_bool_decide; injection Hf as <-; by rewrite !decide_False.
  - injection Hf as <-. by rewrite !decide_False.
Qed.

Lemma inserted_ensure_rtl_body soup :
  ids_below soup → id_of new = next_id soup → contents_of new = [] →
  named (lit "body") new = false →
  ensure_rtl_body (inserted G soup)
  = match ensure_rtl_body soup with
    | Ok soup' => Ok (inserted G soup')
    | Err e => Err e
    end.
Proof.
  intros Hb Hid Hleaf Hnew. rewrite !ensure_rtl_body_change.
  replace (contents (inserted G soup)) with (G (contents soup)) at 1 by done.
  rewrite (inserted_find new g G g_alike G_interleave);
    [|apply named_reads_label|done].
  destruct (find (named (lit "body")) (contents soup)) as [b|] eqn:Hbody; [|done].
  simpl. destruct (g_alike b) as (-> & -> & _).
  destruct (body_change _ _) as [f|] eqn:Hf; [|done]. f_equal.
  apply inserted_map_attrs, spared; [done|].
  intros a. apply (body_change_spares _ _ _ _ _ Hf).
  destruct (find_Some_elem _ _ _ Hbody) as [Hin _].
  pose proof (ids_below_elem soup b Hb Hin). lia.
Qed.

Lemma ensure_rtl_html_ids_below soup :
  ids_below soup → ids_below (ensure_rtl_html soup).
Proof.
  rewrite ensure_rtl_html_change.
  destruct (find _ _); [|done]. unfold ids_below. simpl.
  by rewrite map_attrs_ids.
Qed.

Lemma inserted_ensure_rtl_attributes soup :
  ids_below soup → id_of new = next_id soup → contents_of new = [] →
  named (lit "html") new = false → named (lit "body") new = false →
  ensure_rtl_attributes soup = Ok soup →
  ensure_rtl_attributes (inserted G soup) = Ok (inserted G soup).
Proof.
  intros Hb Hid Hleaf Hhtml Hbody Hdone. unfold ensure_rtl_attributes in *.
  rewrite inserted_ensure_rtl_html by done.
  rewrite inserted_ensure_rtl_body; [by rewrite Hdone| |..|done]; try done.
  - by apply ensure_rtl_html_ids_below.
  - rewrite Hid. rewrite ensure_rtl_html_change. by destruct (find _ _).
Qed.

End InsertedSoup.

Lemma insert_after_map_attrs_spared i new f forest :
  map_attrs_node f new = new →
  map_attrs_node f <$> insert_after i new forest
  = insert_after i new (map_attrs_node f <$> forest).
Proof. intros Hnew. by rewrite map_attrs_insert_after, Hnew. Qed.

Lemma append_map_attrs_spared i new f forest :
  map_attrs_node f new = new →
  map_attrs_node f <$> append i new forest
  = append i new (map_attrs_node f <$> forest).
Proof. intros Hnew. by rewrite map_attrs_append, Hnew. Qed.

Lemma ensure_rtl_stylesheet_fresh soup :
  fresh_insertion (lit "link") soup (ensure_rtl_stylesheet soup).
Proof.
  unfold ensure_rtl_stylesheet.
  destruct (find _ (contents soup)) as [head|]; [|constructor].
  destruct (find _ (contents_of head)); [constructor|].
  destruct (find _ (contents_of head)); constructor.
Qed.

Lemma ensure_rtl_script_fresh soup :
  fresh_insertion (lit "script") soup (ensure_rtl_script soup).
Proof.
  unfold ensure_rtl_script.
  destruct (find _ (contents soup)) as [body|]; [|constructor].
  destruct (existsb _ _); [constructor|].
  destruct (find _ (contents_of body)); constructor.
Qed.

Lemma named_new_tag soup nm nm' a :
  nm ≠ nm' → named nm' (new_tag soup nm a) = false.
Proof. intros Hne. simpl. by apply bool_decide_eq_false. Qed.

Lemma fresh_ids_below nm soup soup' :
  fresh_insertion nm soup soup' → ids_below soup → ids_below soup'.
Proof.
  intros [|i a|i a] Hb; [done| |].
  - apply (inserted_ids_below (new_tag soup nm a)
             (insert_after_node i (new_tag soup nm a)));
      [apply insert_after_node_alike
      |apply insert_after_descendants, new_tag_leaf|done..].
  - apply (inserted_ids_below (new_tag soup nm a)
             (append_node i (new_tag soup nm a)));
      [apply append_node_alike
      |apply append_descendants, new_tag_leaf|done..].
Qed.

Lemma fresh_ensure_rtl_attributes nm soup soup' :
  nm ≠ lit "html" → nm ≠ lit "body" →
  fresh_insertion nm soup soup' → ids_below soup →
  ensure_rtl_attributes soup = Ok soup →
  ensure_rtl_attributes soup' = Ok soup'.
Proof.
  intros Hhtml Hbody [|i a|i a] Hb Hdone; [done| |].
  - apply (inserted_ensure_rtl_attributes (new_tag soup nm a)
             (insert_after_node i (new_tag soup nm a)));
      [apply insert_after_node_alike
      |apply insert_after_descendants, new_tag_leaf
      |apply insert_after_contents, new_tag_leaf
      |intros; by apply insert_after_map_attrs_spared
      |done|done|done|by apply named_new_tag..|done].
  - apply (inserted_ensure_rtl_attributes (new_tag soup nm a)
             (append_node i (new_tag soup nm a)));
      [apply append_node_alike
      |apply append_descendants, new_tag_leaf
      |apply append_contents, new_tag_leaf
      |intros; by apply append_map_attrs_spared
      |done|done|done|by apply named_new_tag..|done].
Qed.

Lemma fresh_link_present nm soup soup' :
  nm ≠ lit "head" →
  fresh_insertion nm soup soup' → link_present soup → link_present soup'.
Proof.
  intros Hhead [|i a|i a] Hl; [done| |].
  - apply (inserted_link_present (new_tag soup nm a)
             (insert_after_node i (new_tag soup nm a)));
      [apply insert_after_node_alike
      |apply insert_after_descendants, new_tag_leaf
      |apply insert_after_contents, new_tag_leaf
      |by apply named_new_tag|done].
  - apply (inserted_link_present (new_tag soup nm a)
             (append_node i (new_tag soup nm a)));
      [apply append_node_alike
      |apply append_descendants, new_tag_leaf
      |apply append_contents, new_tag_leaf
      |by apply named_new_tag|done].
Qed.

(** A tag of another name is found where it was, with the label it had. *)
Lemma fresh_find_named nm nm' soup soup' :
  nm ≠ nm' → fresh_insertion nm soup soup' →
  ∃ g, (∀ n, labelled_alike (g n) n) ∧
       find (named nm') (contents soup') = g <$> find (named nm') (contents soup).
Proof.
  intros Hne [|i a|i a].
  - exists id. split; [done|]. by destruct (find _ _).
  - exists (insert_after_node i (new_tag soup nm a)).
    split; [apply insert_after_node_alike|].
    apply (inserted_find (new_tag soup nm a));
      [apply insert_after_node_alike
      |apply insert_after_descendants, new_tag_leaf
      |apply named_reads_label|by apply named_new_tag].
  - exists (append_node i (new_tag soup nm a)).
    split; [apply append_node_alike|].
    apply (inserted_find (new_tag soup nm a));
      [apply append_node_alike
      |apply append_descendants, new_tag_leaf
      |apply named_reads_label|by apply named_new_tag].
Qed.

(** ** The class list of the body *)

Lemma parsed_class_not_str soup n s :
  parsed soup → n ∈ descendants (contents soup) →
  dict_get (lit "class") (attrs_of n) ≠ Some (AStr s).
Proof.
  intros Hp Hn Hc. pose proof (parsed_descendant soup n Hp Hn) as Ha.
  unfold attrs_as_parsed in Ha. rewrite Hc in Ha. done.
Qed.

Lemma body_change_classes i class f a :
  (∀ s, class ≠ Some (AStr s)) →
  dict_get (lit "class") a = class →
  body_change i class = Some f →
  ∃ classes, dict_get (lit "class") (f i a) = Some (AList classes) ∧
    classes = with_rtl_body (match class with
                             | Some (AList l) => l
                             | _ => []
                             end).
Proof.
  intros Hclass Ha. unfold body_change, with_rtl_body.
  destruct class as [[s|l]|].
  - by destruct (Hclass s).
  - case_bool_decide; intros [= <-].
    + exists l. by rewrite assign_get_ne.
    + eexists. split; [apply assign_at|done].
  - intros [= <-]. eexists. split; [apply assign_at|].
    rewrite bool_decide_false; [done|]. by intros ?%elem_of_nil.
Qed.

Lemma ensure_rtl_html_find_body soup :
  find (named (lit "body")) (contents (ensure_rtl_html soup))
  = (λ n, match find (named (lit "html")) (contents soup) with
          | Some h => map_attrs_node (html_change (id_of h)) n
          | None => n
          end) <$> find (named (lit "body")) (contents soup).
Proof.
  rewrite ensure_rtl_html_change.
  destruct (find (named (lit "html")) (contents soup)) as [h|].
  - simpl. rewrite map_attrs_find by (intros; apply map_attrs_named). done.
  - by destruct (find _ _).
Qed.

Lemma html_change_class i j a :
  dict_get (lit "class") (html_change i j a) = dict_get (lit "class") a.
Proof. unfold html_change. by rewrite !assign_get_ne. Qed.

Lemma ensure_rtl_html_body soup body :
  find (named (lit "body")) (contents soup) = Some body →
  ∃ body', find (named (lit "body")) (contents (ensure_rtl_html soup)) = Some body' ∧
    id_of body' = id_of body ∧
    dict_get (lit "class") (attrs_of body')
    = dict_get (lit "class") (attrs_of body).
Proof.
  intros Hb. rewrite ensure_rtl_html_find_body, Hb. simpl.
  eexists. split; [done|].
  destruct (find (named (lit "html")) (contents soup)) as [h|]; [|done].
  split; [apply map_attrs_id_of|].
  rewrite map_attrs_attrs_of. destruct body as [|j nm a cs]; [done|].
  apply html_change_class.
Qed.

Lemma ensure_rtl_html_frame soup :
  next_id (ensure_rtl_html soup) = next_id soup ∧
  ids (contents (ensure_rtl_html soup)) = ids (contents soup).
Proof.
  rewrite ensure_rtl_html_change. destruct (find _ _); [|done].
  simpl. split; [done|]. apply map_attrs_ids.
Qed.

Lemma ensure_rtl_body_parsed soup :
  (∀ body s, find (named (lit "body")) (contents soup) = Some body →
             dict_get (lit "class") (attrs_of body) ≠ Some (AStr s)) →
  ∃ soup', ensure_rtl_body soup = Ok soup' ∧
    next_id soup' = next_id soup ∧ ids (contents soup') = ids (contents soup) ∧
    ∀ body, find (named (lit "body")) (contents soup) = Some body →
      ∃ body', find (named (lit "body")) (contents soup') = Some body' ∧
        id_of body' = id_of body ∧
        classes_of body' = with_rtl_body (classes_of body).
Proof.
  intros Hnot. rewrite ensure_rtl_body_change.
  destruct (find (named (lit "body")) (contents soup)) as [b|] eqn:Hb.
  2:{ eexists. split; [done|]. split; [done|]. split; [done|]. done. }
  destruct (find_Some_elem _ _ _ Hb) as [Hin Hnamed].
  destruct (named_Tag _ _ Hnamed) as (j & a & cs & ->). simpl.
  assert (Hnot' : ∀ s, dict_get (lit "class") a ≠ Some (AStr s)).
  { intros s. by apply (Hnot (Tag j (lit "body") a cs) s). }
  destruct (body_change j (dict_get (lit "class") a)) as [f|] eqn:Hf.
  2:{ exfalso. unfold body_change in Hf.
      destruct (dict_get (lit "class") a) as [[s|l]|];
        [by destruct (Hnot' s)| |done].
      by case_bool_decide. }
  eexists. split; [done|]. simpl. split; [done|].
  split; [by rewrite map_attrs_ids|].
  intros body [= <-].
  rewrite map_attrs_find by (intros; apply map_attrs_named).
  rewrite Hb. simpl.
  eexists. split; [done|]. split; [done|].
  unfold classes_of. simpl.
  by destruct (body_change_classes j _ f a Hnot' eq_refl Hf) as (l & -> & ->).
Qed.

(** For a parsed document the attribute step returns; the body it leaves
    is the body it found, with the marker class added to its list. *)
Lemma ensure_rtl_attributes_parsed soup :
  parsed soup →
  ∃ soup', ensure_rtl_attributes soup = Ok soup' ∧
    next_id soup' = next_id soup ∧ ids (contents soup') = ids (contents soup) ∧
    ∀ body, find (named (lit "body")) (contents soup) = Some body →
      ∃ body', find (named (lit "body")) (contents soup') = Some body' ∧
        id_of body' = id_of body ∧
        classes_of body' = with_rtl_body (classes_of body).
Proof.
  intros Hp. unfold ensure_rtl_attributes.
  destruct (ensure_rtl_html_frame soup) as [Hnext Hids].
  assert (Hfound : ∀ b1, find (named (lit "body")) (contents (ensure_rtl_html soup))
            = Some b1 →
            ∃ b, find (named (lit "body")) (contents soup) = Some b ∧
              id_of b1 = id_of b ∧
              dict_get (lit "class") (attrs_of b1)
              = dict_get (lit "class") (attrs_of b)).
  { intros b1 Hb1.
    destruct (find (named (lit "body")) (contents soup)) as [b|] eqn:Hb.
    - destruct (ensure_rtl_html_body soup b Hb) as (b' & Hb' & ? & ?).
      exists b. rewrite Hb' in Hb1. by injection Hb1 as <-.
    - rewrite ensure_rtl_html_find_body, Hb in Hb1. done. }
  destruct (ensure_rtl_body_parsed (ensure_rtl_html soup))
    as (soup' & Hok & Hn & Hi & Hbody).
  { intros b1 s Hb1. destruct (Hfound b1 Hb1) as (b & Hb & _ & ->).
    destruct (find_Some_elem _ _ _ Hb) as [Hin _].
    by apply (parsed_class_not_str soup). }
  exists soup'. split; [done|]. split; [congruence|]. split; [congruence|].
  intros body Hb.
  destruct (ensure_rtl_html_body soup body Hb) as (b1 & Hb1 & Hid1 & Hc1).
  destruct (Hbody b1 Hb1) as (b' & Hb' & Hid' & Hc').
  exists b'. split; [done|]. split; [congruence|].
  rewrite Hc'. unfold classes_of. by rewrite Hc1.
Qed.

Lemma classes_of_alike n n' : labelled_alike n n' → classes_of n = classes_of n'.
Proof. intros (_ & Ha & _). unfold classes_of. by rewrite Ha. Qed.

Lemma fresh_find_body nm soup soup' body :
  nm ≠ lit "body" → fresh_insertion nm soup soup' →
  find (named (lit "body")) (contents soup) = Some body →
  ∃ body', find (named (lit "body")) (contents soup') = Some body' ∧
    classes_of body' = classes_of body.
Proof.
  intros Hne Hfresh Hb.
  destruct (fresh_find_named nm (lit "body") soup soup' Hne Hfresh)
    as (g & Hg & ->).
  rewrite Hb. simpl. eexists. split; [done|]. apply classes_of_alike, Hg.
Qed.

(** ** C5: the RTL adjustment is idempotent *)

(** C5: on a parsed document the three adjustments return, and running
    them again on their result changes nothing: no second stylesheet
    link, no second script tag, no second marker class.  The class list
    of the body is the one it had, in its order, with the marker class
    added at the end when it was missing. *)
Theorem rtl_adjust_idempotent (soup : BeautifulSoup) :
  parsed soup →
  ∃ soup',
    rtl_adjust soup = Ok soup' ∧
    rtl_adjust soup' = Ok soup' ∧
    ∀ body, find (named (lit "body")) (contents soup) = Some body →
      ∃ body', find (named (lit "body")) (contents soup') = Some body' ∧
        classes_of body' = with_rtl_body (classes_of body).
Proof.
  intros Hp.
  destruct (ensure_rtl_attributes_parsed soup Hp)
    as (s1 & Hs1 & Hnext & Hids & Hbody).
  assert (Hb1 : ids_below s1).
  { unfold ids_below. rewrite Hnext, Hids. apply Hp. }
  pose proof (ensure_rtl_stylesheet_fresh s1) as Hf2.
  pose proof (ensure_rtl_script_fresh (ensure_rtl_stylesheet s1)) as Hf3.
  set (s2 := ensure_rtl_stylesheet s1) in *.
  set (s3 := ensure_rtl_script s2) in *.
  assert (Hb2 : ids_below s2) by (by eapply fresh_ids_below).
  assert (Ha1 : ensure_rtl_attributes s1 = Ok s1)
    by (by eapply ensure_rtl_attributes_idem).
  assert (Ha2 : ensure_rtl_attributes s2 = Ok s2)
    by (by eapply (fresh_ensure_rtl_attributes (lit "link"))).
  assert (Ha3 : ensure_rtl_attributes s3 = Ok s3)
    by (by eapply (fresh_ensure_rtl_attributes (lit "script"))).
  assert (Hl3 : link_present s3).
  { eapply (fresh_link_present (lit "script")); [done|done|].
    apply ensure_rtl_stylesheet_present. }
  assert (Hs3 : script_present s3) by apply ensure_rtl_script_present.
  exists s3. unfold rtl_adjust. rewrite Hs1, Ha3.
  rewrite (ensure_rtl_stylesheet_fixed s3 Hl3).
  rewrite (ensure_rtl_script_fixed s3 Hs3).
  split; [done|]. split; [done|].
  intros body Hb. destruct (Hbody body Hb) as (b1 & Hfb1 & _ & Hc1).
  destruct (fresh_find_body (lit "link") s1 s2 b1) as (b2 & Hfb2 & Hc2);
    [done..|].
  destruct (fresh_find_body (lit "script") s2 s3 b2) as (b3 & Hfb3 & Hc3);
    [done..|].
  exists b3. split; [done|]. congruence.
Qed.

Lemma rtl_adjust_idempotent_witness :
  ∃ soup',
    rtl_adjust sample_page = Ok soup' ∧
    rtl_adjust soup' = Ok soup' ∧
    ∀ body, find (named (lit "body")) (contents sample_page) = Some body →
      ∃ body', find (named (lit "body")) (contents soup') = Some body' ∧
        classes_of body' = with_rtl_body (classes_of body).
Proof. exact (rtl_adjust_idempotent sample_page sample_page_parsed). Defined.

(** ** C10: nothing to adjust *)

(** C10: on a parsed document no adjuster raises, and each one skips what
    is not there: without a head the stylesheet step returns the document
    as it is, without a body so does the script step, and the attribute
    step leaves out the html half, the body half or both. *)
Theorem rtl_adjusters_skip_missing (soup : BeautifulSoup) :
  parsed soup →
  (∃ soup', ensure_rtl_attributes soup = Ok soup') ∧
  (find (named (lit "head")) (contents soup) = None →
   ensure_rtl_stylesheet soup = soup) ∧
  (find (named (lit "body")) (contents soup) = None →
   ensure_rtl_script soup = soup) ∧
  (find (named (lit "html")) (contents soup) = None →
   ensure_rtl_attributes soup = ensure_rtl_body soup) ∧
  (find (named (lit "body")) (contents soup) = None →
   ensure_rtl_attributes soup = Ok (ensure_rtl_html soup)) ∧
  (find (named (lit "html")) (contents soup) = None →
   find (named (lit "body")) (contents soup) = None →
   ensure_rtl_attributes soup = Ok soup).
Proof.
  intros Hp.
  assert (Hhtml : find (named (lit "html")) (contents soup) = None →
                  ensure_rtl_html soup = soup).
  { intros H. unfold ensure_rtl_html. by rewrite H. }
  assert (Hbody : find (named (lit "body")) (contents soup) = None →
                  ensure_rtl_body (ensure_rtl_html soup) = Ok (ensure_rtl_html soup)).
  { intros H. unfold ensure_rtl_body.
    by rewrite ensure_rtl_html_find_body, H. }
  split; [|split; [|split; [|split; [|split]]]].
  - destruct (ensure_rtl_attributes_parsed soup Hp) as (soup' & ? & _). eauto.
  - intros H. unfold ensure_rtl_stylesheet. by rewrite H.
  - intros H. unfold ensure_rtl_script. by rewrite H.
  - intros H. unfold ensure_rtl_attributes. by rewrite Hhtml.
  - intros H. unfold ensure_rtl_attributes. by apply Hbody.
  - intros H1 H2. unfold ensure_rtl_attributes.
    rewrite (Hbody H2). by rewrite Hhtml.
Qed.

Lemma one_paragraph_parsed : parsed one_paragraph.
Proof.
  split; [split|].
  - apply (bool_decide_unpack _). vm_compute. exact I.
  - apply (bool_decide_unpack _). vm_compute. exact I.
  - vm_compute. reflexivity.
Defined.

(** A fragment with neither html, head nor body. *)
Lemma rtl_adjusters_skip_missing_witness :
  ensure_rtl_stylesheet one_paragraph = one_paragraph ∧
  ensure_rtl_script one_paragraph = one_paragraph ∧
  ensure_rtl_attributes one_paragraph = Ok one_paragraph.
Proof.
  destruct (rtl_adjusters_skip_missing one_paragraph one_paragraph_parsed)
    as (_ & H1 & H2 & _ & _ & H3).
  split; [exact (H1 eq_refl)|]. split; [exact (H2 eq_refl)|].
  exact (H3 eq_refl eq_refl).
Defined.

(** ** Operations at a location *)

Lemma ids_app (cs1 cs2 : list node) : ids (cs1 ++ cs2) = ids cs1 ++ ids cs2.
Proof. unfold ids. by rewrite descendants_app, fmap_app. Qed.

Lemma ids_cons_Tag j nm a cs r : ids (Tag j nm a cs :: r) = j :: ids cs ++ ids r.
Proof.
  unfold ids. by rewrite descendants_cons, self_and_descendants_Tag, fmap_app.
Qed.

Lemma ids_cons_Str j k s r : ids (Str j k s :: r) = j :: ids r.
Proof. reflexivity. Qed.

Lemma ids_wrap_sublist ancestors cs : ids cs `sublist_of` ids (wrap ancestors cs).
Proof.
  revert cs. induction ancestors as [|fr anc IH]; intros cs; [done|].
  simpl. etrans; [|apply IH].
  rewrite ids_app, ids_cons_Tag.
  apply sublist_inserts_l, sublist_cons, sublist_inserts_r. done.
Qed.

(** An operation on the object of identity [i] that works node by node
    and leaves alone what does not hold [i]. *)
Section Local.
Variables (i : node_id) (op : list node → list node).
Hypothesis op_app : ∀ cs1 cs2, op (cs1 ++ cs2) = op cs1 ++ op cs2.
Hypothesis op_Tag : ∀ j nm a cs, j ≠ i → op [Tag j nm a cs] = [Tag j nm a (op cs)].
Hypothesis op_absent : ∀ cs, i ∉ ids cs → op cs = cs.

Lemma local_wrap ancestors cs :
  i ∈ ids cs → NoDup (ids (wrap ancestors cs)) →
  op (wrap ancestors cs) = wrap ancestors (op cs).
Proof.
  revert cs. induction ancestors as [|fr anc IH]; intros cs Hi Hnd; [done|].
  simpl in *.
  set (cs1 := before fr
              ++ Tag (parent_id fr) (parent_name fr) (parent_attrs fr) cs
              :: after fr) in *.
  assert (Hnd1 : NoDup (ids cs1))
    by (eapply sublist_NoDup; [exact Hnd|apply ids_wrap_sublist]).
  assert (Hi1 : i ∈ ids cs1).
  { unfold cs1. rewrite ids_app, ids_cons_Tag, elem_of_app, elem_of_cons, elem_of_app.
    tauto. }
  rewrite (IH cs1 Hi1 Hnd). f_equal.
  unfold cs1 in *. rewrite ids_app, ids_cons_Tag in Hnd1.
  apply NoDup_app in Hnd1 as (_ & Hbefore & Hrest).
  apply NoDup_cons in Hrest as [Hpid Hrest].
  apply NoDup_app in Hrest as (_ & Hafter & _).
  rewrite op_app.
  change (Tag (parent_id fr) (parent_name fr) (parent_attrs fr) cs :: after fr)
    with ([Tag (parent_id fr) (parent_name fr) (parent_attrs fr) cs] ++ after fr).
  rewrite op_app, op_Tag.
  - rewrite (op_absent (after fr)) by (intros ?; by eapply Hafter).
    rewrite (op_absent (before fr)); [done|].
    intros Hb. apply (Hbefore i Hb). right. apply elem_of_app. by left.
  - intros <-. apply Hpid. apply elem_of_app. by left.
Qed.

End Local.

(** [replace_with] is such an operation. *)
Lemma replace_with_app i new cs1 cs2 :
  replace_with i new (cs1 ++ cs2) = replace_with i new cs1 ++ replace_with i new cs2.
Proof. apply flat_map_app'. Qed.

Lemma replace_with_Tag i new j nm a cs :
  j ≠ i → replace_with i new [Tag j nm a cs] = [Tag j nm a (replace_with i new cs)].
Proof. intros Hne. unfold replace_with. simpl. by rewrite decide_False. Qed.

Lemma replace_with_absent i new cs : i ∉ ids cs → replace_with i new cs = cs.
Proof.
  assert (Hnode : ∀ n, i ∉ id_of <$> self_and_descendants n →
            replace_with_node i new n = n).
  { induction n as [j k s|j nm a cs' IH] using node_ind'; [done|].
    rewrite self_and_descendants_Tag, fmap_cons. fold (ids cs').
    intros [_ Hcs]%not_elem_of_cons. simpl. f_equal.
    induction IH as [|c cs' Hc _ IHcs]; [done|].
    change (ids (c :: cs')) with (ids ([c] ++ cs')) in Hcs.
    rewrite ids_app in Hcs. apply not_elem_of_app in Hcs as [Hc1 Hc2].
    unfold ids in Hc1. rewrite descendants_singleton in Hc1.
    simpl. rewrite decide_False.
    - rewrite Hc by done. f_equal. by apply IHcs.
    - intros <-. apply Hc1. destruct c; left. }
  induction cs as [|c cs IH]; [done|].
  change (ids (c :: cs)) with (ids ([c] ++ cs)). rewrite ids_app.
  intros [Hc1 Hc2]%not_elem_of_app.
  unfold ids in Hc1. rewrite descendants_singleton in Hc1.
  unfold replace_with. simpl. rewrite decide_False.
  - rewrite Hnode by done. f_equal. by apply IH.
  - intros <-. apply Hc1. destruct c; left.
Qed.

(** So is [set_item]. *)
Lemma set_item_app i k v (cs1 cs2 : list node) :
  set_item i k v (cs1 ++ cs2) = set_item i k v cs1 ++ set_item i k v cs2.
Proof. apply fmap_app. Qed.

Lemma set_item_Tag_ne i k v j nm a cs :
  j ≠ i → set_item i k v [Tag j nm a cs] = [Tag j nm a (set_item i k v cs)].
Proof.
  intros Hne. unfold set_item, set_item_node. simpl.
  unfold assign. by rewrite decide_False.
Qed.

Lemma set_item_absent i k v cs : i ∉ ids cs → set_item i k v cs = cs.
Proof.
  intros Hi. apply map_attrs_fixed. intros j nm a cs' Hin.
  unfold assign. rewrite decide_False; [done|]. intros ->.
  apply Hi. unfold ids. by apply (list_elem_of_fmap_2 id_of) in Hin.
Qed.

Lemma ids_wrap ancestors :
  ∃ pre post, ∀ cs, ids (wrap ancestors cs) = pre ++ ids cs ++ post.
Proof.
  induction ancestors as [|fr anc (pre & post & IH)].
  - exists [], []. intros cs. simpl. by rewrite app_nil_r.
  - exists (pre ++ ids (before fr) ++ [parent_id fr]), (ids (after fr) ++ post).
    intros cs. simpl. rewrite IH, ids_app, ids_cons_Tag.
    rewrite <- !(assoc_L (++)). simpl. by rewrite <- !(assoc_L (++)).
Qed.

Lemma ids_singleton n : ids [n] = id_of <$> self_and_descendants n.
Proof. unfold ids. by rewrite descendants_singleton. Qed.

Lemma id_of_self n : id_of n ∈ ids [n].
Proof. rewrite ids_singleton. destruct n; left. Qed.

(** Replacing the node at a location puts the new node there and leaves
    the siblings and the ancestors as they were. *)
Lemma replace_with_at ancestors L R n new :
  NoDup (ids (wrap ancestors (L ++ n :: R))) →
  replace_with (id_of n) new (wrap ancestors (L ++ n :: R))
  = wrap ancestors (L ++ new :: R).
Proof.
  intros Hnd.
  assert (Hhole : NoDup (ids (L ++ n :: R)))
    by (eapply sublist_NoDup; [exact Hnd|apply ids_wrap_sublist]).
  change (n :: R) with ([n] ++ R) in *. rewrite !ids_app in Hhole.
  apply NoDup_app in Hhole as (_ & HL & Hrest).
  apply NoDup_app in Hrest as (_ & HR & _).
  pose proof (id_of_self n) as Hn.
  rewrite (local_wrap (id_of n) (replace_with (id_of n) new)).
  - f_equal. rewrite !replace_with_app.
    rewrite (replace_with_absent _ _ L)
      by (intros H; apply (HL _ H), elem_of_app; by left).
    rewrite (replace_with_absent _ _ R) by (intros H; by apply (HR _ Hn)).
    f_equal. unfold replace_with. simpl. by rewrite decide_True.
  - apply replace_with_app.
  - apply replace_with_Tag.
  - apply replace_with_absent.
  - rewrite !ids_app, !elem_of_app. tauto.
  - done.
Qed.

Lemma set_item_Tag_eq i k v nm a cs :
  i ∉ ids cs → set_item i k v [Tag i nm a cs] = [Tag i nm (dict_set k v a) cs].
Proof.
  intros Hi. pose proof (set_item_absent i k v cs Hi) as Hcs.
  change (set_item i k v [Tag i nm a cs])
    with [Tag i nm (assign i k v i a) (set_item i k v cs)].
  rewrite Hcs. unfold assign. by rewrite decide_True.
Qed.

Lemma set_item_at ancestors L R i nm a cs k v :
  NoDup (ids (wrap ancestors (L ++ Tag i nm a cs :: R))) →
  set_item i k v (wrap ancestors (L ++ Tag i nm a cs :: R))
  = wrap ancestors (L ++ Tag i nm (dict_set k v a) cs :: R).
Proof.
  intros Hnd.
  assert (Hhole : NoDup (ids (L ++ Tag i nm a cs :: R)))
    by (eapply sublist_NoDup; [exact Hnd|apply ids_wrap_sublist]).
  rewrite ids_app, ids_cons_Tag in Hhole.
  apply NoDup_app in Hhole as (_ & HL & Hrest).
  apply NoDup_cons in Hrest as [Hi Hrest].
  rewrite (local_wrap i (set_item i k v)).
  - f_equal.
    change (Tag i nm a cs :: R) with ([Tag i nm a cs] ++ R).
    rewrite !set_item_app.
    rewrite (set_item_absent _ _ _ L) by (intros H; apply (HL _ H); left).
    rewrite (set_item_absent _ _ _ R)
      by (intros H; apply Hi, elem_of_app; by right).
    rewrite set_item_Tag_eq; [done|].
    intros H. apply Hi, elem_of_app. by left.
  - apply set_item_app.
  - apply set_item_Tag_ne.
  - apply set_item_absent.
  - rewrite ids_app, ids_cons_Tag, elem_of_app, elem_of_cons. tauto.
  - done.
Qed.

(** After the replacement the old node is no longer in the tree. *)
Lemma replaced_absent ancestors L R n new :
  NoDup (ids (wrap ancestors (L ++ n :: R))) →
  ids [new] = [id_of new] → id_of new ≠ id_of n →
  id_of n ∉ ids (wrap ancestors (L ++ new :: R)).
Proof.
  destruct (ids_wrap ancestors) as (pre & post & Hids).
  rewrite !Hids. change (n :: R) with ([n] ++ R).
  change (new :: R) with ([new] ++ R). rewrite !ids_app.
  intros Hnd Hnew Hne.
  pose proof (id_of_self n) as Hn.
  apply NoDup_app in Hnd as (_ & Hpre & Hnd).
  apply NoDup_app in Hnd as (Hnd & Hpost & _).
  apply NoDup_app in Hnd as (_ & HL & Hnd).
  apply NoDup_app in Hnd as (_ & HR & _).
  rewrite Hnew, !elem_of_app, list_elem_of_singleton.
  intros [H|[[H|[H|H]]|H]].
  - apply (Hpre _ H). rewrite !elem_of_app. tauto.
  - apply (HL _ H). rewrite !elem_of_app. tauto.
  - by apply Hne.
  - by apply (HR _ Hn).
  - apply (Hpost (id_of n)); [|done]. rewrite !elem_of_app. tauto.
Qed.

(** ** Every node has a location *)

Lemma wrap_app anc1 anc2 cs : wrap (anc1 ++ anc2) cs = wrap anc2 (wrap anc1 cs).
Proof. revert cs. induction anc1 as [|fr anc1 IH]; intros cs; [done|]. apply IH. Qed.

(** A located list of siblings stays located among more siblings. *)
Lemma wrap_widen ancestors pre post L R (m : node) :
  ∃ ancestors' L' R',
    pre ++ wrap ancestors (L ++ m :: R) ++ post
    = wrap ancestors' (L' ++ m :: R').
Proof.
  destruct ancestors as [|fr anc _] using rev_ind.
  - exists [], (pre ++ L), (R ++ post). simpl.
    by rewrite <- !(assoc_L (++)).
  - exists (anc ++ [mkFrame (pre ++ before fr) (parent_id fr) (parent_name fr)
                      (parent_attrs fr) (after fr ++ post)]), L, R.
    rewrite !wrap_app. simpl. by rewrite <- !(assoc_L (++)).
Qed.

Lemma located_in_node n m :
  m ∈ self_and_descendants n →
  ∃ ancestors L R, [n] = wrap ancestors (L ++ m :: R).
Proof.
  revert m. induction n as [j k s|j nm a cs IH] using node_ind'; intros m.
  - intros ->%list_elem_of_singleton. by exists [], [], [].
  - rewrite self_and_descendants_Tag.
    intros [->|Hm]%elem_of_cons; [by exists [], [], []|].
    apply elem_of_flat_map in Hm as (c & Hc & Hm).
    rewrite Forall_forall in IH.
    destruct (IH c Hc m Hm) as (anc & L & R & Hloc).
    apply list_elem_of_split in Hc as (pre & post & ->).
    destruct (wrap_widen anc pre post L R m) as (anc' & L' & R' & Hw).
    exists (anc' ++ [mkFrame [] j nm a []]), L', R'.
    rewrite wrap_app, <- Hw, <- Hloc. done.
Qed.

Lemma located forest m :
  m ∈ descendants forest →
  ∃ ancestors L R, forest = wrap ancestors (L ++ m :: R).
Proof.
  intros (c & Hc & Hm)%elem_of_flat_map.
  destruct (located_in_node c m Hm) as (anc & L & R & Hloc).
  apply list_elem_of_split in Hc as (pre & post & ->).
  destruct (wrap_widen anc pre post L R m) as (anc' & L' & R' & Hw).
  exists anc', L', R'. rewrite <- Hw, <- Hloc. done.
Qed.

Lemma strings_under_descendants parent n x :
  x ∈ strings_under parent n →
  Str x.2.1.1 x.2.1.2 x.2.2 ∈ self_and_descendants n.
Proof.
  revert parent. induction n as [j k s|j nm a cs IH] using node_ind';
    intros parent.
  - intros ->%list_elem_of_singleton. left.
  - simpl. intros (c & Hc & Hx)%elem_of_flat_map. right.
    apply elem_of_flat_map. exists c. split; [done|].
    rewrite Forall_forall in IH. by eapply IH.
Qed.

(** The units of the extractor refer to nodes that have a location in
    the document, so that they can be reinjected. *)
Lemma extracted_units_located soup es e :
  collect_entries soup = Ok es → e ∈ es →
  match e with
  | TextEntry i _ _ _ =>
      ∃ ancestors L R k text,
        contents soup = wrap ancestors (L ++ Str i k text :: R)
  | AttrEntry i _ _ _ _ =>
      ∃ ancestors L R nm a cs,
        contents soup = wrap ancestors (L ++ Tag i nm a cs :: R)
  end.
Proof.
  intros Hes He. destruct (collect_entries_from soup es e Hes He) as [_ Hfrom].
  destruct e as [i l c t|i attr l c t]; simpl in Hfrom.
  - destruct Hfrom as (parent & k & text & Hin & _).
    apply elem_of_flat_map in Hin as (n & Hn & Hin).
    apply strings_under_descendants in Hin. simpl in Hin.
    destruct (located (contents soup) (Str i k text)) as (anc & L & R & Hloc).
    { apply elem_of_flat_map. eauto. }
    by exists anc, L, R, k, text.
  - destruct Hfrom as (element & value & Hin & <- & _ & Hget & _).
    destruct element as [|j nm a cs]; [done|].
    destruct (located (contents soup) (Tag j nm a cs) Hin) as (anc & L & R & Hloc).
    by exists anc, L, R, nm, a, cs.
Qed.

(** ** C4: reinjection *)

(** C4, counterexample: the text node of the paragraph is replaced by
    the first reinjection; the entry still refers to the old node, which
    has no parent any more, and the second reinjection raises
    [ValueError]. *)
Lemma second_text_reinjection_raises :
  (∃ soup', apply_translation (TextEntry 1 [] (lit "Hello") []) (lit "X")
              one_paragraph = Ok soup' ∧
            apply_translation (TextEntry 1 [] (lit "Hello") []) (lit "X") soup'
            = Err ValueError) ∧
  ¬ reinjection_repeatable (TextEntry 1 [] (lit "Hello") []) (lit "X")
      one_paragraph.
Proof.
  split.
  - eexists. split; reflexivity.
  - intros (soup' & H1 & soup'' & H2 & _).
    vm_compute in H1. injection H1 as <-. vm_compute in H2. discriminate.
Qed.

(** C4, amended: one reinjection raises no error and writes
    [leading ++ translated ++ trailing] where the unit was: for a text
    unit a new string node takes the place of the old one between the
    same siblings under the same ancestors, for an attribute unit the
    attribute of the element gets the new value, and nothing else in the
    tree changes.  A second reinjection of the same unit with the same
    text leaves the document as it is for an attribute unit; for a text
    unit it raises [ValueError], the node of the unit being no longer
    part of the tree. *)
Theorem apply_translation_at (soup : BeautifulSoup) (ancestors : list frame)
    (L R : list node) (leading content trailing translated : str) :
  well_formed soup →
  let new_value := leading ++ translated ++ trailing in
  (∀ i k text,
     contents soup = wrap ancestors (L ++ Str i k text :: R) →
     let soup' :=
       mkSoup (wrap ancestors
                 (L ++ Str (next_id soup) NavigableString new_value :: R))
              (S (next_id soup)) in
     apply_translation (TextEntry i leading content trailing) translated soup
       = Ok soup' ∧
     apply_translation (TextEntry i leading content trailing) translated soup'
       = Err ValueError) ∧
  (∀ i nm a cs attr,
     contents soup = wrap ancestors (L ++ Tag i nm a cs :: R) →
     let soup' :=
       mkSoup (wrap ancestors
                 (L ++ Tag i nm (dict_set attr (AStr new_value) a) cs :: R))
              (next_id soup) in
     apply_translation (AttrEntry i attr leading content trailing) translated
       soup = Ok soup' ∧
     apply_translation (AttrEntry i attr leading content trailing) translated
       soup' = Ok soup').
Proof.
  intros [Hnd Hbelow] new_value. split.
  - intros i k text Hc soup'. rewrite Hc in Hnd.
    assert (Hin : i ∈ ids (contents soup)).
    { rewrite Hc. apply (sublist_subseteq _ _ (ids_wrap_sublist _ _)).
      rewrite ids_app, ids_cons_Str, elem_of_app, elem_of_cons. tauto. }
    assert (Hne : next_id soup ≠ i).
    { rewrite Forall_forall in Hbelow. specialize (Hbelow i Hin). lia. }
    split.
    + unfold apply_translation. rewrite bool_decide_true by done.
      unfold allocated, soup'. do 2 f_equal. rewrite Hc.
      apply (replace_with_at ancestors L R (Str i k text)). done.
    + unfold apply_translation. rewrite bool_decide_false; [done|].
      unfold soup'. simpl.
      apply (replaced_absent ancestors L R (Str i k text)
               (Str (next_id soup) NavigableString new_value)); done.
  - intros i nm a cs attr Hc soup'. rewrite Hc in Hnd. split.
    + unfold apply_translation, with_contents, soup'. do 2 f_equal.
      rewrite Hc. by apply set_item_at.
    + unfold apply_translation, with_contents, soup'. simpl. do 2 f_equal.
      rewrite <- (set_item_at ancestors L R i nm a cs attr (AStr new_value) Hnd).
      unfold set_item, set_item_node. rewrite map_attrs_compose_forest.
      apply map_attrs_ext_descendants. intros j nm' a' cs' _.
      apply assign_fixed. intros ->. apply assign_at.
Qed.

(** The paragraph of the one-paragraph document, and a title on it. *)
Lemma apply_translation_at_witness :
  apply_translation (TextEntry 1 (lit "  ") (lit "Hello world") (lit "  "))
    (lit "X")
    (mkSoup [Tag 0 (lit "p") [] [Str 1 NavigableString (lit "  Hello world  ")]] 2)
  = Ok (mkSoup [Tag 0 (lit "p") [] [Str 2 NavigableString (lit "  X  ")]] 3) ∧
  apply_translation (AttrEntry 0 (lit "title") (lit " ") (lit "Tip") (lit " "))
    (lit "Y")
    (mkSoup [Tag 0 (lit "p") [(lit "title", AStr (lit " Tip "))] []] 1)
  = Ok (mkSoup [Tag 0 (lit "p") [(lit "title", AStr (lit " Y "))] []] 1).
Proof.
  split.
  - refine (proj1 (proj1 (apply_translation_at
      (mkSoup [Tag 0 (lit "p") [] [Str 1 NavigableString (lit "  Hello world  ")]] 2)
      [mkFrame [] 0 (lit "p") [] []] [] []
      (lit "  ") (lit "Hello world") (lit "  ") (lit "X") _)
      1 NavigableString (lit "  Hello world  ") eq_refl)).
    split; apply (bool_decide_unpack _); vm_compute; exact I.
  - refine (proj1 (proj2 (apply_translation_at
      (mkSoup [Tag 0 (lit "p") [(lit "title", AStr (lit " Tip "))] []] 1)
      [] [] []
      (lit " ") (lit "Tip") (lit " ") (lit "Y") _)
      0 (lit "p") [(lit "title", AStr (lit " Tip "))] [] (lit "title") eq_refl)).
    split; apply (bool_decide_unpack _); vm_compute; exact I.
Defined.

(** ** Discovery and naming *)

Lemma insert_sorted_elem x y l : y ∈ insert_sorted x l ↔ y = x ∨ y ∈ l.
Proof.
  induction l as [|z l IH]; simpl.
  - rewrite list_elem_of_singleton, elem_of_nil. tauto.
  - destruct (str_leb x z).
    + by rewrite elem_of_cons.
    + rewrite !elem_of_cons, IH. tauto.
Qed.

Lemma sorted_elem y l : y ∈ sorted l ↔ y ∈ l.
Proof.
  unfold sorted. induction l as [|x l IH]; simpl; [done|].
  by rewrite insert_sorted_elem, IH, elem_of_cons.
Qed.

Lemma html_files_elem (fs : gmap str fsnode) name :
  name ∈ html_files fs ↔
  (∃ text, fs !! name = Some (File text)) ∧
  endswith (lit ".html") name = true ∧
  endswith (lit "-fa") (stem name) = false.
Proof.
  unfold html_files. rewrite sorted_elem, list_elem_of_filter.
  unfold selected, is_file. split.
  - intros [Hsel _].
    destruct (fs !! name) as [[text|]|];
      rewrite ?andb_false_r in Hsel; try done.
    apply andb_true_iff in Hsel as [[? ?%negb_true_iff]%andb_true_iff _].
    eauto.
  - intros ([text Hf] & H1 & H2). rewrite Hf, H1, H2. split; [done|].
    apply list_elem_of_fmap. exists (name, File text). split; [done|].
    by apply elem_of_map_to_list.
Qed.

Lemma rfind_from_last c a b i found :
  c ∉ b → rfind_from c (a ++ c :: b) i found = Some (i + length a).
Proof.
  intros Hb. revert i found. induction a as [|x a IH]; intros i found; simpl.
  - rewrite decide_True by done. rewrite Nat.add_0_r.
    clear -Hb. generalize (S i). induction b as [|y b IHb]; intros j; [done|].
    apply not_elem_of_cons in Hb as [Hy Hb]. simpl.
    rewrite decide_False by done. by apply IHb.
  - rewrite IH. f_equal. lia.
Qed.

(** The name of the localized variant of a page [x.html]. *)
Lemma fa_name_html (x : str) :
  x ≠ [] → fa_name (x ++ lit ".html") = x ++ lit "-fa.html".
Proof.
  intros Hx. unfold fa_name, stem, suffix, rfind.
  change (lit ".html") with (dot :: lit "html").
  rewrite (rfind_from_last dot x (lit "html") 0 None)
    by (apply (bool_decide_unpack _); vm_compute; exact I).
  simpl Nat.add.
  assert (0 < length x) by (destruct x; [done|simpl; lia]).
  assert ((0 <? length x) && (length x <? length (x ++ dot :: lit "html") - 1)
          = true) as ->.
  { apply andb_true_iff. split; [by apply Nat.ltb_lt|].
    apply Nat.ltb_lt. rewrite length_app. simpl. lia. }
  rewrite take_app_length, drop_app_length. reflexivity.
Qed.

(** ** What a run writes *)

Lemma second_loop_files keys d st : files (second_loop keys d st).2 = files st.
Proof.
  revert d st. induction keys as [|text keys IH]; intros d st; [done|].
  rewrite second_loop_step. pose proof (translate_files text st) as Hf.
  destruct (translate text st) as [[t|e] st1]; simpl in *; [|done].
  by rewrite IH.
Qed.

Lemma translate_texts_files entries soup st :
  files (translate_texts entries soup st).2 = files st.
Proof. rewrite translate_texts_state. apply second_loop_files. Qed.

Section MainFacts.
Variable parse : str → BeautifulSoup.
Variable prettify : BeautifulSoup → str.

(** The only write of the loop body is its last step but one. *)
Lemma process_files html_file st :
  match process parse prettify html_file st with
  | (Ok _, st') =>
      ∃ soup, files st' = <[fa_name html_file := File (prettify soup)]> (files st)
  | (Err _, st') => files st' = files st
  end.
Proof.
  unfold process, mbind, M_bind, bind, read_text, lift.
  destruct (files st !! html_file) as [[text|]|]; [|done..].
  destruct (ensure_rtl_attributes (parse text)) as [soup|]; [|done].
  destruct (collect_entries _) as [entries|]; [|done].
  pose proof (translate_texts_files entries
                (ensure_rtl_script (ensure_rtl_stylesheet soup)) st) as Hf.
  destruct (translate_texts entries _ st) as [[soup'|e] st1]; simpl in Hf; [|done].
  unfold write_text, emit, logged.
  destruct (files st1 !! fa_name html_file) as [[?|]|]; simpl; [|done|].
  - exists soup'. by rewrite Hf.
  - exists soup'. by rewrite Hf.
Qed.

End MainFacts.

(** ** C9: discovery and output naming *)



(** ** A translation that fails for good *)

Lemma translate_exhausted text st m0 m1 m2 :
  cache st !! text = None →
  attempt_result (pending st 0 text) = Err (RequestException m0) →
  attempt_result (pending st 1 text) = Err (RequestException m1) →
  attempt_result (pending st 2 text) = Err (RequestException m2) →
  (translate text st).1 = Err (RuntimeError (failure_prefix ++ m2)).
Proof.
  intros Hc H0 H1 H2. rewrite (translate_uncached _ _ Hc).
  unfold translate_remote.
  rewrite attempts_step, H0. rewrite attempts_step. simpl pending. rewrite H1.
  rewrite attempts_step. simpl pending. rewrite H2.
  by rewrite attempts_nil.
Qed.

Lemma second_loop_app pre keys d st :
  second_loop (pre ++ keys) d st =
  match second_loop pre d st with
  | (Ok d1, st1) => second_loop keys d1 st1
  | (Err e, st1) => (Err e, st1)
  end.
Proof.
  revert d st. induction pre as [|text pre IH]; intros d st; simpl app.
  - done.
  - rewrite !second_loop_step.
    destruct (translate text st) as [[t|e] st1]; [apply IH|done].
Qed.

Lemma for_each_abort {A} (f : A → M unit) done x rest st0 st e st' :
  for_each f done st0 = (Ok tt, st) →
  f x st = (Err e, st') →
  for_each f (done ++ x :: rest) st0 = (Err e, st').
Proof.
  revert st0. induction done as [|y done IH]; intros st0; simpl.
  - intros [= <-] Hx. unfold mbind, M_bind, bind. by rewrite Hx.
  - unfold mbind, M_bind, bind.
    destruct (f y st0) as [[[]|e0] st1]; [|done].
    intros Hd Hx. by apply IH.
Qed.

Section Abort.
Variable parse : str → BeautifulSoup.
Variable prettify : BeautifulSoup → str.

(** When the run reaches a content whose three attempts all end in a
    transport error, the processing of the page ends there. *)
Lemma process_exhausted html_file st page soup entries pre text post d1 st1
    m0 m1 m2 :
  files st !! html_file = Some (File page) →
  rtl_adjust (parse page) = Ok soup →
  collect_entries soup = Ok entries →
  distinct_contents entries = pre ++ text :: post →
  second_loop pre (first_loop [] entries) st = (Ok d1, st1) →
  cache st1 !! text = None →
  attempt_result (pending st1 0 text) = Err (RequestException m0) →
  attempt_result (pending st1 1 text) = Err (RequestException m1) →
  attempt_result (pending st1 2 text) = Err (RequestException m2) →
  ∃ st', process parse prettify html_file st
         = (Err (RuntimeError (failure_prefix ++ m2)), st') ∧
         files st' = files st.
Proof.
  intros Hfile Hadj Hent Hkeys Hpre Hc H0 H1 H2.
  pose proof (process_files parse prettify html_file st) as Hfiles.
  assert (Hres : (process parse prettify html_file st).1
                 = Err (RuntimeError (failure_prefix ++ m2))).
  { clear Hfiles. unfold process, mbind, M_bind, bind, read_text, lift.
    rewrite Hfile. unfold rtl_adjust in Hadj.
    destruct (ensure_rtl_attributes (parse page)) as [s1|]; [|done].
    injection Hadj as Hadj. rewrite Hadj, Hent.
    unfold translate_texts, mbind, M_bind, bind.
    fold (distinct_contents entries). rewrite Hkeys, second_loop_app, Hpre.
    rewrite second_loop_step.
    pose proof (translate_exhausted text st1 m0 m1 m2 Hc H0 H1 H2) as Ht.
    destruct (translate text st1) as [[t|e] st2]; simpl in Ht; [done|].
    by injection Ht as ->. }
  destruct (process parse prettify html_file st) as [[[]|e] st']; [done|].
  simpl in Hres. injection Hres as ->. eauto.
Qed.

End Abort.

(** ** C8: a failed translation aborts the run before the write *)

(** C8: when the run, after the pages [done], is processing [html_file]
    and reaches a content string that is not cached and whose three
    attempts all end in a transport error, [main] ends with the
    [RuntimeError] whose message carries the last of these errors, and
    the files are the ones that were there when the processing of
    [html_file] began: nothing is written for it. *)
Theorem failed_translation_aborts (parse : str → BeautifulSoup)
    (prettify : BeautifulSoup → str) (st0 st st1 : state)
    (done rest : list str) (html_file page : str) (soup : BeautifulSoup)
    (entries : list entry) (pre post : list str) (text : str)
    (d1 : list (str * str)) (m0 m1 m2 : str) :
  html_files (files st0) = done ++ html_file :: rest →
  for_each (process parse prettify) done
    (mkState ∅ (pending st0) (trace st0) (files st0)) = (Ok tt, st) →
  files st !! html_file = Some (File page) →
  rtl_adjust (parse page) = Ok soup →
  collect_entries soup = Ok entries →
  distinct_contents entries = pre ++ text :: post →
  second_loop pre (first_loop [] entries) st = (Ok d1, st1) →
  cache st1 !! text = None →
  attempt_result (pending st1 0 text) = Err (RequestException m0) →
  attempt_result (pending st1 1 text) = Err (RequestException m1) →
  attempt_result (pending st1 2 text) = Err (RequestException m2) →
  ∃ st', main parse prettify st0
         = (Err (RuntimeError (failure_prefix ++ m2)), st') ∧
         files st' = files st.
Proof.
  intros Hlist Hdone Hfile Hadj Hent Hkeys Hpre Hc H0 H1 H2.
  destruct (process_exhausted parse prettify html_file st page soup entries
              pre text post d1 st1 m0 m1 m2) as (st' & Hp & Hf); try done.
  exists st'. split; [|done].
  unfold main, mbind, M_bind, bind, new_translator, listing. simpl.
  rewrite Hlist. by eapply for_each_abort.
Qed.

(** One page with one paragraph, and a service that always times out. *)
Lemma failed_translation_aborts_witness :
  ∃ st', main (λ _, one_paragraph) (λ _, [])
           (mkState ∅ always_times_out [] sample_dir)
         = (Err (RuntimeError (failure_prefix ++ lit "timeout")), st') ∧
         files st' = sample_dir.
Proof.
  apply (failed_translation_aborts (λ _, one_paragraph) (λ _, [])
           (mkState ∅ always_times_out [] sample_dir)
           (mkState ∅ always_times_out [] sample_dir)
           (mkState ∅ always_times_out [] sample_dir)
           [] [] (lit "index.html") (lit "<p>Hello</p>") one_paragraph
           [TextEntry 1 [] (lit "Hello") []] [] [] (lit "Hello")
           [(lit "Hello", [])]
           (lit "timeout") (lit "timeout") (lit "timeout"));
    vm_compute; reflexivity.
Defined.

(* ================================================================ *)
(** * Further properties of the code *)

(** ** split_text: what the three parts are made of *)

Lemma dropwhile_dropped {A} (p : A → bool) (l : list A) :
  Forall (λ x, p x = true) (take (length l - length (dropwhile p l)) l).
Proof.
  induction l as [|x l IH]; simpl; [constructor|].
  destruct (p x) eqn:E.
  - pose proof (dropwhile_length p l).
    replace (S (length l) - length (dropwhile p l))
      with (S (length l - length (dropwhile p l))) by lia.
    simpl. by constructor.
  - simpl. replace (length l - length l) with 0 by lia. constructor.
Qed.

Lemma rstrip_dropped (s : str) :
  Forall (λ c, isspace c = true) (drop (length (rstrip s)) s).
Proof.
  unfold rstrip. rewrite length_reverse.
  pose proof (dropwhile_dropped isspace (reverse s)) as H.
  pose proof (dropwhile_split isspace (reverse s)) as Hs.
  pose proof (dropwhile_length isspace (reverse s)) as Hl.
  rewrite length_reverse in *.
  set (d := dropwhile isspace (reverse s)) in *.
  assert (s = reverse d ++ reverse (take (length s - length d) (reverse s))) as Hrev.
  { rewrite <- reverse_app, Hs. by rewrite reverse_involutive. }
  rewrite Hrev at 1.
  rewrite drop_app_length' by by rewrite length_reverse.
  by apply Forall_reverse.
Qed.

Lemma strip_head (s : str) c : head (strip s) = Some c → isspace c = false.
Proof.
  unfold strip. destruct (lstrip s) as [|x l] eqn:E; [done|].
  pose proof (dropwhile_head isspace s x l E) as Hx.
  destruct (rstrip_cons_nonspace x l Hx) as [s' ->]. by intros [= <-].
Qed.

Lemma rstrip_last (s : str) c : last (rstrip s) = Some c → isspace c = false.
Proof.
  unfold rstrip. rewrite last_reverse.
  destruct (dropwhile isspace (reverse s)) as [|x l] eqn:E; [done|].
  intros [= <-]. by eapply dropwhile_head.
Qed.

(** X1: the leading and the trailing part hold nothing but whitespace,
    and the core neither starts nor ends with a whitespace character:
    the core is cut exactly at the first and the last visible character. *)
Theorem split_text_parts (s : str) :
  let '(leading, core, trailing) := split_text s in
  Forall (λ c, isspace c = true) leading ∧
  Forall (λ c, isspace c = true) trailing ∧
  (∀ c, head core = Some c → isspace c = false) ∧
  (∀ c, last core = Some c → isspace c = false).
Proof.
  unfold split_text. destruct (negb (nonempty (strip s))); [by repeat split|].
  split; [apply dropwhile_dropped|].
  split.
  - pose proof (rstrip_prefix s) as [t Ht].
    assert (length s = length (rstrip s) + length t) as Hlen
      by (rewrite Ht at 1; by rewrite length_app).
    destruct (_ =? 0) eqn:E; [constructor|].
    replace (length s - (length s - length (rstrip s))) with (length (rstrip s)) by lia.
    apply rstrip_dropped.
  - split; [apply strip_head|apply rstrip_last].
Qed.

Lemma lstrip_fixed (u : str) :
  (∀ c, head u = Some c → isspace c = false) → lstrip u = u.
Proof.
  destruct u as [|x u]; [done|]. intros H. unfold lstrip. simpl.
  by rewrite (H x eq_refl).
Qed.

Lemma rstrip_fixed (u : str) :
  (∀ c, last u = Some c → isspace c = false) → rstrip u = u.
Proof.
  intros H. unfold rstrip.
  destruct (reverse u) as [|x r] eqn:E.
  - simpl. apply (f_equal reverse) in E. by rewrite reverse_involutive in E.
  - assert (last u = Some x) as Hl.
    { rewrite <- (reverse_involutive u), E, last_reverse. done. }
    simpl. rewrite (H x Hl). rewrite <- E. apply reverse_involutive.
Qed.

Lemma strip_strip (s : str) : strip (strip s) = strip s.
Proof.
  unfold strip at 1.
  rewrite (lstrip_fixed (strip s)) by apply strip_head.
  apply rstrip_fixed. unfold strip. apply rstrip_last.
Qed.

(** X2: splitting is idempotent on the core: the core of any text splits
    into itself with nothing before and nothing after it. *)
Theorem split_text_core_fixed (s : str) :
  let '(leading, core, trailing) := split_text s in
  split_text core = ([], core, []).
Proof.
  assert (∀ u, strip u = u → split_text u = ([], u, [])) as Hfix.
  { intros u Hu. unfold split_text. rewrite Hu.
    destruct u as [|x u]; [done|]. simpl negb. cbv iota.
    assert (lstrip (x :: u) = x :: u) as Hl.
    { apply lstrip_fixed. intros c. rewrite <- Hu. apply strip_head. }
    assert (rstrip (x :: u) = x :: u) as Hr.
    { apply rstrip_fixed. intros c. rewrite <- Hu at 1. apply rstrip_last. }
    rewrite Hl, Hr. replace (length (x :: u) - length (x :: u)) with 0 by lia.
    done. }
  unfold split_text. destruct (negb (nonempty (strip s))); [done|].
  apply Hfix, strip_strip.
Qed.

(** ** The translation client *)

Lemma first_items_segments (segments : list (option str * list json)) :
  ∃ xs, first_items ((λ seg, JList (segment_head seg.1 :: seg.2)) <$> segments)
        = Ok xs ∧
        join_items xs = Ok (concat (omap fst segments)).
Proof.
  induction segments as [|[[s|] more] segments (xs & Hxs & Hj)].
  - by exists [].
  - change (first_items _) with
      (match first_items
               ((λ seg, JList (segment_head seg.1 :: seg.2)) <$> segments) with
       | Err e => Err e
       | Ok xs => if truthy (JStr s) then Ok (JStr s :: xs) else Ok xs
       end).
    rewrite Hxs. destruct s as [|c s].
    + exists xs. by split.
    + exists (JStr (c :: s) :: xs). split; [done|]. simpl. by rewrite Hj.
  - change (first_items _) with
      (match first_items
               ((λ seg, JList (segment_head seg.1 :: seg.2)) <$> segments) with
       | Err e => Err e
       | Ok xs => if truthy JNull then Ok (JNull :: xs) else Ok xs
       end).
    rewrite Hxs. exists xs. by split.
Qed.

(** X3: a body whose first element is a list of segments, each a list that
    starts with a string or with null, gives the strings joined in order;
    what follows the first element of a segment and of the body is not
    looked at, and a null or empty head adds nothing. *)
Theorem translation_of_segments (segments : list (option str * list json))
    (rest : list json) :
  translation_of
    (JList (JList ((λ seg, JList (segment_head seg.1 :: seg.2)) <$> segments)
            :: rest))
  = Ok (concat (omap fst segments)).
Proof.
  unfold translation_of. simpl item0. cbv iota. simpl iterate. cbv iota.
  destruct (first_items_segments segments) as (xs & -> & Hj). done.
Qed.

(** X4: the client memoises: once a call for a text has returned, a
    second call for it returns the same translation and leaves the state
    as it is, so it sends no request and does not sleep. *)
Theorem translate_memoised (text t : str) (st st' : state) :
  translate text st = (Ok t, st') → translate text st' = (Ok t, st').
Proof.
  destruct (cache st !! text) as [t0|] eqn:E.
  - rewrite (translate_cached _ _ _ E). intros [= <- <-].
    by apply translate_cached.
  - rewrite (translate_uncached _ _ E).
    destruct (translate_remote text st) as [[t1|e] st1]; [|done].
    intros [= <- <-]. apply translate_cached. simpl. apply lookup_insert_eq.
Qed.

Lemma translate_memoised_witness :
  translate (lit "Hello") (translate (lit "Hello") translates_to_X).2
  = (Ok (lit "X"), (translate (lit "Hello") translates_to_X).2).
Proof. apply (translate_memoised (lit "Hello") (lit "X") translates_to_X). reflexivity. Defined.

Lemma transport_failures_S text st n :
  transport_failures text st (S n) →
  (∃ msg, attempt_result (pending st 0 text) = Err (RequestException msg)) ∧
  ∀ seconds,
    transport_failures text (logged (Sleep seconds) (requested text st)) n.
Proof.
  intros H. split; [apply H; lia|].
  intros seconds k Hk. apply (H (S k)). lia.
Qed.

(** The attempts that end in a transport error: each leaves a request
    and a sleep, and uses up one reply. *)
Lemma attempts_transport_failures text n a rest last st :
  transport_failures text st n →
  ∃ last' st',
    attempts text (seq a n ++ rest) last st = attempts text rest last' st' ∧
    trace st' = trace st
                ++ flat_map (λ attempt,
                     [Get text; Sleep (inject_Z (1 + Z.of_nat attempt))])
                     (seq a n) ∧
    (∀ k q, pending st' k q = pending st (n + k) q) ∧
    cache st' = cache st ∧ files st' = files st.
Proof.
  revert a last st. induction n as [|n IH]; intros a last st Hf.
  - exists last, st. simpl. rewrite app_nil_r. by repeat split.
  - destruct (transport_failures_S _ _ _ Hf) as [[msg Hmsg] Hrest].
    simpl seq. rewrite <- app_comm_cons, attempts_step, Hmsg.
    destruct (IH (S a) (Some (RequestException msg)) _
                 (Hrest (inject_Z (1 + Z.of_nat a))))
      as (last' & st' & -> & Htr & Hp & Hc & Hfs).
    exists last', st'. split; [done|]. split; [|split; [|split]].
    + rewrite Htr. simpl. by rewrite <- !app_assoc.
    + intros k q. by rewrite Hp.
    + by rewrite Hc.
    + by rewrite Hfs.
Qed.

(** X5: what a call for a text that is not cached leaves in the trace.
    After [n] transport errors and a reply that parses, it has sent
    [n + 1] requests, slept 1, 2, ... seconds after the failed ones and
    [SLEEP_SECONDS] after the good one.  After three transport errors it
    has sent three requests and slept 1, 2 and 3 seconds: the last sleep
    comes before the terminal error is raised. *)
Theorem translate_trace (text : str) (st : state) :
  cache st !! text = None →
  (∀ n t, n < 3 → transport_failures text st n →
     attempt_result (pending st n text) = Ok t →
     (translate text st).1 = Ok t ∧
     trace (translate text st).2
     = trace st ++ backoff text n ++ [Get text; Sleep SLEEP_SECONDS]) ∧
  (transport_failures text st 3 →
     is_ok (translate text st).1 = false ∧
     trace (translate text st).2 = trace st ++ backoff text 3).
Proof.
  intros Hc. rewrite (translate_uncached _ _ Hc). unfold translate_remote.
  split.
  - intros n t Hn Hf Ht.
    destruct (attempts_transport_failures text n 0
                (n :: seq (S n) (2 - n)) None st Hf)
      as (last' & st' & Heq & Htr & Hp & _).
    replace [0; 1; 2] with (seq 0 n ++ n :: seq (S n) (2 - n))
      by (by destruct n as [|[|[|]]]; [..|lia]).
    rewrite Heq, attempts_step.
    rewrite Hp, Nat.add_0_r, Ht. simpl. rewrite Htr.
    split; [done|]. unfold backoff. by rewrite <- !app_assoc.
  - intros Hf.
    destruct (attempts_transport_failures text 3 0 [] None st Hf)
      as (last' & st' & Heq & Htr & _).
    change [0; 1; 2] with (seq 0 3 ++ []).
    rewrite Heq, attempts_nil. simpl. by rewrite Htr.
Qed.

Lemma translate_trace_witness :
  (translate (lit "Hello") times_out_once).1 = Ok (lit "X") ∧
  trace (translate (lit "Hello") times_out_once).2
  = [Get (lit "Hello"); Sleep 1; Get (lit "Hello"); Sleep SLEEP_SECONDS].
Proof.
  apply (proj1 (translate_trace (lit "Hello") times_out_once eq_refl) 1 (lit "X")).
  - lia.
  - intros k Hk. exists (lit "timeout"). by destruct k; [|lia].
  - reflexivity.
Defined.

(** The second loop only adds to the cache, and the dict it returns holds
    for each key what the cache holds for it. *)
Lemma second_loop_cache keys d st :
  cache st ⊆ cache (second_loop keys d st).2 ∧
  ∀ d', (second_loop keys d st).1 = Ok d' →
    (∀ q, q ∈ keys →
       ∃ t, dict_get q d' = Some t ∧
            cache (second_loop keys d st).2 !! q = Some t) ∧
    (∀ q, q ∉ keys → dict_get q d' = dict_get q d).
Proof.
  revert d st. induction keys as [|text keys IH]; intros d st.
  - simpl. split; [done|]. intros d' [= <-]. split; [|done].
    intros q Hq. by apply elem_of_nil in Hq.
  - rewrite second_loop_step.
    destruct (translate_requests text st) as (m & _ & _ & _ & Hsub & Hstored).
    destruct (translate text st) as [[t|e] st1] eqn:Et; simpl in Hsub, Hstored.
    + destruct (IH (dict_set text t d) st1) as [Hsub' Hd].
      split; [by etrans|].
      intros d' Hd'. destruct (Hd d' Hd') as [Hin Hout]. split.
      * intros q Hq. destruct (decide (q ∈ keys)) as [?|Hnot]; [by apply Hin|].
        apply elem_of_cons in Hq as [->|?]; [|done].
        exists t. split.
        -- rewrite (Hout _ Hnot). apply dict_get_set_eq.
        -- eapply lookup_weaken; [|exact Hsub']. by apply Hstored.
      * intros q Hq. apply not_elem_of_cons in Hq as [Hne Hq].
        rewrite (Hout _ Hq). by apply dict_get_set_ne.
    + simpl. split; [done|]. done.
Qed.

(** X6: a run of [translate_texts] never drops or changes an entry of the
    cache, and when it returns, the cache holds a translation for the
    content of every entry. *)
Theorem translate_texts_cache (entries : list entry) (soup : BeautifulSoup)
    (st : state) :
  cache st ⊆ cache (translate_texts entries soup st).2 ∧
  ∀ soup', (translate_texts entries soup st).1 = Ok soup' →
    ∀ e, e ∈ entries →
      is_Some (cache (translate_texts entries soup st).2 !! content_of e).
Proof.
  rewrite translate_texts_state.
  destruct (second_loop_cache (distinct_contents entries)
              (first_loop [] entries) st) as [Hsub Hd].
  split; [done|].
  intros soup' Hok e He.
  unfold translate_texts in Hok. fold (distinct_contents entries) in Hok.
  change (mbind ?f ?m) with (bind m f) in Hok. unfold bind in Hok.
  destruct (second_loop (distinct_contents entries) (first_loop [] entries) st)
    as [[d'|err] st1] eqn:E; [|done].
  destruct (Hd d' eq_refl) as [Hin _].
  destruct (Hin (content_of e)) as (t & _ & Ht).
  - apply distinct_contents_elem. by apply list_elem_of_fmap_2.
  - by exists t.
Qed.

Lemma translate_texts_cache_witness :
  is_Some (cache (translate_texts [TextEntry 1 [] (lit "Hello") []]
                    one_paragraph translates_to_X).2 !! lit "Hello").
Proof.
  apply (proj2 (translate_texts_cache [TextEntry 1 [] (lit "Hello") []]
                  one_paragraph translates_to_X)
           (mkSoup [Tag 0 (lit "p") [] [Str 2 NavigableString (lit "X")]] 3)
           eq_refl (TextEntry 1 [] (lit "Hello") [])).
  left.
Defined.

(** ** Discovery: the order of the pages, and what is never a page *)

Lemma str_leb_total a b : str_leb a b = false → str_leb b a = true.
Proof.
  revert b. induction a as [|x a IH]; intros [|y b]; simpl; try done.
  destruct (N.ltb_spec x y), (N.ltb_spec y x); try done; try lia.
  apply IH.
Qed.

Lemma str_leb_trans a b c :
  str_leb a b = true → str_leb b c = true → str_leb a c = true.
Proof.
  revert b c. induction a as [|x a IH]; intros [|y b] [|z c]; simpl; try done.
  destruct (N.ltb_spec x y), (N.ltb_spec y x), (N.ltb_spec y z),
    (N.ltb_spec z y), (N.ltb_spec x z), (N.ltb_spec z x);
    try done; try lia.
  apply IH.
Qed.

Lemma insert_sorted_increasing x l :
  increasing l → increasing (insert_sorted x l).
Proof.
  induction l as [|y l IH]; simpl; [by split|].
  intros [Hy Hl]. destruct (str_leb x y) eqn:E; simpl.
  - split; [|by split]. constructor; [done|].
    eapply Forall_impl; [exact Hy|]. intros z Hz. by eapply str_leb_trans.
  - split; [|by apply IH].
    apply Forall_forall. intros z Hz.
    apply insert_sorted_elem in Hz as [->|Hz]; [by apply str_leb_total|].
    by eapply Forall_forall in Hy.
Qed.

Lemma sorted_increasing l : increasing (sorted l).
Proof. induction l; simpl; [done|]. by apply insert_sorted_increasing. Qed.

Lemma insert_sorted_Permutation x l : insert_sorted x l ≡ₚ x :: l.
Proof.
  induction l as [|y l IH]; simpl; [done|].
  destruct (str_leb x y); [done|]. rewrite IH. apply Permutation_swap.
Qed.

Lemma sorted_Permutation l : sorted l ≡ₚ l.
Proof.
  induction l as [|x l IH]; simpl; [done|].
  by rewrite insert_sorted_Permutation, IH.
Qed.

(** X7: the pages come in increasing order of their names, by code
    points, and no page comes twice: the order in which [main] works
    through them does not depend on the order of the directory. *)
Theorem html_files_increasing (fs : gmap str fsnode) :
  increasing (html_files fs) ∧ NoDup (html_files fs).
Proof.
  split; [apply sorted_increasing|].
  unfold html_files. rewrite sorted_Permutation.
  apply NoDup_filter, NoDup_fst_map_to_list.
Qed.

Lemma endswith_app suf s : endswith suf s = true → ∃ x, s = x ++ suf.
Proof.
  unfold endswith. intros H%bool_decide_eq_true.
  exists (take (length s - length suf) s).
  rewrite <- H at 2. by rewrite take_drop.
Qed.

Lemma stem_html (y : str) : y ≠ [] → stem (y ++ lit ".html") = y.
Proof.
  intros Hy. unfold stem, rfind.
  change (lit ".html") with (dot :: lit "html").
  rewrite (rfind_from_last dot y (lit "html") 0 None)
    by (apply (bool_decide_unpack _); vm_compute; exact I).
  simpl Nat.add.
  assert (0 < length y) by (destruct y; [done|simpl; lia]).
  assert ((0 <? length y) && (length y <? length (y ++ dot :: lit "html") - 1)
          = true) as ->.
  { apply andb_true_iff. split; [by apply Nat.ltb_lt|].
    apply Nat.ltb_lt. rewrite length_app. simpl. lia. }
  apply take_app_length.
Qed.

Lemma stem_fa_name (name : str) :
  endswith (lit ".html") name = true →
  endswith (lit ".html") (fa_name name) = true →
  endswith (lit "-fa") (stem (fa_name name)) = true.
Proof.
  intros [x ->]%endswith_app. destruct x as [|c x]; [done|]. intros _.
  rewrite fa_name_html by done.
  change (lit "-fa.html") with (lit "-fa" ++ lit ".html").
  rewrite app_assoc, stem_html by done.
  unfold endswith. apply bool_decide_eq_true.
  rewrite length_app, Nat.add_sub. apply drop_app_length.
Qed.

Lemma fa_name_not_page (fs' : gmap str fsnode) (name : str) :
  endswith (lit ".html") name = true → fa_name name ∉ html_files fs'.
Proof.
  intros Hhtml (_ & Hhtml' & Hfa')%html_files_elem.
  rewrite (stem_fa_name name Hhtml Hhtml') in Hfa'. done.
Qed.

(** X8: the localized variant of a page is never a page itself, whatever
    the directory holds, and it is not the page: a later run does not
    translate what an earlier run wrote, and no page is overwritten. *)
Theorem localized_variant_not_selected (fs fs' : gmap str fsnode) (name : str) :
  name ∈ html_files fs →
  (fa_name name ∉ html_files fs') ∧ fa_name name ≠ name.
Proof.
  intros (_ & Hhtml & Hfa)%html_files_elem. split.
  - by apply fa_name_not_page.
  - intros Heq. pose proof Hhtml as Hhtml'. rewrite <- Heq in Hhtml'.
    pose proof (stem_fa_name name Hhtml Hhtml') as H.
    rewrite Heq in H. congruence.
Qed.

Lemma localized_variant_not_selected_witness :
  (fa_name (lit "index.html") ∉ html_files sample_dir) ∧
  fa_name (lit "index.html") ≠ lit "index.html".
Proof.
  apply (localized_variant_not_selected sample_dir sample_dir (lit "index.html")).
  apply (bool_decide_unpack _). vm_compute. exact I.
Defined.

Section Writes.
Variable parse : str → BeautifulSoup.
Variable prettify : BeautifulSoup → str.

Lemma for_each_process_files l st name :
  files (for_each (process parse prettify) l st).2 !! name ≠ files st !! name →
  ∃ page, page ∈ l ∧ name = fa_name page.
Proof.
  revert st. induction l as [|page l IH]; intros st; simpl; [done|].
  unfold mbind, M_bind, bind.
  pose proof (process_files parse prettify page st) as Hp.
  destruct (process parse prettify page st) as [[[]|e] st1].
  - destruct Hp as [soup Hw]. intros Hne.
    destruct (decide (name = fa_name page)) as [->|Hn].
    + exists page. split; [left|done].
    + destruct (IH st1) as (p & Hin & ->).
      * intros Heq. apply Hne. simpl. rewrite Heq, Hw.
        by apply lookup_insert_ne.
      * exists p. split; [by right|done].
  - simpl. by rewrite Hp.
Qed.

End Writes.

(** X9: a run of [main], whether it ends well or in an exception, changes
    nothing in the directory but the localized variants of its pages: no
    page is changed or removed, and every file it writes is named after a
    page. *)
Theorem main_writes_variants_only (parse : str → BeautifulSoup)
    (prettify : BeautifulSoup → str) (st : state) (name : str) :
  files (main parse prettify st).2 !! name ≠ files st !! name →
  (∃ page, page ∈ html_files (files st) ∧ name = fa_name page) ∧
  name ∉ html_files (files st).
Proof.
  unfold main, new_translator, listing, mbind, M_bind, bind. simpl.
  intros Hne.
  destruct (for_each_process_files parse prettify _ _ _ Hne) as (page & Hin & ->).
  split; [by exists page|].
  apply html_files_elem in Hin as (_ & Hhtml & _). by apply fa_name_not_page.
Qed.

Lemma main_writes_variants_only_witness :
  (∃ page, page ∈ html_files sample_dir ∧ lit "index-fa.html" = fa_name page) ∧
  lit "index-fa.html" ∉ html_files sample_dir.
Proof.
  apply (main_writes_variants_only (λ _, one_paragraph) (λ _, lit "<p>Y</p>")
           (mkState ∅ (λ _ _, Body (JList [JList [JList [JStr (lit "Y")]]])) []
                    sample_dir)
           (lit "index-fa.html")).
  vm_compute. discriminate.
Defined.

(** ** The extractor: nothing visible is left out *)

Lemma collect_elem_2 {A B} (f : A → result (list B)) (l : list A) ys x zs z :
  collect f l = Ok ys → x ∈ l → f x = Ok zs → z ∈ zs → z ∈ ys.
Proof.
  revert ys. induction l as [|x0 l IH]; intros ys; simpl.
  - intros _ Hx. by apply elem_of_nil in Hx.
  - destruct (f x0) as [ys0|] eqn:E0; [|done].
    destruct (collect f l) as [ys1|]; [|done].
    intros [= <-] Hx Hfx Hz. apply elem_of_app.
    apply elem_of_cons in Hx as [->|Hx].
    + left. rewrite E0 in Hfx. by simplify_eq.
    + right. by eapply IH.
Qed.

Lemma collect_ok_elem {A B} (f : A → result (list B)) (l : list A) ys x :
  collect f l = Ok ys → x ∈ l → ∃ zs, f x = Ok zs.
Proof.
  revert ys. induction l as [|x0 l IH]; intros ys; simpl.
  - intros _ Hx. by apply elem_of_nil in Hx.
  - destruct (f x0) as [ys0|] eqn:E0; [|done].
    destruct (collect f l) as [ys1|]; [|done].
    intros _ [->|Hx]%elem_of_cons; [by exists ys0|]. by eapply IH.
Qed.

(** X10: the extractor is complete.  Every string node that is neither a
    comment nor a doctype, whose parent is neither [script] nor [style]
    and whose text is not blank has a text entry, and every attribute of
    [ATTRS_TO_TRANSLATE] with a value that is not blank has an attribute
    entry; the entry holds the stripped value and the whitespace around
    it. *)
Theorem collect_entries_complete (soup : BeautifulSoup) (es : list entry) :
  collect_entries soup = Ok es →
  (∀ parent i k text,
     (parent, (i, k, text)) ∈ all_strings soup →
     k ≠ Comment → k ≠ Doctype → parent ∉ EXCLUDED_TEXT_PARENTS →
     strip text ≠ [] →
     ∃ leading trailing,
       TextEntry i leading (strip text) trailing ∈ es ∧
       leading ++ strip text ++ trailing = text) ∧
  (∀ element attr value,
     element ∈ descendants (contents soup) →
     attr ∈ ATTRS_TO_TRANSLATE →
     dict_get attr (attrs_of element) = Some (AStr value) →
     strip value ≠ [] →
     ∃ leading trailing,
       AttrEntry (id_of element) attr leading (strip value) trailing ∈ es ∧
       leading ++ strip value ++ trailing = value).
Proof.
  unfold collect_entries.
  destruct (collect _ ATTRS_TO_TRANSLATE) as [attrs|] eqn:Ea; [|done].
  intros [= <-]. split.
  - intros parent i k text Hin Hc Hd Hp Hs.
    pose proof (split_text_core text) as Hcore.
    pose proof (split_text_concat text Hs) as Hcat.
    destruct (split_text text) as [[leading core] trailing] eqn:E.
    simpl in Hcore. subst core.
    exists leading, trailing. split; [|done].
    apply elem_of_app. left. apply elem_of_flat_map.
    exists (parent, (i, k, text)). split; [done|].
    unfold text_entry. rewrite bool_decide_eq_false_2 by (by intros [?|?]).
    rewrite bool_decide_eq_false_2 by done. rewrite E.
    apply nonempty_true in Hs. rewrite Hs. simpl. by left.
  - intros element attr value Hin Hattr Hget Hs.
    pose proof (split_text_core value) as Hcore.
    pose proof (split_text_concat value Hs) as Hcat.
    destruct (split_text value) as [[leading core] trailing] eqn:E.
    simpl in Hcore. subst core.
    exists leading, trailing. split; [|done].
    apply elem_of_app. right.
    assert (value ≠ []) as Hv by (by intros ->).
    assert (attr_entry attr element
            = Ok [AttrEntry (id_of element) attr leading (strip value) trailing])
      as Hentry.
    { unfold attr_entry. rewrite Hget, E.
      apply nonempty_true in Hv, Hs. by rewrite Hv, Hs. }
    destruct (collect_ok_elem _ _ _ attr Ea Hattr) as [zs Hzs].
    eapply (collect_elem_2 _ _ _ attr zs); [exact Ea|done|exact Hzs|].
    eapply (collect_elem_2 _ _ _ element); [exact Hzs| |exact Hentry|by left].
    apply list_elem_of_filter. split; [|done].
    destruct element as [|j nm a cs]; [done|]. simpl in *.
    apply bool_decide_eq_true. by rewrite Hget.
Qed.

Lemma collect_entries_complete_witness :
  (∃ leading trailing,
     TextEntry 8 leading (strip (lit "  Hello world  ")) trailing
       ∈ [TextEntry 8 (lit "  ") (lit "Hello world") (lit "  ");
          TextEntry 11 [] (lit "Hello world") [];
          AttrEntry 7 (lit "title") (lit " ") (lit "Tip") (lit " ")] ∧
     leading ++ strip (lit "  Hello world  ") ++ trailing
     = lit "  Hello world  ").
Proof.
  apply (proj1 (collect_entries_complete sample_page _ eq_refl)
           (lit "p") 8 NavigableString (lit "  Hello world  "));
    try done; apply (bool_decide_unpack _); vm_compute; exact I.
Defined.

(** ** The adjuster and the text of the page *)

Lemma flat_map_cons' {A B} (f : A → list B) (x : A) (l : list A) :
  flat_map f (x :: l) = f x ++ flat_map f l.
Proof. done. Qed.

Lemma strings_under_Tag parent j nm a cs :
  strings_under parent (Tag j nm a cs) = flat_map (strings_under nm) cs.
Proof. done. Qed.

Lemma map_attrs_strings_under f parent n :
  strings_under parent (map_attrs_node f n) = strings_under parent n.
Proof.
  revert parent. induction n as [i k s|i nm a cs IH] using node_ind';
    intros parent; [done|].
  rewrite map_attrs_Tag, !strings_under_Tag.
  induction IH as [|c cs Hc _ IHcs]; [done|].
  by rewrite fmap_cons, !flat_map_cons', Hc, IHcs.
Qed.

Lemma map_attrs_strings f parent (forest : list node) :
  flat_map (strings_under parent) (map_attrs_node f <$> forest)
  = flat_map (strings_under parent) forest.
Proof.
  induction forest as [|c forest IH]; [done|].
  by rewrite fmap_cons, !flat_map_cons', map_attrs_strings_under, IH.
Qed.

Lemma insert_after_strings_of i new parent (cs : list node) :
  (∀ p, strings_under p new = []) →
  Forall (λ n, ∀ p, strings_under p (insert_after_node i new n)
                    = strings_under p n) cs →
  flat_map (strings_under parent) (insert_after i new cs)
  = flat_map (strings_under parent) cs.
Proof.
  intros Hnew IH. induction IH as [|c cs Hc _ IHcs]; [done|].
  rewrite insert_after_cons, flat_map_app', flat_map_cons', IHcs.
  destruct (decide (id_of c = i));
    rewrite ?flat_map_cons', Hc, ?Hnew; simpl; by rewrite ?app_nil_r.
Qed.

Lemma insert_after_strings_under i new parent n :
  (∀ p, strings_under p new = []) →
  strings_under parent (insert_after_node i new n) = strings_under parent n.
Proof.
  intros Hnew. revert parent.
  induction n as [j k s|j nm a cs IH] using node_ind'; intros parent; [done|].
  rewrite insert_after_Tag, !strings_under_Tag.
  by apply insert_after_strings_of.
Qed.

Lemma insert_after_strings i new parent (forest : list node) :
  (∀ p, strings_under p new = []) →
  flat_map (strings_under parent) (insert_after i new forest)
  = flat_map (strings_under parent) forest.
Proof.
  intros Hnew. apply insert_after_strings_of; [done|].
  apply Forall_forall. intros n _ p. by apply insert_after_strings_under.
Qed.

Lemma append_strings_of i new parent (cs : list node) :
  Forall (λ n, ∀ p, strings_under p (append_node i new n)
                    = strings_under p n) cs →
  flat_map (strings_under parent) (append i new cs)
  = flat_map (strings_under parent) cs.
Proof.
  intros IH. unfold append. induction IH as [|c cs Hc _ IHcs]; [done|].
  by rewrite fmap_cons, !flat_map_cons', Hc, IHcs.
Qed.

Lemma append_strings_under i new parent n :
  (∀ p, strings_under p new = []) →
  strings_under parent (append_node i new n) = strings_under parent n.
Proof.
  intros Hnew. revert parent.
  induction n as [j k s|j nm a cs IH] using node_ind'; intros parent; [done|].
  rewrite append_Tag, !strings_under_Tag, flat_map_app'.
  rewrite (append_strings_of _ _ _ _ IH).
  destruct (decide (j = i)); simpl; by rewrite ?Hnew, app_nil_r.
Qed.

Lemma append_strings i new parent (forest : list node) :
  (∀ p, strings_under p new = []) →
  flat_map (strings_under parent) (append i new forest)
  = flat_map (strings_under parent) forest.
Proof.
  intros Hnew. apply append_strings_of.
  apply Forall_forall. intros n _ p. by apply append_strings_under.
Qed.

Lemma fresh_strings nm soup soup' :
  fresh_insertion nm soup soup' → all_strings soup' = all_strings soup.
Proof.
  intros [|i a|i a]; [done|..]; unfold all_strings; simpl.
  - by apply insert_after_strings.
  - by apply append_strings.
Qed.

Lemma ensure_rtl_attributes_strings soup soup' :
  ensure_rtl_attributes soup = Ok soup' → all_strings soup' = all_strings soup.
Proof.
  unfold ensure_rtl_attributes. rewrite ensure_rtl_body_change.
  assert (all_strings (ensure_rtl_html soup) = all_strings soup) as Hh.
  { rewrite ensure_rtl_html_change.
    destruct (find _ (contents soup)); [|done].
    unfold all_strings. simpl. apply map_attrs_strings. }
  destruct (find _ (contents (ensure_rtl_html soup))) as [body|].
  - destruct (body_change _ _) as [f|]; [|done].
    intros [= <-]. rewrite <- Hh. unfold all_strings. simpl.
    apply map_attrs_strings.
  - by intros [= <-].
Qed.

(** X11: the adjustment leaves the text of the page alone: after it the
    document has the same string nodes, in the same order and under
    parents of the same names, so the extractor finds the text it would
    have found before. *)
Theorem rtl_adjust_keeps_strings (soup soup' : BeautifulSoup) :
  rtl_adjust soup = Ok soup' →
  all_strings soup' = all_strings soup ∧
  flat_map text_entry (all_strings soup')
  = flat_map text_entry (all_strings soup).
Proof.
  unfold rtl_adjust.
  destruct (ensure_rtl_attributes soup) as [soup1|] eqn:E; [|done].
  intros [= <-].
  assert (all_strings (ensure_rtl_script (ensure_rtl_stylesheet soup1))
          = all_strings soup) as H.
  { rewrite (fresh_strings _ _ _ (ensure_rtl_script_fresh _)).
    rewrite (fresh_strings _ _ _ (ensure_rtl_stylesheet_fresh _)).
    by apply ensure_rtl_attributes_strings. }
  by rewrite H.
Qed.

Lemma rtl_adjust_keeps_strings_witness :
  all_strings adjusted_sample_page = all_strings sample_page ∧
  flat_map text_entry (all_strings adjusted_sample_page)
  = flat_map text_entry (all_strings sample_page).
Proof. apply (rtl_adjust_keeps_strings sample_page adjusted_sample_page). reflexivity. Defined.

(** ** Where the adjuster puts the new link and the new script *)

Lemma insert_after_app i new cs1 cs2 :
  insert_after i new (cs1 ++ cs2)
  = insert_after i new cs1 ++ insert_after i new cs2.
Proof. apply flat_map_app'. Qed.

Lemma insert_after_Tag_ne i new j nm a cs :
  j ≠ i → insert_after i new [Tag j nm a cs] = [Tag j nm a (insert_after i new cs)].
Proof.
  intros Hne. rewrite insert_after_cons. simpl id_of.
  by rewrite decide_False, insert_after_Tag by done.
Qed.

Lemma not_elem_of_ids_cons i c cs :
  i ∉ ids (c :: cs) →
  id_of c ≠ i ∧ (i ∉ ids (contents_of c)) ∧ (i ∉ ids cs).
Proof.
  change (c :: cs) with ([c] ++ cs). rewrite ids_app.
  intros [Hc Hcs]%not_elem_of_app. split; [|split; [|done]].
  - intros <-. apply Hc, id_of_self.
  - intros Hin. apply Hc. destruct c as [|j nm a cs']; [by apply elem_of_nil in Hin|].
    rewrite ids_cons_Tag, app_nil_r. by right.
Qed.

Lemma insert_after_absent i new cs : i ∉ ids cs → insert_after i new cs = cs.
Proof.
  assert (Hnode : ∀ n, i ∉ ids (contents_of n) → insert_after_node i new n = n).
  { induction n as [j k s|j nm a cs' IH] using node_ind'; [done|].
    simpl contents_of. intros Hcs. rewrite insert_after_Tag. f_equal.
    induction IH as [|c cs' Hc _ IHcs]; [done|].
    apply not_elem_of_ids_cons in Hcs as (Hid & Hc1 & Hc2).
    rewrite insert_after_cons, decide_False by done.
    rewrite Hc by done. simpl. f_equal. by apply IHcs. }
  induction cs as [|c cs IH]; [done|].
  intros (Hid & Hc1 & Hc2)%not_elem_of_ids_cons.
  rewrite insert_after_cons, decide_False by done.
  rewrite Hnode by done. simpl. f_equal. by apply IH.
Qed.

Lemma NoDup_ids_self n : NoDup (ids [n]) → id_of n ∉ ids (contents_of n).
Proof.
  destruct n as [|j nm a cs]; [intros _ H; by apply elem_of_nil in H|].
  rewrite ids_cons_Tag, app_nil_r. by intros [? _]%NoDup_cons.
Qed.

(** [insert_after] at a location: the new node becomes the next sibling,
    and nothing else changes. *)
Lemma insert_after_at ancestors L R n new :
  NoDup (ids (wrap ancestors (L ++ n :: R))) →
  insert_after (id_of n) new (wrap ancestors (L ++ n :: R))
  = wrap ancestors (L ++ n :: new :: R).
Proof.
  intros Hnd.
  assert (Hhole : NoDup (ids (L ++ n :: R)))
    by (eapply sublist_NoDup; [exact Hnd|apply ids_wrap_sublist]).
  change (n :: R) with ([n] ++ R) in *. rewrite !ids_app in Hhole.
  apply NoDup_app in Hhole as (_ & HL & Hrest).
  apply NoDup_app in Hrest as (Hself & HR & _).
  pose proof (id_of_self n) as Hn.
  rewrite (local_wrap (id_of n) (insert_after (id_of n) new)).
  - f_equal. rewrite !insert_after_app.
    rewrite (insert_after_absent _ _ L)
      by (intros H; apply (HL _ H), elem_of_app; by left).
    rewrite (insert_after_absent _ _ R) by (intros H; by apply (HR _ Hn)).
    f_equal. rewrite insert_after_cons, decide_True by done.
    assert (insert_after_node (id_of n) new n = n) as ->; [|done].
    destruct n as [|j nm a cs]; [done|].
    rewrite insert_after_Tag. f_equal. apply insert_after_absent.
    by apply (NoDup_ids_self (Tag j nm a cs)).
  - apply insert_after_app.
  - apply insert_after_Tag_ne.
  - apply insert_after_absent.
  - rewrite !ids_app, !elem_of_app. tauto.
  - done.
Qed.

Lemma append_app i new (cs1 cs2 : list node) :
  append i new (cs1 ++ cs2) = append i new cs1 ++ append i new cs2.
Proof. apply fmap_app. Qed.

Lemma append_cons i new c (cs : list node) :
  append i new (c :: cs) = append_node i new c :: append i new cs.
Proof. done. Qed.

Lemma append_Tag_ne i new j nm a cs :
  j ≠ i → append i new [Tag j nm a cs] = [Tag j nm a (append i new cs)].
Proof.
  intros Hne. rewrite append_cons, append_Tag, decide_False by done.
  by rewrite app_nil_r.
Qed.

Lemma append_absent i new cs : i ∉ ids cs → append i new cs = cs.
Proof.
  assert (Hnode : ∀ n, id_of n ≠ i → i ∉ ids (contents_of n) →
            append_node i new n = n).
  { induction n as [j k s|j nm a cs' IH] using node_ind'; [done|].
    simpl contents_of. simpl id_of. intros Hj Hcs.
    rewrite append_Tag, decide_False, app_nil_r by done. f_equal.
    induction IH as [|c cs' Hc _ IHcs]; [done|].
    apply not_elem_of_ids_cons in Hcs as (Hid & Hc1 & Hc2).
    rewrite append_cons, Hc by done. f_equal. by apply IHcs. }
  induction cs as [|c cs IH]; [done|].
  intros (Hid & Hc1 & Hc2)%not_elem_of_ids_cons.
  rewrite append_cons, Hnode by done. f_equal. by apply IH.
Qed.

(** [append] at a location: the new node becomes the last child, and
    nothing else changes. *)
Lemma append_at ancestors L R i nm a cs new :
  NoDup (ids (wrap ancestors (L ++ Tag i nm a cs :: R))) →
  append i new (wrap ancestors (L ++ Tag i nm a cs :: R))
  = wrap ancestors (L ++ Tag i nm a (cs ++ [new]) :: R).
Proof.
  intros Hnd.
  assert (Hhole : NoDup (ids (L ++ Tag i nm a cs :: R)))
    by (eapply sublist_NoDup; [exact Hnd|apply ids_wrap_sublist]).
  rewrite ids_app, ids_cons_Tag in Hhole.
  apply NoDup_app in Hhole as (_ & HL & Hrest).
  apply NoDup_cons in Hrest as [Hi Hrest].
  rewrite (local_wrap i (append i new)).
  - f_equal.
    change (Tag i nm a cs :: R) with ([Tag i nm a cs] ++ R).
    rewrite !append_app.
    rewrite (append_absent _ _ L) by (intros H; apply (HL _ H); left).
    rewrite (append_absent _ _ R)
      by (intros H; apply Hi, elem_of_app; by right).
    rewrite append_cons, append_Tag, decide_True by done.
    rewrite (append_absent _ _ cs); [done|].
    intros H. apply Hi, elem_of_app. by left.
  - apply append_app.
  - apply append_Tag_ne.
  - apply append_absent.
  - rewrite ids_app, ids_cons_Tag, elem_of_app, elem_of_cons. tauto.
  - done.
Qed.

Lemma self_and_descendants_trans r n m :
  n ∈ self_and_descendants r → m ∈ self_and_descendants n →
  m ∈ self_and_descendants r.
Proof.
  induction r as [i k s|i nm a cs IH] using node_ind'.
  - by intros ->%list_elem_of_singleton.
  - rewrite self_and_descendants_Tag.
    intros [->|Hn]%elem_of_cons Hm; [by rewrite self_and_descendants_Tag in Hm|].
    right. apply elem_of_flat_map in Hn as (c & Hc & Hn).
    apply elem_of_flat_map. exists c. split; [done|].
    eapply Forall_forall in IH; [|exact Hc]. by apply IH.
Qed.

Lemma descendants_contents forest n m :
  n ∈ descendants forest → m ∈ descendants (contents_of n) →
  m ∈ descendants forest.
Proof.
  intros (r & Hr & Hn)%elem_of_flat_map Hm.
  apply elem_of_flat_map. exists r. split; [done|].
  eapply self_and_descendants_trans; [exact Hn|].
  destruct n as [|j nm a cs]; [by apply elem_of_nil in Hm|].
  rewrite self_and_descendants_Tag. by right.
Qed.

(** X12: where the stylesheet link goes.  In a document with unique
    identities whose head has no link to [css/rtl.css], the new link
    becomes the next sibling of the link to [css/style.css] that [find]
    gives, or, without such a link, the last child of the head; nothing
    else in the tree changes. *)
Theorem ensure_rtl_stylesheet_placement (soup : BeautifulSoup) (head : node) :
  NoDup (ids (contents soup)) →
  find (named (lit "head")) (contents soup) = Some head →
  find (named_with (lit "link") (lit "href") (lit "css/rtl.css"))
       (contents_of head) = None →
  let new_link := new_tag soup (lit "link") rtl_link_attrs in
  match find (named_with (lit "link") (lit "href") (lit "css/style.css"))
             (contents_of head) with
  | Some style_link =>
      ∃ ancestors L R,
        contents soup = wrap ancestors (L ++ style_link :: R) ∧
        contents (ensure_rtl_stylesheet soup)
        = wrap ancestors (L ++ style_link :: new_link :: R)
  | None =>
      ∃ ancestors L R i a cs,
        head = Tag i (lit "head") a cs ∧
        contents soup = wrap ancestors (L ++ head :: R) ∧
        contents (ensure_rtl_stylesheet soup)
        = wrap ancestors (L ++ Tag i (lit "head") a (cs ++ [new_link]) :: R)
  end.
Proof.
  intros Hnd Hhead Hrtl new_link. unfold ensure_rtl_stylesheet.
  rewrite Hhead, Hrtl. fold new_link.
  apply find_Some_elem in Hhead as [Hin Hnamed].
  destruct (find (named_with _ _ (lit "css/style.css")) _)
    as [style_link|] eqn:Hstyle.
  - apply find_Some_elem in Hstyle as [Hs _].
    destruct (located (contents soup) style_link) as (anc & L & R & Hloc).
    { by eapply descendants_contents. }
    exists anc, L, R. split; [done|]. simpl.
    rewrite Hloc in Hnd |- *. by apply insert_after_at.
  - destruct (named_Tag _ _ Hnamed) as (i & a & cs & ->).
    destruct (located (contents soup) _ Hin) as (anc & L & R & Hloc).
    exists anc, L, R, i, a, cs. split; [done|]. split; [done|]. simpl.
    rewrite Hloc in Hnd |- *. by apply append_at.
Qed.

Lemma ensure_rtl_stylesheet_placement_witness :
  ∃ ancestors L R,
    contents sample_page
    = wrap ancestors
        (L ++ Tag 3 (lit "link") [(lit "href", AStr (lit "css/style.css"))] []
           :: R) ∧
    contents (ensure_rtl_stylesheet sample_page)
    = wrap ancestors
        (L ++ Tag 3 (lit "link") [(lit "href", AStr (lit "css/style.css"))] []
           :: new_tag sample_page (lit "link") rtl_link_attrs :: R).
Proof.
  apply (ensure_rtl_stylesheet_placement sample_page
           (Tag 2 (lit "head") []
              [Tag 3 (lit "link") [(lit "href", AStr (lit "css/style.css"))] [];
               Tag 4 (lit "style") [] [Str 5 NavigableString (lit "p { }")]])).
  - apply (bool_decide_unpack _). vm_compute. exact I.
  - reflexivity.
  - reflexivity.
Defined.

(** X13: where the script goes.  In a document with unique identities
    whose body has no script with [src] equal to [js/rtl.js], the new
    script becomes the next sibling of the script [js/main.js] that
    [find] gives, or, without such a script, the last child of the body;
    nothing else in the tree changes. *)
Theorem ensure_rtl_script_placement (soup : BeautifulSoup) (body : node) :
  NoDup (ids (contents soup)) →
  find (named (lit "body")) (contents soup) = Some body →
  existsb src_is_rtl_js
    (find_all (named_having (lit "script") (lit "src")) (contents_of body))
  = false →
  let rtl_tag := new_tag soup (lit "script") rtl_script_attrs in
  match find (named_with (lit "script") (lit "src") (lit "js/main.js"))
             (contents_of body) with
  | Some main_script =>
      ∃ ancestors L R,
        contents soup = wrap ancestors (L ++ main_script :: R) ∧
        contents (ensure_rtl_script soup)
        = wrap ancestors (L ++ main_script :: rtl_tag :: R)
  | None =>
      ∃ ancestors L R i a cs,
        body = Tag i (lit "body") a cs ∧
        contents soup = wrap ancestors (L ++ body :: R) ∧
        contents (ensure_rtl_script soup)
        = wrap ancestors (L ++ Tag i (lit "body") a (cs ++ [rtl_tag]) :: R)
  end.
Proof.
  intros Hnd Hbody Hrtl rtl_tag. unfold ensure_rtl_script.
  rewrite Hbody, Hrtl. fold rtl_tag.
  apply find_Some_elem in Hbody as [Hin Hnamed].
  destruct (find (named_with _ _ (lit "js/main.js")) _)
    as [main_script|] eqn:Hmain.
  - apply find_Some_elem in Hmain as [Hs _].
    destruct (located (contents soup) main_script) as (anc & L & R & Hloc).
    { by eapply descendants_contents. }
    exists anc, L, R. split; [done|]. simpl.
    rewrite Hloc in Hnd |- *. by apply insert_after_at.
  - destruct (named_Tag _ _ Hnamed) as (i & a & cs & ->).
    destruct (located (contents soup) _ Hin) as (anc & L & R & Hloc).
    exists anc, L, R, i, a, cs. split; [done|]. split; [done|]. simpl.
    rewrite Hloc in Hnd |- *. by apply append_at.
Qed.

Lemma ensure_rtl_script_placement_witness :
  ∃ ancestors L R i a cs,
    Tag 0 (lit "body") [] [Tag 1 (lit "p") [] []] = Tag i (lit "body") a cs ∧
    [Tag 0 (lit "body") [] [Tag 1 (lit "p") [] []]]
    = wrap ancestors (L ++ Tag 0 (lit "body") [] [Tag 1 (lit "p") [] []] :: R) ∧
    contents (ensure_rtl_script
                (mkSoup [Tag 0 (lit "body") [] [Tag 1 (lit "p") [] []]] 2))
    = wrap ancestors
        (L ++ Tag i (lit "body") a
                (cs ++ [Tag 2 (lit "script") rtl_script_attrs []]) :: R).
Proof.
  apply (ensure_rtl_script_placement
           (mkSoup [Tag 0 (lit "body") [] [Tag 1 (lit "p") [] []]] 2)
           (Tag 0 (lit "body") [] [Tag 1 (lit "p") [] []])).
  - apply (bool_decide_unpack _). vm_compute. exact I.
  - reflexivity.
  - reflexivity.
Defined.

(** ** The third loop on the entries of the extractor *)

Lemma tags_app (cs1 cs2 : list node) : tags (cs1 ++ cs2) = tags cs1 ++ tags cs2.
Proof. unfold tags. by rewrite descendants_app, omap_app. Qed.

Lemma tags_cons c (cs : list node) : tags (c :: cs) = tags [c] ++ tags cs.
Proof. apply (tags_app [c]). Qed.

Lemma tags_Tag j nm a cs : tags [Tag j nm a cs] = (j, nm, a) :: tags cs.
Proof.
  unfold tags. rewrite descendants_singleton, self_and_descendants_Tag. done.
Qed.

Lemma tag_ids_app (cs1 cs2 : list node) :
  tag_ids (cs1 ++ cs2) = tag_ids cs1 ++ tag_ids cs2.
Proof. unfold tag_ids. by rewrite tags_app, fmap_app. Qed.

Lemma tag_ids_Tag j nm a cs : tag_ids [Tag j nm a cs] = j :: tag_ids cs.
Proof. unfold tag_ids. by rewrite tags_Tag. Qed.

Lemma elem_of_tags forest j nm a :
  (j, nm, a) ∈ tags forest ↔ ∃ cs, Tag j nm a cs ∈ descendants forest.
Proof.
  unfold tags. rewrite list_elem_of_omap. split.
  - intros ([|j' nm' a' cs] & Hin & Hl); [done|]. simpl in Hl.
    injection Hl as -> -> ->. by exists cs.
  - intros [cs Hin]. by exists (Tag j nm a cs).
Qed.

Lemma replace_with_cons i new c cs :
  replace_with i new (c :: cs) = replace_with i new [c] ++ replace_with i new cs.
Proof. apply (replace_with_app i new [c]). Qed.

Lemma replace_with_singleton i new n :
  replace_with i new [n]
  = if decide (id_of n = i) then [new] else [replace_with_node i new n].
Proof. unfold replace_with. simpl. by rewrite app_nil_r. Qed.

Section ReplaceString.
Variables (i j : node_id) (s : str).
Let new := Str j NavigableString s.

Lemma replace_string_node n :
  i ∉ tag_ids [n] →
  (∀ parent,
     flat_map (strings_under parent) (replace_with i new [n])
     = restring i j s <$> strings_under parent n) ∧
  tags (replace_with i new [n]) = tags [n].
Proof.
  induction n as [i0 k s0|j0 nm a cs IH] using node_ind'.
  - intros _. rewrite replace_with_singleton. unfold restring. simpl.
    destruct (decide (i0 = i)); by split.
  - rewrite tag_ids_Tag. intros [Hj Hcs]%not_elem_of_cons.
    rewrite replace_with_Tag by done.
    assert ((∀ parent,
               flat_map (strings_under parent) (replace_with i new cs)
               = restring i j s <$> flat_map (strings_under parent) cs) ∧
            tags (replace_with i new cs) = tags cs) as [Hs Ht].
    { clear Hj. induction IH as [|c cs Hc _ IHcs]; [done|].
      change (c :: cs) with ([c] ++ cs) in Hcs. rewrite tag_ids_app in Hcs.
      apply not_elem_of_app in Hcs as [Hc1 Hc2].
      destruct (Hc Hc1) as [Hcs' Hct]. destruct (IHcs Hc2) as [IHs IHt].
      rewrite replace_with_cons. split.
      - intros parent.
        rewrite flat_map_app', flat_map_cons', fmap_app, Hcs', IHs. done.
      - by rewrite tags_app, (tags_cons c cs), Hct, IHt. }
    split.
    + intros parent. rewrite flat_map_cons', app_nil_r, !strings_under_Tag.
      apply Hs.
    + by rewrite !tags_Tag, Ht.
Qed.

Lemma replace_string forest :
  i ∉ tag_ids forest →
  (∀ parent,
     flat_map (strings_under parent) (replace_with i new forest)
     = restring i j s <$> flat_map (strings_under parent) forest) ∧
  tags (replace_with i new forest) = tags forest.
Proof.
  induction forest as [|c cs IH]; [done|].
  change (c :: cs) with ([c] ++ cs). rewrite tag_ids_app.
  intros [Hc1 Hc2]%not_elem_of_app.
  destruct (replace_string_node c Hc1) as [Hcs Hct].
  destruct (IH Hc2) as [IHs IHt].
  rewrite replace_with_app. split.
  - intros parent.
    rewrite !flat_map_app', fmap_app, Hcs, IHs. simpl. by rewrite app_nil_r.
  - by rewrite !tags_app, Hct, IHt.
Qed.

End ReplaceString.

Lemma third_loop_app es1 es2 d soup :
  third_loop (es1 ++ es2) d soup
  = match third_loop es1 d soup with
    | Ok soup1 => third_loop es2 d soup1
    | Err e => Err e
    end.
Proof.
  revert soup. induction es1 as [|e es1 IH]; intros soup; [done|].
  simpl. destruct (dict_get _ d) as [t|]; [|done].
  destruct (apply_translation e t soup); [|done]. apply IH.
Qed.

(** What one turn of the first loop of the extractor says about the
    node after the translation. *)
Lemma text_entry_retext tr parent i k text :
  match text_entry (parent, (i, k, text)) with
  | [] => retext tr (parent, k, text) = (parent, k, text)
  | [TextEntry i' leading content trailing] =>
      i' = i ∧
      retext tr (parent, k, text)
      = (parent, NavigableString, leading ++ tr content ++ trailing)
  | _ => False
  end.
Proof.
  unfold text_entry, retext.
  destruct (bool_decide (k = Comment ∨ k = Doctype)); [done|].
  destruct (bool_decide (parent ∈ EXCLUDED_TEXT_PARENTS)); [done|].
  destruct (split_text text) as [[leading core] trailing].
  by destruct (negb (nonempty core)).
Qed.

Lemma all_strings_ids soup x : x ∈ all_strings soup → x.2.1.1 ∈ ids (contents soup).
Proof.
  intros (n & Hn & Hx)%elem_of_flat_map.
  apply strings_under_descendants in Hx.
  apply (list_elem_of_fmap_2 id_of) in Hx. simpl in Hx.
  unfold ids, descendants. rewrite fmap_flat_map.
  apply elem_of_flat_map. by exists n.
Qed.

Lemma restring_fixed i j s (l : list (str * (node_id * strkind * str))) :
  i ∉ (λ x, x.2.1.1) <$> l → restring i j s <$> l = l.
Proof.
  induction l as [|x l IH]; [done|].
  rewrite !fmap_cons. intros [Hx Hl]%not_elem_of_cons.
  rewrite IH by done. unfold restring at 1. by rewrite decide_False.
Qed.

(** The part of the third loop that works on the text entries.  [done]
    holds the string nodes the loop has passed, [todo] the ones still to
    come; the tags stay as they are. *)
Lemma text_phase tr d todo : ∀ done cur,
  all_strings cur = done ++ todo →
  NoDup ((λ x, x.2.1.1) <$> (done ++ todo)) →
  Forall (λ x, x.2.1.1 < next_id cur) (done ++ todo) →
  (∀ x, x ∈ todo → x.2.1.1 ∉ tag_ids (contents cur)) →
  (∀ e, e ∈ flat_map text_entry todo →
        dict_get (content_of e) d = Some (tr (content_of e))) →
  ∃ soup1 todo1,
    third_loop (flat_map text_entry todo) d cur = Ok soup1 ∧
    all_strings soup1 = done ++ todo1 ∧
    (λ x, (x.1, x.2.1.2, x.2.2)) <$> todo1
    = retext tr <$> ((λ x, (x.1, x.2.1.2, x.2.2)) <$> todo) ∧
    tags (contents soup1) = tags (contents cur).
Proof.
  induction todo as [|[parent [[i k] text]] todo IH];
    intros done cur Hall Hnd Hlt Htag Hd.
  - exists cur, []. by rewrite Hall.
  - rewrite flat_map_cons' in Hd |- *.
    pose proof (text_entry_retext tr parent i k text) as Hx.
    destruct (text_entry (parent, (i, k, text)))
      as [|[i' leading content trailing|] [|]] eqn:E; try done.
    + destruct (IH (done ++ [(parent, (i, k, text))]) cur)
        as (soup1 & todo1 & H3 & Hs & He & Ht).
      * by rewrite <- app_assoc.
      * by rewrite <- app_assoc.
      * by rewrite <- app_assoc.
      * intros x Hin. apply Htag. by right.
      * done.
      * exists soup1, ((parent, (i, k, text)) :: todo1).
        split; [done|]. split; [by rewrite Hs, <- app_assoc|]. split; [|done].
        rewrite !fmap_cons, He. f_equal. exact (eq_sym Hx).
    + destruct Hx as [-> Hx].
      set (new_value := leading ++ tr content ++ trailing) in *.
      set (x' := (parent, (next_id cur, NavigableString, new_value))).
      set (cur' := allocated cur
                     (replace_with i (new_string cur new_value) (contents cur))).
      assert (Hin : (parent, (i, k, text)) ∈ all_strings cur).
      { rewrite Hall. apply elem_of_app. right. left. }
      assert (Hstep : third_loop
                        ([TextEntry i leading content trailing]
                         ++ flat_map text_entry todo) d cur
                      = third_loop (flat_map text_entry todo) d cur').
      { assert (dict_get content d = Some (tr content)) as Hc.
        { apply (Hd (TextEntry i leading content trailing)).
          apply elem_of_app. left. left. }
        simpl. rewrite Hc. simpl. rewrite bool_decide_eq_true_2; [done|].
        by apply (all_strings_ids cur _ Hin). }
      rewrite Hstep.
      destruct (replace_string i (next_id cur) new_value (contents cur))
        as [Hstr Htags].
      { apply (Htag (parent, (i, k, text))). left. }
      rewrite fmap_app, fmap_cons in Hnd. simpl in Hnd.
      apply NoDup_app in Hnd as (Hnd1 & Hnd2 & Hnd3).
      apply NoDup_cons in Hnd3 as [Hi Hnd3].
      apply Forall_app in Hlt as [Hlt1 Hlt2].
      apply Forall_cons in Hlt2 as [Hlti Hlt2]. simpl in Hlti.
      assert (Hall' : all_strings cur' = (done ++ [x']) ++ todo).
      { unfold all_strings, cur'. simpl. unfold new_string. rewrite Hstr.
        fold (all_strings cur). rewrite Hall, fmap_app, fmap_cons.
        rewrite !restring_fixed; [|done|].
        - unfold restring at 1. simpl. rewrite decide_True by done.
          by rewrite <- app_assoc.
        - intros H. apply (Hnd2 _ H). left. }
      destruct (IH (done ++ [x']) cur') as (soup1 & todo1 & H3 & Hs & He & Ht).
      * done.
      * rewrite <- app_assoc, fmap_app.
        change ((λ x, x.2.1.1) <$> [x'] ++ todo)
          with (next_id cur :: ((λ x, x.2.1.1) <$> todo)).
        apply NoDup_app. split; [done|]. split.
        -- intros y Hy [->|Hy']%elem_of_cons.
           ++ apply list_elem_of_fmap in Hy as (z & Hzeq & Hz).
              eapply Forall_forall in Hlt1; [|exact Hz].
              simpl in Hlt1, Hzeq. unfold node_id in *. lia.
           ++ apply (Hnd2 _ Hy). by right.
        -- apply NoDup_cons. split; [|done].
           intros Hy. apply list_elem_of_fmap in Hy as (z & Hzeq & Hz).
           eapply Forall_forall in Hlt2; [|exact Hz].
           simpl in Hlt2, Hzeq. unfold node_id in *. lia.
      * rewrite <- app_assoc. apply Forall_app. split.
        -- eapply Forall_impl; [exact Hlt1|]. simpl. intros; lia.
        -- apply Forall_cons. split; [simpl; lia|].
           eapply Forall_impl; [exact Hlt2|]. simpl. intros; lia.
      * intros x Hxin. unfold tag_ids, cur'. simpl. unfold new_string.
        rewrite Htags. apply Htag. by right.
      * intros e He. apply Hd. apply elem_of_app. by right.
      * exists soup1, (x' :: todo1).
        split; [done|]. split; [by rewrite Hs, <- app_assoc|]. split.
        -- rewrite !fmap_cons, He. f_equal. exact (eq_sym Hx).
        -- rewrite Ht. unfold cur'. simpl. unfold new_string. by rewrite Htags.
Qed.

Lemma label_map_attrs f n :
  label (map_attrs_node f n) = (λ l, (l.1.1, l.1.2, f l.1.1 l.2)) <$> label n.
Proof. by destruct n. Qed.

Lemma omap_cons' {A B} (f : A → option B) (x : A) (l : list A) :
  omap f (x :: l)
  = match f x with Some y => y :: omap f l | None => omap f l end.
Proof. done. Qed.

Lemma tags_map_attrs f (forest : list node) :
  tags (map_attrs_node f <$> forest)
  = (λ l, (l.1.1, l.1.2, f l.1.1 l.2)) <$> tags forest.
Proof.
  unfold tags. rewrite map_attrs_descendants.
  induction (descendants forest) as [|n l IH]; [done|].
  rewrite fmap_cons, !omap_cons', label_map_attrs, IH.
  by destruct (label n).
Qed.

(** The part of the third loop that works on the attribute entries: it
    does not raise, it leaves the strings alone, and every tag gets the
    assignments made to its identity, in the order of the entries. *)
Lemma attr_phase tr d entries : ∀ cur,
  Forall (λ e, node_of e = None) entries →
  (∀ e, e ∈ entries → dict_get (content_of e) d = Some (tr (content_of e))) →
  ∃ soup2,
    third_loop entries d cur = Ok soup2 ∧
    all_strings soup2 = all_strings cur ∧
    tags (contents soup2)
    = (λ l, (l.1.1, l.1.2, apply_attrs tr entries l.1.1 l.2))
        <$> tags (contents cur).
Proof.
  induction entries as [|e entries IH]; intros cur Hattr Hd.
  - exists cur. split; [done|]. split; [done|].
    unfold apply_attrs. simpl. rewrite <- (list_fmap_id (tags _)) at 1.
    apply list_fmap_ext. by intros _ [[j nm] a] _.
  - apply Forall_cons in Hattr as [He Hattr].
    destruct e as [|i k leading content trailing]; [done|].
    assert (dict_get content d = Some (tr content)) as Hc
      by (apply (Hd (AttrEntry i k leading content trailing)); left).
    set (v := AStr (leading ++ tr content ++ trailing)).
    destruct (IH (with_contents cur (set_item i k v (contents cur))))
      as (soup2 & H3 & Hs & Ht); [done|by intros e ?; apply Hd; right|].
    exists soup2. split; [|split].
    + simpl. rewrite Hc. exact H3.
    + rewrite Hs. unfold all_strings. simpl. apply map_attrs_strings.
    + rewrite Ht. simpl contents. unfold set_item, set_item_node.
      rewrite tags_map_attrs, <- list_fmap_compose.
      apply list_fmap_ext. by intros _ [[j nm] a] _.
Qed.

Lemma tag_ids_sublist forest : tag_ids forest `sublist_of` ids forest.
Proof.
  unfold tag_ids, tags, ids.
  induction (descendants forest) as [|n l IH]; [done|].
  destruct n as [|j nm a cs]; simpl.
  - by apply sublist_cons.
  - by apply sublist_skip.
Qed.

Lemma string_not_tag soup x :
  NoDup (ids (contents soup)) → x ∈ all_strings soup →
  x.2.1.1 ∉ tag_ids (contents soup).
Proof.
  intros Hnd (n & Hn & Hx)%elem_of_flat_map Htag.
  apply strings_under_descendants in Hx.
  apply list_elem_of_fmap in Htag as ([[j nm] a] & Hj & Hin). simpl in Hj.
  apply elem_of_tags in Hin as [cs Hin].
  assert (Str x.2.1.1 x.2.1.2 x.2.2 ∈ descendants (contents soup)) as Hstr
    by (apply elem_of_flat_map; eauto).
  pose proof (NoDup_fmap_eq id_of _ _ _ Hnd Hstr Hin) as Heq.
  by specialize (Heq Hj).
Qed.

(** The attribute entries, put together by the two nested loops. *)
Lemma collect_entries_parts soup es :
  collect_entries soup = Ok es →
  ∃ attrs,
    collect (λ attr, collect (attr_entry attr)
                       (find_all (having attr) (contents soup)))
            ATTRS_TO_TRANSLATE = Ok attrs ∧
    es = flat_map text_entry (all_strings soup) ++ attrs ∧
    Forall (λ e, node_of e = None) attrs.
Proof.
  unfold collect_entries.
  destruct (collect _ ATTRS_TO_TRANSLATE) as [attrs|] eqn:Ea; [|done].
  intros [= <-]. exists attrs. split; [done|]. split; [done|].
  apply Forall_forall. intros e He.
  destruct (collect_elem _ _ _ _ Ea He) as (attr & zs & _ & Hzs & Hz).
  destruct (collect_elem _ _ _ _ Hzs Hz) as (element & zs' & _ & Hzs' & Hz').
  destruct (attr_entry_ok _ _ _ _ Hzs' Hz') as (? & ? & ? & _ & -> & _).
  done.
Qed.

(** The third loop on the entries of the extractor: it does not raise,
    the strings become what [retext] says, and the tags get the
    assignments of the attribute entries. *)
Lemma third_loop_collected tr d soup es :
  well_formed soup → collect_entries soup = Ok es →
  (∀ e, e ∈ es → dict_get (content_of e) d = Some (tr (content_of e))) →
  ∃ soup' attrs,
    collect (λ attr, collect (attr_entry attr)
                       (find_all (having attr) (contents soup)))
            ATTRS_TO_TRANSLATE = Ok attrs ∧
    third_loop es d soup = Ok soup' ∧
    texts soup' = retext tr <$> texts soup ∧
    tags (contents soup')
    = (λ l, (l.1.1, l.1.2, apply_attrs tr attrs l.1.1 l.2))
        <$> tags (contents soup).
Proof.
  intros Hwf Hes Hd.
  destruct (collect_entries_parts soup es Hes) as (attrs & Ha & -> & Hattr).
  destruct (text_phase tr d (all_strings soup) [] soup)
    as (soup1 & todo1 & H1 & Hs1 & He1 & Ht1).
  - done.
  - by apply all_strings_NoDup.
  - apply Forall_forall. intros x Hx. destruct Hwf as [_ Hlt].
    eapply Forall_forall in Hlt; [exact Hlt|]. by apply all_strings_ids.
  - intros x Hx. apply string_not_tag; [apply Hwf|done].
  - intros e He. apply Hd. apply elem_of_app. by left.
  - destruct (attr_phase tr d attrs soup1 Hattr) as (soup2 & H2 & Hs2 & Ht2).
    { intros e He. apply Hd. apply elem_of_app. by right. }
    exists soup2, attrs. split; [done|]. split; [|split].
    + by rewrite third_loop_app, H1.
    + simpl in Hs1. unfold texts. by rewrite Hs2, Hs1, He1.
    + by rewrite Ht2, Ht1.
Qed.

Lemma apply_attrs_cons tr e entries j a :
  apply_attrs tr (e :: entries) j a
  = apply_attrs tr entries j
      match e with
      | AttrEntry i k leading content trailing =>
          assign i k (AStr (leading ++ tr content ++ trailing)) j a
      | TextEntry _ _ _ _ => a
      end.
Proof. done. Qed.

Lemma apply_attrs_get tr entries j k v : ∀ a,
  (∀ l c t, AttrEntry j k l c t ∈ entries → AStr (l ++ tr c ++ t) = v) →
  dict_get k (apply_attrs tr entries j a)
  = if existsb (targets j k) entries then Some v else dict_get k a.
Proof.
  induction entries as [|e entries IH]; intros a Hv; [done|].
  rewrite apply_attrs_cons, IH by (intros l c t ?; apply Hv; by right).
  simpl existsb. destruct (existsb (targets j k) entries).
  { by rewrite orb_true_r. }
  rewrite orb_false_r. destruct e as [|i k' l c t]; [done|]. simpl targets.
  case_bool_decide as Ht.
  - destruct Ht as [-> ->]. rewrite assign_at. f_equal. apply Hv. left.
  - unfold assign. destruct (decide (j = i)) as [->|]; [|done].
    apply dict_get_set_ne. intros ->. by apply Ht.
Qed.

Lemma attr_entry_split attr element zs e :
  attr_entry attr element = Ok zs → e ∈ zs →
  ∃ value,
    dict_get attr (attrs_of element) = Some (AStr value) ∧
    e = AttrEntry (id_of element) attr (split_text value).1.1
          (split_text value).1.2 (split_text value).2 ∧
    nonempty (split_text value).1.2 = true.
Proof.
  unfold attr_entry.
  destruct (dict_get attr (attrs_of element)) as [[value|[|? ?]]|];
    try (intros [= <-] He; by apply elem_of_nil in He).
  destruct (negb (nonempty value) || negb (nonempty (strip value)));
    [intros [= <-] He; by apply elem_of_nil in He|].
  destruct (split_text value) as [[l c] t] eqn:Es.
  destruct (nonempty c) eqn:Ec; simpl;
    [|intros [= <-] He; by apply elem_of_nil in He].
  intros [= <-] ->%list_elem_of_singleton. exists value. by rewrite Es.
Qed.

Lemma attr_entry_of_value attr element value :
  dict_get attr (attrs_of element) = Some (AStr value) →
  nonempty (split_text value).1.2 = true →
  attr_entry attr element
  = Ok [AttrEntry (id_of element) attr (split_text value).1.1
          (split_text value).1.2 (split_text value).2].
Proof.
  intros Hget Hc. unfold attr_entry. rewrite Hget.
  assert (nonempty (strip value) = true) as Hs
    by (by rewrite <- split_text_core).
  assert (nonempty value = true) as Hv by (by destruct value).
  rewrite Hv, Hs. simpl.
  destruct (split_text value) as [[l c] t]. simpl in *. by rewrite Hc.
Qed.

(** What the attribute entries of the extractor make of the attributes
    of a tag of the document. *)
Lemma apply_attrs_collected tr soup attrs j nm a cs k :
  NoDup (ids (contents soup)) →
  collect (λ attr, collect (attr_entry attr)
                     (find_all (having attr) (contents soup)))
          ATTRS_TO_TRANSLATE = Ok attrs →
  Tag j nm a cs ∈ descendants (contents soup) →
  dict_get k (apply_attrs tr attrs j a) = reattr tr k (dict_get k a).
Proof.
  intros Hnd Ha Hin.
  assert (Hfrom : ∀ l c t, AttrEntry j k l c t ∈ attrs →
            k ∈ ATTRS_TO_TRANSLATE ∧
            ∃ value, dict_get k a = Some (AStr value) ∧
                     split_text value = (l, c, t) ∧ nonempty c = true).
  { intros l c t He.
    destruct (collect_elem _ _ _ _ Ha He) as (attr & zs & Hattr & Hzs & Hz).
    destruct (collect_elem _ _ _ _ Hzs Hz) as (element & zs' & Hel & Hzs' & Hz').
    destruct (attr_entry_split _ _ _ _ Hzs' Hz') as (value & Hget & Heq & Hc).
    injection Heq as Hid -> Hl Hcc Ht.
    apply list_elem_of_filter in Hel as [_ Hel].
    pose proof (NoDup_fmap_eq id_of _ _ _ Hnd Hel Hin (eq_sym Hid)) as ->.
    split; [done|]. exists value. split; [done|]. split; [|by rewrite Hcc].
    rewrite Hl, Hcc, Ht. by destruct (split_text value) as [[? ?] ?]. }
  destruct (dict_get k a) as [[value|vs]|] eqn:Hget.
  - unfold reattr. case_bool_decide as Hk.
    + destruct (split_text value) as [[l c] t] eqn:Hsplit.
      destruct (nonempty c) eqn:Hc; simpl.
      * rewrite (apply_attrs_get tr attrs j k (AStr (l ++ tr c ++ t))).
        -- assert (existsb (targets j k) attrs = true) as ->; [|done].
           apply existsb_exists. exists (AttrEntry j k l c t). split.
           ++ apply list_elem_of_In.
              assert (attr_entry k (Tag j nm a cs) = Ok [AttrEntry j k l c t])
                as Hentry.
              { rewrite (attr_entry_of_value k (Tag j nm a cs) value Hget);
                  rewrite Hsplit; done. }
              destruct (collect_ok_elem _ _ _ k Ha Hk) as [zs Hzs].
              eapply (collect_elem_2 _ _ _ k zs); [exact Ha|done|exact Hzs|].
              eapply (collect_elem_2 _ _ _ (Tag j nm a cs));
                [exact Hzs| |exact Hentry|by left].
              apply list_elem_of_filter. split; [|done]. simpl.
              apply bool_decide_eq_true. by rewrite Hget.
           ++ simpl. by apply bool_decide_eq_true.
        -- intros l' c' t' He.
           destruct (Hfrom _ _ _ He) as (_ & value' & [= <-] & Hs' & _).
           rewrite Hsplit in Hs'. by injection Hs' as <- <- <-.
      * rewrite (apply_attrs_get tr attrs j k (AStr [])).
        -- assert (existsb (targets j k) attrs = false) as ->; [|done].
           apply not_true_iff_false. intros (e & He & Ht)%existsb_exists.
           apply list_elem_of_In in He.
           destruct e as [|i k' l' c' t']; [done|]. simpl in Ht.
           apply bool_decide_eq_true in Ht as [-> ->].
           destruct (Hfrom _ _ _ He) as (_ & value' & [= <-] & Hs' & Hc').
           rewrite Hsplit in Hs'. injection Hs' as <- <- <-. congruence.
        -- intros l' c' t' He.
           destruct (Hfrom _ _ _ He) as (_ & value' & [= <-] & Hs' & Hc').
           rewrite Hsplit in Hs'. injection Hs' as <- <- <-. congruence.
    + rewrite (apply_attrs_get tr attrs j k (AStr [])).
      * assert (existsb (targets j k) attrs = false) as ->; [|done].
        apply not_true_iff_false. intros (e & He & Ht)%existsb_exists.
        apply list_elem_of_In in He.
        destruct e as [|i k' l' c' t']; [done|]. simpl in Ht.
        apply bool_decide_eq_true in Ht as [-> ->].
        by destruct (Hfrom _ _ _ He) as (? & _).
      * intros l' c' t' He. by destruct (Hfrom _ _ _ He) as (? & _).
  - rewrite (apply_attrs_get tr attrs j k (AStr [])).
    + assert (existsb (targets j k) attrs = false) as ->; [|done].
      apply not_true_iff_false. intros (e & He & Ht)%existsb_exists.
      apply list_elem_of_In in He.
      destruct e as [|i k' l' c' t']; [done|]. simpl in Ht.
      apply bool_decide_eq_true in Ht as [-> ->].
      by destruct (Hfrom _ _ _ He) as (_ & value' & ? & _).
    + intros l' c' t' He. by destruct (Hfrom _ _ _ He) as (_ & value' & ? & _).
  - rewrite (apply_attrs_get tr attrs j k (AStr [])).
    + assert (existsb (targets j k) attrs = false) as ->; [|done].
      apply not_true_iff_false. intros (e & He & Ht)%existsb_exists.
      apply list_elem_of_In in He.
      destruct e as [|i k' l' c' t']; [done|]. simpl in Ht.
      apply bool_decide_eq_true in Ht as [-> ->].
      by destruct (Hfrom _ _ _ He) as (_ & value' & ? & _).
    + intros l' c' t' He. by destruct (Hfrom _ _ _ He) as (_ & value' & ? & _).
Qed.

(** [translate_texts] on the entries of the extractor: what the second
    loop returns decides; the third loop does not raise. *)
Lemma translate_texts_collected soup es st :
  well_formed soup → collect_entries soup = Ok es →
  match second_loop (distinct_contents es) (first_loop [] es) st with
  | (Ok _, st') =>
      let tr := λ c, default [] (cache st' !! c) in
      ∃ soup' attrs,
        translate_texts es soup st = (Ok soup', st') ∧
        collect (λ attr, collect (attr_entry attr)
                           (find_all (having attr) (contents soup)))
                ATTRS_TO_TRANSLATE = Ok attrs ∧
        texts soup' = retext tr <$> texts soup ∧
        tags (contents soup')
        = (λ l, (l.1.1, l.1.2, apply_attrs tr attrs l.1.1 l.2))
            <$> tags (contents soup)
  | (Err e, st') => translate_texts es soup st = (Err e, st')
  end.
Proof.
  intros Hwf Hes.
  destruct (second_loop_cache (distinct_contents es) (first_loop [] es) st)
    as [_ Hd].
  unfold translate_texts. fold (distinct_contents es).
  change (mbind ?f ?m) with (bind m f). unfold bind.
  destruct (second_loop (distinct_contents es) (first_loop [] es) st)
    as [[d'|e] st'] eqn:E; [|done].
  set (tr := λ c, default [] (cache st' !! c)).
  destruct (Hd d' eq_refl) as [Hin _]. simpl in Hin.
  destruct (third_loop_collected tr d' soup es Hwf Hes)
    as (soup' & attrs & Ha & H3 & Ht & Hg).
  - intros e He. destruct (Hin (content_of e)) as (t & Hget & Hc).
    + apply distinct_contents_elem. by apply list_elem_of_fmap_2.
    + rewrite Hget. unfold tr. by rewrite Hc.
  - exists soup', attrs. unfold lift. by rewrite H3.
Qed.

(** X14: the strings after [translate_texts].  On the entries the
    extractor gives for a well-formed document, [translate_texts] fails
    only with the exception of a failed translation: the third loop finds
    every key and every node.  When it returns, the document has the same
    string nodes in the same order; each one the extractor took reads
    leading whitespace, cached translation of the core, trailing
    whitespace, and every other one is as before. *)
Theorem translate_texts_strings (soup : BeautifulSoup) (es : list entry)
    (st : state) :
  well_formed soup → collect_entries soup = Ok es →
  match translate_texts es soup st with
  | (Ok soup', st') =>
      texts soup' = retext (λ c, default [] (cache st' !! c)) <$> texts soup
  | (Err e, st') =>
      second_loop (distinct_contents es) (first_loop [] es) st = (Err e, st')
  end.
Proof.
  intros Hwf Hes. pose proof (translate_texts_collected soup es st Hwf Hes) as H.
  destruct (second_loop _ _ st) as [[d'|e] st'].
  - destruct H as (soup' & attrs & -> & _ & Ht & _). done.
  - by rewrite H.
Qed.

Lemma translate_texts_strings_witness :
  texts (mkSoup [Tag 0 (lit "p") [] [Str 2 NavigableString (lit "X")]] 3)
  = retext (λ c, default [] (cache (translate_texts
                                      [TextEntry 1 [] (lit "Hello") []]
                                      one_paragraph translates_to_X).2 !! c))
      <$> texts one_paragraph.
Proof.
  apply (translate_texts_strings one_paragraph
           [TextEntry 1 [] (lit "Hello") []] translates_to_X).
  - apply one_paragraph_parsed.
  - reflexivity.
Defined.

(** X15: the tags after [translate_texts].  When it returns, the
    document has the same tags in the same order, with the same
    identities and names; an attribute of [ATTRS_TO_TRANSLATE] whose
    value is a string that is not blank holds leading whitespace, cached
    translation of the core, trailing whitespace, and every other
    attribute is as before. *)
Theorem translate_texts_attrs (soup soup' : BeautifulSoup) (es : list entry)
    (st st' : state) :
  well_formed soup → collect_entries soup = Ok es →
  translate_texts es soup st = (Ok soup', st') →
  Forall2 (λ l l',
             l'.1 = l.1 ∧
             ∀ k, dict_get k l'.2
                  = reattr (λ c, default [] (cache st' !! c)) k (dict_get k l.2))
          (tags (contents soup)) (tags (contents soup')).
Proof.
  intros Hwf Hes Hrun.
  pose proof (translate_texts_collected soup es st Hwf Hes) as H.
  destruct (second_loop _ _ st) as [[d'|e] st1]; [|by rewrite Hrun in H].
  destruct H as (soup1 & attrs & Heq & Ha & _ & Hg).
  rewrite Hrun in Heq. injection Heq as <- <-. rewrite Hg.
  apply Forall2_fmap_r, Forall_Forall2_diag, Forall_forall.
  intros [[j nm] a] Hin. simpl. split; [done|]. intros k.
  apply elem_of_tags in Hin as [cs Hin].
  eapply apply_attrs_collected; [apply Hwf|exact Ha|exact Hin].
Qed.

Lemma translate_texts_attrs_witness :
  Forall2 (λ l l',
             l'.1 = l.1 ∧
             ∀ k, dict_get k l'.2
                  = reattr (λ c, default []
                       (cache (translate_texts
                                 [AttrEntry 0 (lit "title") (lit " ") (lit "Tip")
                                    (lit " ")]
                                 (mkSoup [Tag 0 (lit "p")
                                            [(lit "title", AStr (lit " Tip "))] []] 1)
                                 translates_to_X).2 !! c))
                      k (dict_get k l.2))
          (tags [Tag 0 (lit "p") [(lit "title", AStr (lit " Tip "))] []])
          (tags [Tag 0 (lit "p") [(lit "title", AStr (lit " X "))] []]).
Proof.
  apply (translate_texts_attrs
           (mkSoup [Tag 0 (lit "p") [(lit "title", AStr (lit " Tip "))] []] 1)
           (mkSoup [Tag 0 (lit "p") [(lit "title", AStr (lit " X "))] []] 1)
           [AttrEntry 0 (lit "title") (lit " ") (lit "Tip") (lit " ")]
           translates_to_X).
  - split; [apply (bool_decide_unpack _); vm_compute; exact I|].
    repeat constructor.
  - reflexivity.
  - reflexivity.
Defined.

(** ** The adjusted document is as the extractor needs it *)

Lemma forallb_elem {A} (p : A → bool) (l : list A) :
  forallb p l = true ↔ ∀ x, x ∈ l → p x = true.
Proof.
  rewrite forallb_forall. split; intros H x Hx; apply H;
    by apply list_elem_of_In.
Qed.

Lemma dict_as_parsed_ext a a' :
  (∀ k, k ∈ lit "class" :: ATTRS_TO_TRANSLATE → dict_get k a' = dict_get k a) →
  dict_as_parsed a' = dict_as_parsed a.
Proof.
  intros H. unfold dict_as_parsed.
  rewrite (H (lit "class")) by left. f_equal.
  apply eq_true_iff_eq. rewrite !forallb_elem.
  split; intros Ha k Hk; specialize (Ha k Hk).
  - rewrite <- H; [done|by right].
  - rewrite H; [done|by right].
Qed.

Lemma dict_as_parsed_class a a' l :
  dict_as_parsed a = true →
  dict_get (lit "class") a' = Some (AList l) →
  (∀ k, k ∈ ATTRS_TO_TRANSLATE → dict_get k a' = dict_get k a) →
  dict_as_parsed a' = true.
Proof.
  unfold dict_as_parsed. intros [_ Ha]%andb_true_iff -> H.
  apply andb_true_iff. split; [done|]. rewrite forallb_elem in Ha |- *.
  intros k Hk. rewrite H by done. by apply Ha.
Qed.

Lemma html_change_as_parsed i j a :
  dict_as_parsed a = true → dict_as_parsed (html_change i j a) = true.
Proof.
  intros <-. apply dict_as_parsed_ext. intros k Hk. unfold html_change.
  rewrite !assign_get_ne; [done|intros <-; revert Hk..];
    apply (bool_decide_unpack _); vm_compute; exact I.
Qed.

Lemma dir_as_parsed i j a :
  dict_as_parsed (assign i (lit "dir") (AStr (lit "rtl")) j a) = dict_as_parsed a.
Proof.
  apply dict_as_parsed_ext. intros k Hk.
  rewrite assign_get_ne; [done|intros <-; revert Hk].
  apply (bool_decide_unpack _). vm_compute. exact I.
Qed.

Lemma class_as_parsed i l j a :
  dict_as_parsed a = true →
  dict_as_parsed (assign i (lit "class") (AList l) j a) = true.
Proof.
  intros Ha. unfold assign. destruct (decide (j = i)); [|done].
  apply (dict_as_parsed_class a _ l); [done|apply dict_get_set_eq|].
  intros k Hk. apply dict_get_set_ne. intros <-. revert Hk.
  apply (bool_decide_unpack _). vm_compute. exact I.
Qed.

Lemma body_change_as_parsed i class f j a :
  body_change i class = Some f →
  dict_as_parsed a = true → dict_as_parsed (f j a) = true.
Proof.
  unfold body_change. intros Hf Ha.
  destruct class as [[s|l]|].
  - destruct (contains _ s); [|done]. injection Hf as <-.
    by rewrite dir_as_parsed.
  - case_bool_decide; injection Hf as <-.
    + by rewrite dir_as_parsed.
    + apply class_as_parsed. by rewrite dir_as_parsed.
  - injection Hf as <-. apply class_as_parsed. by rewrite dir_as_parsed.
Qed.

Lemma map_attrs_as_parsed f (forest : list node) :
  (∀ j a, dict_as_parsed a = true → dict_as_parsed (f j a) = true) →
  forallb attrs_as_parsed (descendants forest) = true →
  forallb attrs_as_parsed (descendants (map_attrs_node f <$> forest)) = true.
Proof.
  intros Hf. rewrite map_attrs_descendants, !forallb_elem.
  intros H m (n & -> & Hn)%list_elem_of_fmap. specialize (H n Hn).
  change (dict_as_parsed (attrs_of (map_attrs_node f n)) = true).
  rewrite map_attrs_attrs_of. destruct n as [|j nm a cs]; [done|].
  by apply Hf.
Qed.

Lemma ensure_rtl_attributes_as_parsed soup soup' :
  ensure_rtl_attributes soup = Ok soup' →
  forallb attrs_as_parsed (descendants (contents soup)) = true →
  forallb attrs_as_parsed (descendants (contents soup')) = true.
Proof.
  unfold ensure_rtl_attributes. rewrite ensure_rtl_body_change. intros Hok Hp.
  assert (forallb attrs_as_parsed (descendants (contents (ensure_rtl_html soup)))
          = true) as Hh.
  { rewrite ensure_rtl_html_change. destruct (find _ (contents soup)); [|done].
    simpl. apply map_attrs_as_parsed; [|done].
    intros j a. apply html_change_as_parsed. }
  destruct (find _ (contents (ensure_rtl_html soup))) as [body|];
    [|by injection Hok as <-].
  destruct (body_change _ _) as [f|] eqn:Hf; [|done].
  injection Hok as <-. simpl. apply map_attrs_as_parsed; [|done].
  intros j a. by apply (body_change_as_parsed _ _ _ _ _ Hf).
Qed.

Lemma append_no_tag i new forest : i ∉ tag_ids forest → append i new forest = forest.
Proof.
  assert (Hnode : ∀ n, i ∉ tag_ids [n] → append_node i new n = n).
  { induction n as [j k s|j nm a cs IH] using node_ind'; [done|].
    rewrite tag_ids_Tag. intros [Hj Hcs]%not_elem_of_cons.
    rewrite append_Tag, decide_False, app_nil_r by done. f_equal.
    induction IH as [|c cs Hc _ IHcs]; [done|].
    change (c :: cs) with ([c] ++ cs) in Hcs. rewrite tag_ids_app in Hcs.
    apply not_elem_of_app in Hcs as [Hc1 Hc2].
    rewrite append_cons, Hc by done. f_equal. by apply IHcs. }
  induction forest as [|c cs IH]; [done|].
  change (c :: cs) with ([c] ++ cs). rewrite tag_ids_app.
  intros [Hc1 Hc2]%not_elem_of_app.
  change ([c] ++ cs) with (c :: cs).
  rewrite append_cons, Hnode by done. f_equal. by apply IH.
Qed.

Lemma elem_of_ids forest i : i ∈ ids forest → ∃ n, n ∈ descendants forest ∧ id_of n = i.
Proof. intros (n & -> & Hn)%list_elem_of_fmap. by exists n. Qed.

(** A new leaf put in at a location adds its identity and nothing else. *)
Lemma ids_put_in ancestors before after new :
  ids [new] = [id_of new] →
  ids (wrap ancestors (before ++ new :: after))
  ≡ₚ id_of new :: ids (wrap ancestors (before ++ after)).
Proof.
  intros Hnew. destruct (ids_wrap ancestors) as (pre & post & Hids).
  rewrite !Hids. change (new :: after) with ([new] ++ after).
  rewrite !ids_app, Hnew.
  replace (pre ++ (ids before ++ [id_of new] ++ ids after) ++ post)
    with ((pre ++ ids before) ++ id_of new :: (ids after ++ post))
    by (by rewrite <- !(assoc_L (++))).
  replace (pre ++ (ids before ++ ids after) ++ post)
    with ((pre ++ ids before) ++ (ids after ++ post))
    by (by rewrite <- !(assoc_L (++))).
  symmetry. apply Permutation_middle.
Qed.

Lemma NoDup_put_in ancestors before after new :
  ids [new] = [id_of new] →
  id_of new ∉ ids (wrap ancestors (before ++ after)) →
  NoDup (ids (wrap ancestors (before ++ after))) →
  NoDup (ids (wrap ancestors (before ++ new :: after))).
Proof.
  intros Hnew Hfresh Hnd. rewrite ids_put_in by done. by apply NoDup_cons.
Qed.

Lemma fresh_well_formed nm soup soup' :
  fresh_insertion nm soup soup' → well_formed soup → well_formed soup'.
Proof.
  intros Hfresh [Hnd Hlt].
  split; [|by apply (fresh_ids_below nm soup)].
  assert (Hnew : next_id soup ∉ ids (contents soup)).
  { intros Hin. eapply Forall_forall in Hlt; [|exact Hin]. simpl in Hlt. lia. }
  destruct Hfresh as [|i a|i a]; [done|..]; simpl.
  - destruct (decide (i ∈ ids (contents soup))) as [Hi|Hi];
      [|by rewrite insert_after_absent].
    destruct (elem_of_ids _ _ Hi) as (n & Hn & <-).
    destruct (located _ _ Hn) as (anc & L & R & Hloc).
    rewrite Hloc in Hnd, Hnew |- *. rewrite insert_after_at by done.
    change (L ++ n :: new_tag soup nm a :: R)
      with (L ++ [n] ++ new_tag soup nm a :: R).
    rewrite app_assoc. apply NoDup_put_in; [done| |];
      rewrite <- app_assoc; [by apply Hnew|done].
  - destruct (decide (i ∈ tag_ids (contents soup))) as [Hi|Hi];
      [|by rewrite append_no_tag].
    apply list_elem_of_fmap in Hi as ([[j nm'] a'] & -> & Hin). simpl.
    apply elem_of_tags in Hin as [cs Hin].
    destruct (located _ _ Hin) as (anc & L & R & Hloc).
    rewrite Hloc in Hnd, Hnew |- *. rewrite append_at by done.
    change (wrap anc (L ++ Tag j nm' a' (cs ++ [new_tag soup nm a]) :: R))
      with (wrap (mkFrame L j nm' a' R :: anc) (cs ++ [new_tag soup nm a])).
    change (wrap anc (L ++ Tag j nm' a' cs :: R))
      with (wrap (mkFrame L j nm' a' R :: anc) cs) in Hnd, Hnew.
    rewrite <- (app_nil_r cs) in Hnd, Hnew.
    by apply NoDup_put_in; [done|apply Hnew|].
Qed.

Lemma fresh_as_parsed_insert_after i new soup :
  self_and_descendants new = [new] → attrs_as_parsed new = true →
  forallb attrs_as_parsed (descendants (contents soup)) = true →
  forallb attrs_as_parsed (descendants (insert_after i new (contents soup))) = true.
Proof.
  intros Hleaf Hnew. rewrite !forallb_elem. intros H m Hm.
  destruct (interleave_elem_inv _ _ _ _
              (insert_after_descendants i new Hleaf (contents soup)) Hm)
    as [->|(n & -> & Hn)%list_elem_of_fmap]; [done|].
  destruct (insert_after_node_alike i new n) as (_ & Ha & _).
  unfold attrs_as_parsed. rewrite Ha. by apply H.
Qed.

Lemma fresh_as_parsed_append i new soup :
  self_and_descendants new = [new] → attrs_as_parsed new = true →
  forallb attrs_as_parsed (descendants (contents soup)) = true →
  forallb attrs_as_parsed (descendants (append i new (contents soup))) = true.
Proof.
  intros Hleaf Hnew. rewrite !forallb_elem. intros H m Hm.
  destruct (interleave_elem_inv _ _ _ _
              (append_descendants i new Hleaf (contents soup)) Hm)
    as [->|(n & -> & Hn)%list_elem_of_fmap]; [done|].
  destruct (append_node_alike i new n) as (_ & Ha & _).
  unfold attrs_as_parsed. rewrite Ha. by apply H.
Qed.

Lemma ensure_rtl_stylesheet_parsed soup :
  parsed soup → parsed (ensure_rtl_stylesheet soup).
Proof.
  intros [Hwf Hp]. split.
  - apply (fresh_well_formed (lit "link") soup);
      [apply ensure_rtl_stylesheet_fresh|done].
  - unfold ensure_rtl_stylesheet.
    destruct (find _ (contents soup)) as [head|]; [|done].
    destruct (find _ (contents_of head)); [done|].
    destruct (find _ (contents_of head)); simpl.
    + by apply fresh_as_parsed_insert_after.
    + by apply fresh_as_parsed_append.
Qed.

Lemma ensure_rtl_script_parsed soup :
  parsed soup → parsed (ensure_rtl_script soup).
Proof.
  intros [Hwf Hp]. split.
  - apply (fresh_well_formed (lit "script") soup);
      [apply ensure_rtl_script_fresh|done].
  - unfold ensure_rtl_script.
    destruct (find _ (contents soup)) as [body|]; [|done].
    destruct (existsb _ _); [done|].
    destruct (find _ (contents_of body)); simpl.
    + by apply fresh_as_parsed_insert_after.
    + by apply fresh_as_parsed_append.
Qed.

Lemma rtl_adjust_keeps_parsed soup soup' :
  parsed soup → rtl_adjust soup = Ok soup' → parsed soup'.
Proof.
  intros Hp. unfold rtl_adjust.
  destruct (ensure_rtl_attributes_parsed soup Hp) as (soup1 & Hok & Hn & Hi & _).
  rewrite Hok. intros [= <-].
  apply ensure_rtl_script_parsed, ensure_rtl_stylesheet_parsed.
  destruct Hp as [[Hnd Hlt] Hp]. split; [split|].
  - by rewrite Hi.
  - by rewrite Hi, Hn.
  - by apply (ensure_rtl_attributes_as_parsed soup).
Qed.

(** X16: the adjustment and the extractor compose.  On a document as the
    parser builds it the adjustment returns a document of the same kind:
    the identities are still unique, [class] is still a list and the
    attributes to translate are still strings; so the extractor does not
    raise on it. *)
Theorem rtl_adjust_then_collect (soup : BeautifulSoup) :
  parsed soup →
  ∃ soup' es,
    rtl_adjust soup = Ok soup' ∧ parsed soup' ∧ collect_entries soup' = Ok es.
Proof.
  intros Hp. unfold rtl_adjust.
  destruct (ensure_rtl_attributes_parsed soup Hp) as (soup1 & Hok & _).
  assert (rtl_adjust soup
          = Ok (ensure_rtl_script (ensure_rtl_stylesheet soup1))) as Hadj
    by (unfold rtl_adjust; by rewrite Hok).
  pose proof (rtl_adjust_keeps_parsed soup _ Hp Hadj) as Hp'.
  destruct (collect_entries_total _ Hp') as [es Hes].
  exists (ensure_rtl_script (ensure_rtl_stylesheet soup1)), es.
  by rewrite Hok.
Qed.

Lemma rtl_adjust_then_collect_witness :
  ∃ soup' es,
    rtl_adjust sample_page = Ok soup' ∧ parsed soup' ∧
    collect_entries soup' = Ok es.
Proof. apply (rtl_adjust_then_collect sample_page), sample_page_parsed. Defined.

(** ** A run that ends well *)



Section Success.
Variable parse : str → BeautifulSoup.
Variable prettify : BeautifulSoup → str.



End Success.





(** ** The attributes the adjuster sets *)

Lemma find_named_map_attrs f nm (forest : list node) :
  find (named nm) (map_attrs_node f <$> forest)
  = map_attrs_node f <$> find (named nm) forest.
Proof. apply map_attrs_find. intros n. apply map_attrs_named. Qed.

Lemma map_attrs_id (forest : list node) :
  map_attrs_node (λ _ a, a) <$> forest = forest.
Proof. by apply map_attrs_fixed. Qed.

Lemma ensure_rtl_attributes_map soup soup' :
  ensure_rtl_attributes soup = Ok soup' →
  ∃ g f,
    contents soup' = map_attrs_node f <$> (map_attrs_node g <$> contents soup) ∧
    (∀ h, find (named (lit "html")) (contents soup) = Some h →
          g = html_change (id_of h)) ∧
    (∀ b, find (named (lit "body")) (contents soup) = Some b →
          body_change (id_of b) (dict_get (lit "class") (attrs_of b)) = Some f) ∧
    (∀ j a, dict_get (lit "lang") (f j a) = dict_get (lit "lang") a) ∧
    (∀ j a, dict_get (lit "dir") a = Some (AStr (lit "rtl")) →
            dict_get (lit "dir") (f j a) = Some (AStr (lit "rtl"))) ∧
    (∀ j a, dict_get (lit "class") (g j a) = dict_get (lit "class") a).
Proof.
  unfold ensure_rtl_attributes. rewrite ensure_rtl_body_change.
  set (g := match find (named (lit "html")) (contents soup) with
            | Some h => html_change (id_of h)
            | None => λ _ a, a
            end).
  assert (Hg : contents (ensure_rtl_html soup) = map_attrs_node g <$> contents soup).
  { rewrite ensure_rtl_html_change. unfold g.
    destruct (find _ (contents soup)); [done|]. by rewrite map_attrs_id. }
  assert (Hgc : ∀ j a, dict_get (lit "class") (g j a) = dict_get (lit "class") a).
  { intros j a. unfold g. destruct (find _ (contents soup)); [|done].
    apply html_change_class. }
  assert (Hfb : find (named (lit "body")) (contents (ensure_rtl_html soup))
                = map_attrs_node g <$> find (named (lit "body")) (contents soup))
    by (by rewrite Hg, find_named_map_attrs).
  rewrite Hfb.
  destruct (find (named (lit "body")) (contents soup)) as [b|] eqn:Hb; simpl.
  - rewrite map_attrs_id_of, map_attrs_attrs_of.
    destruct (named_Tag _ _ (proj2 (find_Some_elem _ _ _ Hb)))
      as (j & a & cs & ->). simpl. rewrite Hgc.
    destruct (body_change j (dict_get (lit "class") a)) as [f|] eqn:Hf; [|done].
    intros [= <-]. exists g, f. simpl. rewrite Hg.
    destruct (body_change_spec _ _ _ Hf) as (Hlang & Hdir & _ & _).
    split; [done|]. split; [|split; [|done]].
    + intros h Hh. unfold g. by rewrite Hh.
    + by intros b [= <-].
  - intros [= <-]. exists g, (λ _ a, a). rewrite map_attrs_id.
    split; [done|]. split; [|done].
    intros h Hh. unfold g. by rewrite Hh.
Qed.

Lemma body_change_has_rtl_body i class f a :
  body_change i class = Some f → dict_get (lit "class") a = class →
  has_rtl_body (dict_get (lit "class") (f i a)).
Proof.
  unfold body_change. intros Hf Ha.
  assert (Hdir : ∀ a, dict_get (lit "class")
                        (assign i (lit "dir") (AStr (lit "rtl")) i a)
                      = dict_get (lit "class") a)
    by (intros a0; by apply assign_get_ne).
  destruct class as [[s|l]|].
  - destruct (contains _ s) eqn:Ec; [|done]. injection Hf as <-.
    by rewrite Hdir, Ha.
  - case_bool_decide as Hin; injection Hf as <-.
    + by rewrite Hdir, Ha.
    + rewrite assign_at. simpl. apply elem_of_app. right. left.
  - injection Hf as <-. rewrite assign_at. simpl. left.
Qed.

(** X23: what [ensure_rtl_attributes] sets.  When it returns, the [html]
    element that [find] gives is still the one [find] gives, with [lang]
    equal to [fa] and [dir] equal to [rtl]; the [body] element that
    [find] gives is still the one, with [dir] equal to [rtl] and a value
    of [class] that names [rtl-body]. *)
Theorem ensure_rtl_attributes_sets (soup soup' : BeautifulSoup) :
  ensure_rtl_attributes soup = Ok soup' →
  (∀ html, find (named (lit "html")) (contents soup) = Some html →
     ∃ html', find (named (lit "html")) (contents soup') = Some html' ∧
       id_of html' = id_of html ∧
       dict_get (lit "lang") (attrs_of html') = Some (AStr (lit "fa")) ∧
       dict_get (lit "dir") (attrs_of html') = Some (AStr (lit "rtl"))) ∧
  (∀ body, find (named (lit "body")) (contents soup) = Some body →
     ∃ body', find (named (lit "body")) (contents soup') = Some body' ∧
       id_of body' = id_of body ∧
       dict_get (lit "dir") (attrs_of body') = Some (AStr (lit "rtl")) ∧
       has_rtl_body (dict_get (lit "class") (attrs_of body'))).
Proof.
  intros Hok.
  destruct (ensure_rtl_attributes_map soup soup' Hok)
    as (g & f & Hc & Hg & Hf & Hlang & Hdir & Hclass).
  split.
  - intros html Hh. rewrite Hc, !find_named_map_attrs, Hh. simpl.
    eexists. split; [done|]. rewrite !map_attrs_id_of. split; [done|].
    rewrite !map_attrs_attrs_of.
    destruct (named_Tag _ _ (proj2 (find_Some_elem _ _ _ Hh)))
      as (j & a & cs & ->). simpl. rewrite (Hg _ Hh). simpl. split.
    + rewrite Hlang. unfold html_change.
      rewrite assign_get_ne by done. apply assign_at.
    + apply Hdir. unfold html_change. apply assign_at.
  - intros body Hb. rewrite Hc, !find_named_map_attrs, Hb. simpl.
    eexists. split; [done|]. rewrite !map_attrs_id_of. split; [done|].
    rewrite !map_attrs_attrs_of.
    destruct (named_Tag _ _ (proj2 (find_Some_elem _ _ _ Hb)))
      as (j & a & cs & ->). simpl.
    specialize (Hf _ Hb). simpl in Hf.
    destruct (body_change_spec _ _ _ Hf) as (_ & _ & Hat & _).
    split; [apply Hat|].
    apply (body_change_has_rtl_body j (dict_get (lit "class") a)); [done|].
    apply Hclass.
Qed.

Lemma ensure_rtl_attributes_sets_witness :
  (∀ html,
     find (named (lit "html"))
       [Tag 0 (lit "html") [] [Tag 1 (lit "body") [] []]] = Some html →
     ∃ html',
       find (named (lit "html"))
         [Tag 0 (lit "html")
            [(lit "lang", AStr (lit "fa")); (lit "dir", AStr (lit "rtl"))]
            [Tag 1 (lit "body")
               [(lit "dir", AStr (lit "rtl"));
                (lit "class", AList [lit "rtl-body"])] []]] = Some html' ∧
       id_of html' = id_of html ∧
       dict_get (lit "lang") (attrs_of html') = Some (AStr (lit "fa")) ∧
       dict_get (lit "dir") (attrs_of html') = Some (AStr (lit "rtl"))) ∧
  (∀ body,
     find (named (lit "body"))
       [Tag 0 (lit "html") [] [Tag 1 (lit "body") [] []]] = Some body →
     ∃ body',
       find (named (lit "body"))
         [Tag 0 (lit "html")
            [(lit "lang", AStr (lit "fa")); (lit "dir", AStr (lit "rtl"))]
            [Tag 1 (lit "body")
               [(lit "dir", AStr (lit "rtl"));
                (lit "class", AList [lit "rtl-body"])] []]] = Some body' ∧
       id_of body' = id_of body ∧
       dict_get (lit "dir") (attrs_of body') = Some (AStr (lit "rtl")) ∧
       has_rtl_body (dict_get (lit "class") (attrs_of body'))).
Proof.
  apply (ensure_rtl_attributes_sets
           (mkSoup [Tag 0 (lit "html") [] [Tag 1 (lit "body") [] []]] 2)
           (mkSoup
              [Tag 0 (lit "html")
                 [(lit "lang", AStr (lit "fa")); (lit "dir", AStr (lit "rtl"))]
                 [Tag 1 (lit "body")
                    [(lit "dir", AStr (lit "rtl"));
                     (lit "class", AList [lit "rtl-body"])] []]] 2)).
  reflexivity.
Defined.

(** ** The order of the entries *)

Lemma collect_flat_map {A B} (f : A → result (list B)) (l : list A) ys :
  collect f l = Ok ys →
  ys = flat_map (λ x, match f x with Ok zs => zs | Err _ => [] end) l.
Proof.
  revert ys. induction l as [|x l IH]; intros ys; simpl.
  - by intros [= <-].
  - destruct (f x) as [zs|]; [|done].
    destruct (collect f l) as [ys'|]; [|done].
    intros [= <-]. by rewrite (IH ys').
Qed.

Lemma omap_flat_map {A B C} (g : B → option C) (f : A → list B) (l : list A) :
  omap g (flat_map f l) = flat_map (λ x, omap g (f x)) l.
Proof.
  induction l as [|x l IH]; [done|].
  by rewrite !flat_map_cons', omap_app, IH.
Qed.

Lemma sublist_omap' {A B} (g : A → option B) (l1 l2 : list A) :
  l1 `sublist_of` l2 → omap g l1 `sublist_of` omap g l2.
Proof.
  induction 1 as [|x l1 l2 _ IH|x l1 l2 _ IH]; [done|..];
    rewrite ?omap_cons'; destruct (g x); try done.
  - by apply sublist_skip.
  - by apply sublist_cons.
Qed.

Lemma text_entry_node x :
  omap node_of (text_entry x) `sublist_of` [x.2.1.1].
Proof.
  destruct x as [parent [[i k] text]]. unfold text_entry.
  destruct (bool_decide _); [apply sublist_nil_l|].
  destruct (bool_decide _); [apply sublist_nil_l|].
  destruct (split_text text) as [[l c] t].
  destruct (negb (nonempty c)); [apply sublist_nil_l|]. done.
Qed.

Lemma text_entry_place x : omap attr_place (text_entry x) = [].
Proof.
  destruct x as [parent [[i k] text]]. unfold text_entry.
  destruct (bool_decide _); [done|]. destruct (bool_decide _); [done|].
  destruct (split_text text) as [[l c] t]. by destruct (negb (nonempty c)).
Qed.

Lemma attr_entry_place attr element :
  omap attr_place (match attr_entry attr element with
                   | Ok zs => zs
                   | Err _ => []
                   end)
    `sublist_of` [(attr, id_of element)] ∧
  omap node_of (match attr_entry attr element with
                | Ok zs => zs
                | Err _ => []
                end) = [].
Proof.
  unfold attr_entry.
  destruct (dict_get attr (attrs_of element)) as [[value|[|? ?]]|];
    try (split; [apply sublist_nil_l|done]).
  destruct (negb (nonempty value) || negb (nonempty (strip value)));
    [split; [apply sublist_nil_l|done]|].
  destruct (split_text value) as [[l c] t].
  destruct (negb (nonempty c)); [split; [apply sublist_nil_l|done]|].
  by split.
Qed.

Lemma flat_map_nil {A B} (f : A → list B) (l : list A) :
  (∀ x, f x = []) → flat_map f l = [].
Proof.
  intros H. induction l as [|x l IH]; [done|]. by rewrite flat_map_cons', H, IH.
Qed.

(** X24: the order of the entries.  When the extractor returns, the
    text entries come first, one at most for a string node and in
    document order; the attribute entries follow, one at most for an
    attribute of an element, attribute by attribute in the order of
    [ATTRS_TO_TRANSLATE] and, for one attribute, in the document order of
    the elements. *)
Theorem collect_entries_order (soup : BeautifulSoup) (es : list entry) :
  collect_entries soup = Ok es →
  ∃ texts attrs,
    es = texts ++ attrs ∧
    Forall (λ e, is_Some (node_of e)) texts ∧
    Forall (λ e, is_Some (attr_place e)) attrs ∧
    omap node_of es `sublist_of` (λ x, x.2.1.1) <$> all_strings soup ∧
    omap attr_place es `sublist_of` attr_places soup.
Proof.
  unfold collect_entries.
  destruct (collect _ ATTRS_TO_TRANSLATE) as [attrs|] eqn:Ea; [|done].
  intros [= <-].
  exists (flat_map text_entry (all_strings soup)), attrs.
  split; [done|].
  pose proof (collect_flat_map _ _ _ Ea) as Hattrs.
  assert (Hinner : ∀ attr,
            match collect (attr_entry attr)
                    (find_all (having attr) (contents soup)) with
            | Ok zs => zs
            | Err _ => []
            end
            `sublist_of`
            flat_map (λ element, match attr_entry attr element with
                                 | Ok zs => zs
                                 | Err _ => []
                                 end)
                     (find_all (having attr) (contents soup))).
  { intros attr.
    destruct (collect (attr_entry attr) _) as [zs|] eqn:Ez;
      [|apply sublist_nil_l].
    by rewrite (collect_flat_map _ _ _ Ez). }
  assert (Hplaces : omap attr_place attrs `sublist_of` attr_places soup).
  { rewrite Hattrs, omap_flat_map. unfold attr_places.
    apply flat_map_sublist, Forall_forall. intros attr _.
    etrans; [apply sublist_omap', Hinner|]. (* per attribute *)
    rewrite omap_flat_map.
    induction (find_all (having attr) (contents soup)) as [|el els IH];
      [done|].
    rewrite fmap_cons, flat_map_cons'.
    apply (sublist_app _ [_]); [apply attr_entry_place|exact IH]. }
  assert (Hnodes : omap node_of attrs = []).
  { rewrite Hattrs, omap_flat_map. apply flat_map_nil. intros attr.
    apply sublist_nil_r. etrans; [apply sublist_omap', Hinner|].
    rewrite omap_flat_map, flat_map_nil; [done|].
    intros el. apply attr_entry_place. }
  split; [|split; [|split]].
  - apply Forall_forall. intros e (x & _ & He)%elem_of_flat_map.
    destruct (text_entry_elem _ _ He) as (l & t & -> & _). by eexists.
  - apply Forall_forall. intros e He.
    destruct (collect_elem _ _ _ _ Ea He) as (attr & zs & _ & Hzs & Hz).
    destruct (collect_elem _ _ _ _ Hzs Hz) as (el & zs' & _ & Hzs' & Hz').
    destruct (attr_entry_ok _ _ _ _ Hzs' Hz') as (? & ? & ? & _ & -> & _).
    by eexists.
  - rewrite omap_app, Hnodes, app_nil_r, omap_flat_map.
    induction (all_strings soup) as [|x xs IH]; [done|].
    rewrite fmap_cons, flat_map_cons'.
    apply (sublist_app _ [_]); [apply text_entry_node|exact IH].
  - rewrite omap_app, omap_flat_map.
    rewrite (flat_map_nil (λ x, omap attr_place (text_entry x)))
      by apply text_entry_place.
    exact Hplaces.
Qed.

Lemma collect_entries_order_witness :
  ∃ texts attrs,
    [TextEntry 8 (lit "  ") (lit "Hello world") (lit "  ");
     TextEntry 11 [] (lit "Hello world") [];
     AttrEntry 7 (lit "title") (lit " ") (lit "Tip") (lit " ")]
    = texts ++ attrs ∧
    Forall (λ e, is_Some (node_of e)) texts ∧
    Forall (λ e, is_Some (attr_place e)) attrs ∧
    omap node_of
      [TextEntry 8 (lit "  ") (lit "Hello world") (lit "  ");
       TextEntry 11 [] (lit "Hello world") [];
       AttrEntry 7 (lit "title") (lit " ") (lit "Tip") (lit " ")]
      `sublist_of` (λ x, x.2.1.1) <$> all_strings sample_page ∧
    omap attr_place
      [TextEntry 8 (lit "  ") (lit "Hello world") (lit "  ");
       TextEntry 11 [] (lit "Hello world") [];
       AttrEntry 7 (lit "title") (lit " ") (lit "Tip") (lit " ")]
      `sublist_of` attr_places sample_page.
Proof. apply (collect_entries_order sample_page). reflexivity. Defined.

(* ================================================================ *)
(** * Properties of update_html_assets.py *)

Section UpdateAssets.
Import update_html_assets.

(** ** Lines *)

Lemma splitlines_from_concat n : ∀ text line,
  length text ≤ n → concat (splitlines_from line text) = line ++ text.
Proof.
  induction n as [|n IH]; intros [|c rest] line Hlen;
    try (simpl in Hlen; lia).
  - simpl. destruct line; simpl; by rewrite ?app_nil_r.
  - simpl. destruct line; simpl; by rewrite ?app_nil_r.
  - simpl in Hlen.
    change (splitlines_from line (c :: rest))
      with (if is_linebreak c then
              match rest with
              | d :: rest' =>
                  if (c =? 13)%N && (d =? 10)%N
                  then (line ++ [c; d]) :: splitlines_from [] rest'
                  else (line ++ [c]) :: splitlines_from [] rest
              | [] => [line ++ [c]]
              end
            else splitlines_from (line ++ [c]) rest).
    destruct (is_linebreak c).
    + destruct rest as [|d rest'].
      * simpl. by rewrite app_nil_r.
      * destruct ((c =? 13)%N && (d =? 10)%N).
        -- change (concat (?l :: ?ls)) with (l ++ concat ls).
           rewrite IH by (simpl in *; lia). by rewrite <- app_assoc.
        -- change (concat (?l :: ?ls)) with (l ++ concat ls).
           rewrite IH by (simpl in *; lia). by rewrite <- app_assoc.
    + rewrite IH by lia. by rewrite <- app_assoc.
Qed.

Lemma splitlines_concat text : concat (splitlines text) = text.
Proof. by apply (splitlines_from_concat (length text)). Qed.

(** ** The loop *)

Lemma update_step_dropped nl acc line :
  dropped line = true → update_step nl acc line = acc.
Proof.
  unfold dropped, update_step. destruct acc as [new_lines ins].
  destruct (contains (lit "css/plugins.css") line); [done|].
  simpl. by intros ->.
Qed.

Lemma update_step_kept nl new_lines ins line :
  dropped line = false →
  update_step nl (new_lines, ins) line
  = if contains (lit "</body>") line && negb ins
    then (new_lines ++ [MAIN_SCRIPT_TAG ++ nl; line], true)
    else (new_lines ++ [line], ins).
Proof.
  unfold dropped, update_step.
  intros [-> ->]%orb_false_iff. done.
Qed.

Lemma update_loop_inserted nl lines : ∀ acc,
  foldl (update_step nl) (acc, true) lines
  = (acc ++ filter (λ l, dropped l = false) lines, true).
Proof.
  induction lines as [|l lines IH]; intros acc.
  - simpl. by rewrite app_nil_r.
  - cbn [foldl]. destruct (dropped l) eqn:E.
    + rewrite update_step_dropped by done.
      rewrite filter_cons_False by (by rewrite E). apply IH.
    + rewrite update_step_kept by done. rewrite andb_false_r.
      rewrite filter_cons_True by done. rewrite IH.
      by rewrite <- app_assoc.
Qed.

Lemma update_loop_spec nl lines : ∀ acc,
  ∃ pre post,
    filter (λ l, dropped l = false) lines = pre ++ post ∧
    Forall (λ l, contains (lit "</body>") l = false) pre ∧
    ((∃ l post', post = l :: post' ∧ contains (lit "</body>") l = true ∧
        foldl (update_step nl) (acc, false) lines
        = (acc ++ pre ++ (MAIN_SCRIPT_TAG ++ nl) :: post, true)) ∨
     (post = [] ∧
      foldl (update_step nl) (acc, false) lines = (acc ++ pre, false))).
Proof.
  induction lines as [|l lines IH]; intros acc.
  - exists [], []. split; [done|]. split; [constructor|]. right.
    simpl. by rewrite app_nil_r.
  - cbn [foldl]. destruct (dropped l) eqn:E.
    + rewrite update_step_dropped by done.
      rewrite filter_cons_False by (by rewrite E). apply IH.
    + rewrite update_step_kept by done.
      rewrite filter_cons_True by done. rewrite andb_true_r.
      destruct (contains (lit "</body>") l) eqn:Eb.
      * exists [], (l :: filter (λ l, dropped l = false) lines).
        split; [done|]. split; [constructor|]. left.
        exists l, (filter (λ l, dropped l = false) lines).
        split; [done|]. split; [done|].
        rewrite update_loop_inserted. simpl. by rewrite <- app_assoc.
      * destruct (IH (acc ++ [l])) as (pre & post & Hf & Hpre & Hcase).
        exists (l :: pre), post. split; [by rewrite Hf|].
        split; [by constructor|].
        destruct Hcase as [(l' & post' & -> & Hb & Hrun)|[-> Hrun]].
        -- left. exists l', post'. split; [done|]. split; [done|].
           rewrite Hrun. by rewrite <- !app_assoc.
        -- right. split; [done|]. rewrite Hrun. by rewrite <- !app_assoc.
Qed.

(** X19: what [update_file] writes.  The lines of the text concatenate
    to the text.  The new text is made of the lines that neither mention
    [css/plugins.css] nor load an old script, in their order and
    unchanged, with one more line: the main script tag, put before the
    first of them that contains the closing body tag, or, if none does,
    at the very end after a newline. *)
Theorem update_text_spec (text : str) :
  let newline := newline_of text in
  concat (splitlines text) = text ∧
  ∃ pre post,
    filter (λ l, dropped l = false) (splitlines text) = pre ++ post ∧
    Forall (λ l, contains (lit "</body>") l = false) pre ∧
    ((∃ l post', post = l :: post' ∧ contains (lit "</body>") l = true ∧
        update_text text
        = concat pre ++ (MAIN_SCRIPT_TAG ++ newline) ++ concat post) ∨
     (post = [] ∧
      update_text text
      = concat pre ++ newline ++ MAIN_SCRIPT_TAG ++ newline)).
Proof.
  intros newline. split; [apply splitlines_concat|].
  destruct (update_loop_spec newline (splitlines text) [])
    as (pre & post & Hf & Hpre & Hcase).
  exists pre, post. split; [done|]. split; [done|].
  unfold update_text, update_lines. fold newline.
  destruct Hcase as [(l & post' & -> & Hb & ->)|[-> ->]].
  - left. exists l, post'. split; [done|]. split; [done|].
    simpl negb. cbv iota. simpl app at 1.
    by rewrite concat_app.
  - right. split; [done|]. simpl negb. cbv iota. simpl app at 1.
    rewrite concat_app. simpl. by rewrite app_nil_r.
Qed.

End UpdateAssets.

Section UpdateAssetsPattern.
Import update_html_assets.

(** ** The pattern *)

Lemma is_prefix_app l t : is_prefix l (l ++ t) = true.
Proof.
  induction l as [|x l IH]; [done|]. simpl.
  by rewrite bool_decide_eq_true_2, IH.
Qed.

Lemma contains_here (c : N) pre s : contains [c] (pre ++ c :: s) = true.
Proof.
  induction pre as [|y pre IH]; simpl.
  - by rewrite bool_decide_eq_true_2.
  - rewrite IH. by rewrite orb_true_r.
Qed.

Lemma match_here_Cat {R} r1 r2 s gs (k : str → list str → option R) :
  match_here (Cat r1 r2) s gs k
  = match_here r1 s gs (λ rest gs', match_here r2 rest gs' k).
Proof. done. Qed.

Lemma match_here_Lit {R} l t gs (k : str → list str → option R) :
  match_here (Lit l) (l ++ t) gs k = k t gs.
Proof. simpl. by rewrite is_prefix_app, drop_app_length. Qed.

Lemma match_here_Lit_None {R} l s gs (k : str → list str → option R) :
  is_prefix l s = false → match_here (Lit l) s gs k = None.
Proof. simpl. by intros ->. Qed.

Lemma match_here_PlusNot {R} c s gs (k : str → list str → option R) :
  match_here (PlusNot c) s gs k
  = longest_first (λ m, k (drop m s) gs) (run_length c s).
Proof. done. Qed.

Lemma match_here_Group {R} r s gs (k : str → list str → option R) :
  match_here (Group r) s gs k
  = match_here r s gs
      (λ rest gs', k rest (gs' ++ [take (length s - length rest) s])).
Proof. done. Qed.

Lemma run_length_app c v t :
  c ∉ v → run_length c (v ++ t) = length v + run_length c t.
Proof.
  induction v as [|x v IH]; [done|].
  intros [Hx Hv]%not_elem_of_cons. simpl.
  rewrite decide_False by done. by rewrite IH.
Qed.

Lemma run_length_stop c t : run_length c (c :: t) = 0.
Proof. simpl. by rewrite decide_True. Qed.

Lemma longest_first_skip {R} (k : nat → option R) a n :
  (∀ m, a < m → m ≤ a + n → k m = None) →
  longest_first k (a + n) = longest_first k a.
Proof.
  induction n as [|n IH]; intros Hnone.
  - by rewrite Nat.add_0_r.
  - rewrite Nat.add_succ_r. simpl. rewrite Hnone by lia.
    apply IH. intros m ? ?. apply Hnone; lia.
Qed.

Lemma longest_first_hit {R} (k : nat → option R) n r :
  0 < n → k n = Some r → longest_first k n = Some r.
Proof. destruct n; [lia|]. simpl. by intros _ ->. Qed.

Lemma search_skip r indent t :
  (∀ s, s `suffix_of` indent → s ≠ [] →
        match_here r (s ++ t) [] (λ _ gs, Some gs) = None) →
  search r (indent ++ t) = search r t.
Proof.
  induction indent as [|x indent IH]; intros Hnone; [done|].
  change (search r ((x :: indent) ++ t))
    with (match match_here r ((x :: indent) ++ t) [] (λ _ gs, Some gs) with
          | Some gs => Some gs
          | None => search r (indent ++ t)
          end).
  rewrite Hnone by done. apply IH.
  intros s Hs. apply Hnone. by apply suffix_cons_r.
Qed.

(** A script tag whose source has no later place where the pattern
    could start again: the search gives the source. *)
Lemma search_script_src indent b v rest :
  contains (lit "<") indent = false →
  b ≠ [] → gt ∉ b → v ≠ [] → quote ∉ v → gt ∉ v →
  (∀ j, 0 < j → j ≤ length (lit "src=" ++ quote :: v ++ [quote]) →
        is_prefix (lit "src=" ++ [quote])
          (drop j ((lit "src=" ++ quote :: v ++ [quote]) ++ gt :: rest)) = false) →
  search SCRIPT_SRC_PATTERN
    (indent ++ lit "<script" ++ b ++ lit "src=" ++ quote :: v ++ quote :: gt :: rest)
  = Some [v].
Proof.
  intros Hindent Hb Hgtb Hv Hqv Hgtv Hlater.
  rewrite search_skip.
  2:{ intros s Hs Hne. unfold SCRIPT_SRC_PATTERN. rewrite match_here_Cat.
      apply match_here_Lit_None.
      destruct s as [|x s]; [done|]. simpl.
      apply andb_false_iff. left. apply bool_decide_eq_false. intros Hx.
      assert (x = 60%N) as -> by (rewrite <- Hx; reflexivity). clear Hx.
      destruct Hs as [pre ->].
      change (lit "<") with [60%N] in Hindent.
      by rewrite contains_here in Hindent. }
  set (w := lit "src=" ++ quote :: v ++ [quote]) in *.
  set (k0 := λ (_ : str) (gs : list str), Some gs).
  assert (Hw : lit "src=" ++ quote :: v ++ quote :: gt :: rest = w ++ gt :: rest).
  { unfold w. by rewrite <- !app_assoc, <- !app_comm_cons, <- app_assoc. }
  rewrite Hw.
  change (search SCRIPT_SRC_PATTERN (lit "<script" ++ b ++ w ++ gt :: rest))
    with (match match_here SCRIPT_SRC_PATTERN
                  (lit "<script" ++ b ++ w ++ gt :: rest) [] k0 with
          | Some gs => Some gs
          | None => search SCRIPT_SRC_PATTERN
                      (drop 1 (lit "<script" ++ b ++ w ++ gt :: rest))
          end).
  assert (match_here SCRIPT_SRC_PATTERN
            (lit "<script" ++ b ++ w ++ gt :: rest) [] k0 = Some [v]) as ->;
    [|done].
  unfold SCRIPT_SRC_PATTERN.
  rewrite match_here_Cat, match_here_Lit, match_here_Cat, match_here_PlusNot.
  assert (gt ∉ w) as Hgtw.
  { unfold w. rewrite !elem_of_app, !elem_of_cons, !elem_of_app.
    intros [H|[H|[H|H]]]; [|done|done|].
    - revert H. apply (bool_decide_unpack _). vm_compute. exact I.
    - apply list_elem_of_singleton in H. done. }
  rewrite run_length_app by done. rewrite run_length_app by done.
  rewrite run_length_stop, Nat.add_0_r.
  rewrite longest_first_skip.
  2:{ intros m Hm1 Hm2.
      replace m with (length b + (m - length b)) by lia.
      rewrite <- drop_drop, drop_app_length.
      rewrite match_here_Cat. apply match_here_Lit_None.
      apply Hlater; lia. }
  apply longest_first_hit; [destruct b; [done|simpl; lia]|].
  rewrite drop_app_length.
  assert (w ++ gt :: rest
          = (lit "src=" ++ [quote]) ++ v ++ quote :: gt :: rest) as ->.
  { unfold w. by rewrite <- !app_assoc, <- !app_comm_cons, <- app_assoc. }
  rewrite match_here_Cat, match_here_Lit, match_here_Cat, match_here_Group.
  rewrite match_here_PlusNot.
  rewrite run_length_app by done. rewrite run_length_stop, Nat.add_0_r.
  apply longest_first_hit; [destruct v; [done|simpl; lia]|].
  rewrite drop_app_length.
  change (quote :: gt :: rest) with ([quote] ++ gt :: rest).
  rewrite match_here_Lit. unfold k0. simpl app at 1. do 2 f_equal.
  rewrite length_app. simpl length.
  replace (length v + S (S (length rest)) - S (S (length rest)))
    with (length v) by lia.
  apply take_app_length.
Qed.

End UpdateAssetsPattern.

Section UpdateAssetsOldScripts.
Import update_html_assets update_html_assets_facts.

Lemma is_prefix_stop (c : N) s x rest :
  c ∉ s → is_prefix s (x ++ c :: rest) = is_prefix s (x ++ [c]).
Proof.
  revert s. induction x as [|y x IH]; intros [|d s] Hc; try done.
  - apply not_elem_of_cons in Hc as [Hd _]. simpl.
    by rewrite !bool_decide_eq_false_2 by done.
  - apply not_elem_of_cons in Hc as [_ Hs]. simpl. by rewrite IH.
Qed.

Lemma plain_src_later v rest j :
  plain_src v = true → 0 < j → j ≤ length (src_attribute v) →
  is_prefix (lit "src=" ++ [quote]) (drop j (src_attribute v ++ gt :: rest))
  = false.
Proof.
  unfold plain_src. intros [_ Hall]%andb_true_iff Hj1 Hj2.
  rewrite forallb_forall in Hall.
  specialize (Hall j). rewrite negb_true_iff in Hall.
  rewrite drop_app_le by done.
  rewrite is_prefix_stop
    by (apply (bool_decide_unpack _); vm_compute; exact I).
  rewrite <- drop_app_le by done. apply Hall.
  apply in_seq. lia.
Qed.

(** X20: the old scripts go, however their tag is written.  A line in
    which the first opening bracket starts a script tag that has, after
    at least one character other than the closing bracket, the attribute
    [src] with one of the old files as its value, closed right after the
    value, is a line the loop drops: whatever the indentation, the
    attributes before [src] and the rest of the line. *)
Theorem old_script_dropped (indent b f rest : str) :
  contains (lit "<") indent = false →
  b ≠ [] → gt ∉ b → f ∈ OLD_JS_FILES →
  search SCRIPT_SRC_PATTERN
    (indent ++ lit "<script" ++ b ++ lit "src=" ++ quote :: f
       ++ quote :: gt :: rest) = Some [f] ∧
  dropped (indent ++ lit "<script" ++ b ++ lit "src=" ++ quote :: f
             ++ quote :: gt :: rest) = true.
Proof.
  intros Hindent Hb Hgt Hf.
  assert (forallb plain_src OLD_JS_FILES = true) as Hplain
    by (vm_compute; reflexivity).
  rewrite forallb_elem in Hplain. specialize (Hplain f Hf).
  assert (search SCRIPT_SRC_PATTERN
            (indent ++ lit "<script" ++ b ++ lit "src=" ++ quote :: f
               ++ quote :: gt :: rest) = Some [f]) as Hsearch.
  { pose proof Hplain as Hp. unfold plain_src in Hp.
    apply andb_true_iff in Hp as [Hp _].
    apply andb_true_iff in Hp as [Hp Hgtf].
    apply andb_true_iff in Hp as [Hne Hqf].
    apply negb_true_iff, bool_decide_eq_false in Hgtf, Hqf.
    apply search_script_src; try done.
    - by destruct f.
    - intros j Hj1 Hj2. by apply plain_src_later. }
  split; [done|].
  unfold dropped, old_script. rewrite Hsearch. simpl group1.
  rewrite bool_decide_eq_true_2 by done. apply orb_true_r.
Qed.

Lemma old_script_dropped_witness :
  search SCRIPT_SRC_PATTERN
    (lit "    " ++ lit "<script" ++ lit " defer " ++ lit "src=" ++ quote
       :: lit "js/custom.js" ++ quote :: gt :: lit "</script>")
  = Some [lit "js/custom.js"] ∧
  dropped (lit "    " ++ lit "<script" ++ lit " defer " ++ lit "src=" ++ quote
             :: lit "js/custom.js" ++ quote :: gt :: lit "</script>") = true.
Proof.
  apply (old_script_dropped (lit "    ") (lit " defer ") (lit "js/custom.js")
           (lit "</script>")).
  - reflexivity.
  - discriminate.
  - apply (bool_decide_unpack _). vm_compute. exact I.
  - apply (bool_decide_unpack _). vm_compute. exact I.
Defined.

End UpdateAssetsOldScripts.

Section UpdateAssetsText.
Import update_html_assets update_html_assets_lines.

(** ** What the new text holds *)

Lemma is_prefix_block (c : N) n a b :
  c ∉ n → is_prefix n (a ++ c :: b) = is_prefix n a.
Proof.
  revert n. induction a as [|x a IH]; intros [|y n] Hc; try done.
  - apply not_elem_of_cons in Hc as [Hy _]. simpl.
    by rewrite bool_decide_eq_false_2.
  - apply not_elem_of_cons in Hc as [_ Hn]. simpl. by rewrite IH.
Qed.

Lemma contains_nil n : n ≠ [] → contains n [] = false.
Proof. by destruct n. Qed.

Lemma contains_block (c : N) n a b :
  c ∉ n → n ≠ [] → contains n (a ++ c :: b) = contains n a || contains n b.
Proof.
  intros Hc Hn. induction a as [|x a IH].
  - rewrite (contains_nil n Hn). simpl app.
    change (contains n (c :: b)) with (is_prefix n (c :: b) || contains n b).
    pose proof (is_prefix_block c n [] b Hc) as Hp. simpl app in Hp.
    rewrite Hp. by destruct n.
  - change (contains n ((x :: a) ++ c :: b))
      with (is_prefix n ((x :: a) ++ c :: b) || contains n (a ++ c :: b)).
    change (contains n (x :: a)) with (is_prefix n (x :: a) || contains n a).
    rewrite is_prefix_block, IH by done. by rewrite orb_assoc.
Qed.

Lemma one_line_block n c : one_line n → is_linebreak c = true → c ∉ n.
Proof.
  intros [_ Hn] Hc Hin. eapply Forall_forall in Hn; [|exact Hin]. congruence.
Qed.

Lemma contains_terminated n line rest :
  one_line n → terminated line →
  contains n (line ++ rest) = contains n line || contains n rest.
Proof.
  intros Hn (l & c & -> & Hc).
  pose proof (one_line_block n c Hn Hc) as Hnot. destruct Hn as [Hne _].
  rewrite <- app_assoc. simpl app.
  rewrite !contains_block by done.
  by rewrite (contains_nil n Hne), orb_false_r.
Qed.

Lemma abl_contains_then n lines c b :
  one_line n → is_linebreak c = true → all_but_last_terminated lines →
  contains n (concat lines ++ c :: b)
  = existsb (contains n) lines || contains n b.
Proof.
  intros Hn Hc. pose proof (one_line_block n c Hn Hc) as Hnot.
  induction lines as [|x lines IH]; intros Habl.
  - change (contains n ([] ++ c :: b) = false || contains n b).
    rewrite contains_block by (done || apply Hn).
    by rewrite (contains_nil n) by apply Hn.
  - destruct Habl as [[->|Hx] Habl].
    + simpl. rewrite app_nil_r, orb_false_r. apply contains_block; [done|apply Hn].
    + change (concat (x :: lines)) with (x ++ concat lines).
      rewrite <- app_assoc, contains_terminated by done.
      rewrite IH by done. simpl. by rewrite orb_assoc.
Qed.

Lemma abl_contains n lines :
  one_line n → all_but_last_terminated lines →
  contains n (concat lines) = existsb (contains n) lines.
Proof.
  intros Hn. induction lines as [|x lines IH]; intros Habl.
  - simpl. apply contains_nil, Hn.
  - destruct Habl as [[->|Hx] Habl].
    + simpl. by rewrite app_nil_r, orb_false_r.
    + change (concat (x :: lines)) with (x ++ concat lines).
      rewrite contains_terminated by done. by rewrite IH.
Qed.

Lemma abl_filter (P : str → Prop) `{∀ x, Decision (P x)} lines :
  all_but_last_terminated lines → all_but_last_terminated (filter P lines).
Proof.
  induction lines as [|x lines IH]; [done|]. intros [Hx Habl].
  rewrite filter_cons. destruct (decide (P x)); [|by apply IH].
  split; [|by apply IH]. destruct Hx as [->|?]; [by left|by right].
Qed.

Lemma abl_insert pre t post :
  all_but_last_terminated (pre ++ post) → post ≠ [] → terminated t →
  all_but_last_terminated (pre ++ t :: post).
Proof.
  intros Habl Hpost Ht. induction pre as [|x pre IH].
  - split; [by right|done].
  - destruct Habl as [Hx Habl]. split; [|by apply IH].
    right. destruct Hx as [Hnil|?]; [|done].
    apply app_eq_nil in Hnil as [_ ?]. done.
Qed.

Lemma splitlines_from_abl n : ∀ text line,
  length text ≤ n → all_but_last_terminated (splitlines_from line text).
Proof.
  induction n as [|n IH]; intros [|c rest] line Hlen;
    try (simpl in Hlen; lia).
  - destruct line; simpl; [done|split; [by left|done]].
  - destruct line; simpl; [done|split; [by left|done]].
  - simpl in Hlen.
    change (splitlines_from line (c :: rest))
      with (if is_linebreak c then
              match rest with
              | d :: rest' =>
                  if (c =? 13)%N && (d =? 10)%N
                  then (line ++ [c; d]) :: splitlines_from [] rest'
                  else (line ++ [c]) :: splitlines_from [] rest
              | [] => [line ++ [c]]
              end
            else splitlines_from (line ++ [c]) rest).
    destruct (is_linebreak c) eqn:Ec; [|apply IH; lia].
    destruct rest as [|d rest']; [by split; [left|]|].
    destruct ((c =? 13)%N && (d =? 10)%N) eqn:Ecd.
    + split; [|apply IH; simpl in *; lia]. right.
      exists (line ++ [c]), d. split; [by rewrite <- app_assoc|].
      apply andb_true_iff in Ecd as [_ Hd%N.eqb_eq]. by subst d.
    + split; [|apply IH; simpl in *; lia]. right. by exists line, c.
Qed.

Lemma update_lines_spec nl lines :
  ∃ pre post,
    filter (λ l, dropped l = false) lines = pre ++ post ∧
    ((post ≠ [] ∧ update_lines nl lines = pre ++ (MAIN_SCRIPT_TAG ++ nl) :: post) ∨
     (post = [] ∧ update_lines nl lines = pre ++ [nl ++ MAIN_SCRIPT_TAG ++ nl])).
Proof.
  destruct (update_loop_spec nl lines []) as (pre & post & Hf & _ & Hcase).
  exists pre, post. split; [done|]. unfold update_lines.
  destruct Hcase as [(l & post' & -> & _ & ->)|[-> ->]]; [left|right]; done.
Qed.

Lemma contains_app_r n a b : contains n b = true → contains n (a ++ b) = true.
Proof.
  intros Hb. induction a as [|x a IH]; [done|].
  change (contains n ((x :: a) ++ b))
    with (is_prefix n ((x :: a) ++ b) || contains n (a ++ b)).
  rewrite IH. apply orb_true_r.
Qed.

Lemma contains_app_here n a b : contains n (a ++ n ++ b) = true.
Proof.
  apply contains_app_r. destruct (n ++ b) eqn:E; simpl;
    rewrite <- E, is_prefix_app; done.
Qed.

(** X21: what every updated page holds.  Whatever the text was, the new
    text loads the bundled script and does not mention
    [css/plugins.css] any more, on any of its lines or across them. *)
Theorem update_text_assets (text : str) :
  contains MAIN_SCRIPT_TAG (update_text text) = true ∧
  contains (lit "css/plugins.css") (update_text text) = false.
Proof.
  set (needle := lit "css/plugins.css").
  assert (Hneedle : one_line needle).
  { split; [done|]. apply (bool_decide_unpack _). vm_compute. exact I. }
  set (nl := newline_of text).
  assert (Hnl : nl = [13; 10]%N ∨ nl = [10%N])
    by (unfold nl, newline_of; destruct (contains _ text); auto).
  assert (Hkept : ∀ l, l ∈ filter (λ l, dropped l = false) (splitlines text) →
            contains needle l = false).
  { intros l [Hd _]%list_elem_of_filter. unfold dropped in Hd.
    by apply orb_false_iff in Hd as [? _]. }
  assert (Habl : all_but_last_terminated
                   (filter (λ l, dropped l = false) (splitlines text)))
    by (apply abl_filter, (splitlines_from_abl (length text)); done).
  unfold update_text. fold nl.
  destruct (update_lines_spec nl (splitlines text))
    as (pre & post & Hf & [[Hpost ->]|[-> ->]]).
  - split.
    + rewrite concat_app. change (concat (?l :: ?ls)) with (l ++ concat ls).
      rewrite <- app_assoc. apply contains_app_r.
      apply (contains_app_here MAIN_SCRIPT_TAG []).
    + rewrite abl_contains; [|done|].
      * apply not_true_iff_false. intros (l & Hin & Hl)%existsb_exists.
        apply list_elem_of_In, elem_of_app in Hin as [Hin|Hin].
        -- rewrite Hkept in Hl; [done|]. rewrite Hf. apply elem_of_app. by left.
        -- apply elem_of_cons in Hin as [->|Hin].
           ++ revert Hl. by destruct Hnl as [-> | ->]; vm_compute.
           ++ rewrite Hkept in Hl; [done|]. rewrite Hf.
              apply elem_of_app. by right.
      * apply abl_insert; [by rewrite <- Hf|done|].
        destruct Hnl as [-> | ->].
        -- exists (MAIN_SCRIPT_TAG ++ [13%N]), 10%N.
           split; [by rewrite <- app_assoc|done].
        -- by exists MAIN_SCRIPT_TAG, 10%N.
  - rewrite app_nil_r in Hf. split.
    + rewrite concat_app, concat_cons, concat_nil, app_nil_r.
      apply contains_app_r, contains_app_here.
    + rewrite concat_app, concat_cons, concat_nil, app_nil_r.
      destruct Hnl as [-> | ->].
      * change ([13; 10]%N ++ ?x) with (13%N :: 10%N :: x).
        rewrite abl_contains_then by (done || by rewrite <- Hf).
        apply orb_false_iff. split; [|by vm_compute].
        apply not_true_iff_false. intros (l & Hin & Hl)%existsb_exists.
        apply list_elem_of_In in Hin. rewrite Hkept in Hl; [done|].
        by rewrite Hf.
      * change ([10%N] ++ ?x) with (10%N :: x).
        rewrite abl_contains_then by (done || by rewrite <- Hf).
        apply orb_false_iff. split; [|by vm_compute].
        apply not_true_iff_false. intros (l & Hin & Hl)%existsb_exists.
        apply list_elem_of_In in Hin. rewrite Hkept in Hl; [done|].
        by rewrite Hf.
Qed.

End UpdateAssetsText.

Section UpdateAssetsMain.
Import update_html_assets update_html_assets_main.
Variable scandir : gmap str fsnode → list str.

(** ** The run *)




End UpdateAssetsMain.

